(** * Voice2Voice: a shallow embedding of the pipeline and its helpers

    The development follows the layout of the repository:
    - [PyStr]       the [str] methods the code calls (lower, replace, strip);
    - [Difflib]     [difflib.get_close_matches] as the standard library computes it;
    - [Language]    utils/language.py: the three tables and [get_language_code];
    - [Runtime]     the effects of the program: exceptions, module globals, files,
                    the keyboard, and the calls into the model libraries;
    - [Audio], [ASR], [Translation], [TTS]   utils/audio.py and models/*.py;
    - [Pipeline]    run_pipeline.py.

    Text is Python [str] restricted to code points below 256, written as Rocq
    [string]; [None] is [option]'s [None]. *)

From Stdlib Require Import Floats QArith Ascii.
From Stdlib Require String Uint63.
From stdpp Require Import gmap strings list pretty.

Set Warnings "-register-all,-inexact-float".

(* ===================================================================== *)
(** ** The [str] methods used by the repository *)
(* ===================================================================== *)
Module PyStr.

(** [c.lower()] for one code point below 256: A-Z and the Latin-1 capitals
    (0xC0-0xDE except the multiplication sign 0xD7) move up by 32. *)
Definition lower_ascii (c : ascii) : ascii :=
  let n := nat_of_ascii c in
  if ((65 <=? n)%nat && (n <=? 90)%nat)
     || ((192 <=? n)%nat && (n <=? 222)%nat && negb (n =? 215)%nat)
  then ascii_of_nat (n + 32) else c.

Fixpoint lower (s : string) : string :=
  match s with
  | EmptyString => EmptyString
  | String c r => String (lower_ascii c) (lower r)
  end.

(** [c.isspace()] below 256: TAB..CR, FS..US, space, NEL, NBSP. *)
Definition isspace (c : ascii) : bool :=
  let n := nat_of_ascii c in
  ((9 <=? n)%nat && (n <=? 13)%nat) || ((28 <=? n)%nat && (n <=? 32)%nat)
  || (n =? 133)%nat || (n =? 160)%nat.

Fixpoint lstrip (s : string) : string :=
  match s with
  | EmptyString => EmptyString
  | String c r => if isspace c then lstrip r else s
  end.

(** [rstrip] keeps a character when it is not a space or when something
    that is kept follows it. *)
Fixpoint rstrip (s : string) : string :=
  match s with
  | EmptyString => EmptyString
  | String c r =>
      match rstrip r with
      | EmptyString => if isspace c then EmptyString else String c EmptyString
      | r' => String c r'
      end
  end.

Definition strip (s : string) : string := rstrip (lstrip s).

(** [s.replace(old, "")] for a non-empty [old]: occurrences are found from
    the left and do not overlap.  [skip] counts the characters of the
    occurrence being deleted that are still ahead. *)
Fixpoint remove_from (old : string) (skip : nat) (s : string) : string :=
  match s with
  | EmptyString => EmptyString
  | String c r =>
      match skip with
      | S k => remove_from old k r
      | O =>
          if Strings.String.prefix old s
          then remove_from old (Strings.String.length old - 1) r
          else String c (remove_from old 0 r)
      end
  end.

Definition remove (old s : string) : string := remove_from old 0 s.

(** Truth value of a [str]-or-[None]: [None] and [""] are falsy. *)
Definition truthy (o : option string) : bool :=
  match o with
  | None | Some EmptyString => false
  | Some _ => true
  end.

End PyStr.

(* ===================================================================== *)
(** ** Python dictionaries with string keys, in insertion order *)
(* ===================================================================== *)
Module Dict.

Definition dict (V : Type) := list (string * V).

Fixpoint get {V} (d : dict V) (k : string) : option V :=
  match d with
  | [] => None
  | (k', v) :: r => if Strings.String.eqb k' k then Some v else get r k
  end.

(** [d.get(k, default)] *)
Definition get_default {V} (d : dict V) (k : option string) (default : V) : V :=
  match k with
  | None => default
  | Some k => match get d k with Some v => v | None => default end
  end.

(** [k in d]; [None] is a key of none of the tables. *)
Definition contains {V} (d : dict V) (k : option string) : bool :=
  match k with
  | None => false
  | Some k => match get d k with Some _ => true | None => false end
  end.

Definition keys {V} (d : dict V) : list string := map fst d.
Definition values {V} (d : dict V) : list V := map snd d.

End Dict.

(* ===================================================================== *)
(** ** [difflib]: SequenceMatcher.ratio and get_close_matches

    The matcher is built as [get_close_matches] builds it:
    [SequenceMatcher()] with [isjunk=None] and [autojunk=True], [seq2] the
    word and [seq1] each candidate in turn.  Ratios are the exact
    quotients [2*matches/length]; they are only compared with each other and
    with the cutoff. *)
(* ===================================================================== *)
Module Difflib.

Definition block : Type := nat * nat * nat.          (* Match(a, b, size) *)
Definition range4 : Type := nat * nat * nat * nat.   (* (alo, ahi, blo, bhi) *)

Section SequenceMatcher.
Variables a b : list ascii.

(** [a[i] == b[j]], both indices in range. *)
Definition same (i j : nat) : bool :=
  match a !! i, b !! j with
  | Some x, Some y => bool_decide (x = y)
  | _, _ => false
  end.

(** [__chain_b]: [b2j[x]] lists the positions of [x] in [b], increasing.
    With no junk predicate [bjunk] stays empty; when [len(b) >= 200] the
    elements occurring more than [len(b)//100 + 1] times are dropped. *)
Fixpoint indices_from (x : ascii) (j : nat) (l : list ascii) : list nat :=
  match l with
  | [] => []
  | y :: r =>
      if bool_decide (y = x) then j :: indices_from x (S j) r
      else indices_from x (S j) r
  end.

Definition popular (x : ascii) : bool :=
  (200 <=? length b)%nat
  && (length b / 100 + 1 <? length (indices_from x 0 b))%nat.

Definition b2j (x : ascii) : list nat :=
  if popular x then [] else indices_from x 0 b.

(** [j2len.get(j-1, 0)]: index [-1] is never a key. *)
Definition j2len_get (j2len : gmap nat nat) (j : nat) : nat :=
  match j with
  | O => 0
  | S j' => default 0 (j2len !! j')
  end.

(** The inner loop of [find_longest_match] over [b2j[a[i]]], with its
    [continue] and [break].  [i-k+1] is written [i+1-k]: [k <= i+1]. *)
Fixpoint scan_row (i blo bhi : nat) (j2len : gmap nat nat) (js : list nat)
    (newj2len : gmap nat nat) (best : block) : gmap nat nat * block :=
  match js with
  | [] => (newj2len, best)
  | j :: js' =>
      if (j <? blo)%nat then scan_row i blo bhi j2len js' newj2len best
      else if (bhi <=? j)%nat then (newj2len, best)
      else
        let k := (j2len_get j2len j + 1)%nat in
        let '(_, _, bestsize) := best in
        scan_row i blo bhi j2len js' (<[j := k]> newj2len)
          (if (bestsize <? k)%nat then ((i + 1 - k)%nat, (j + 1 - k)%nat, k) else best)
  end.

Fixpoint scan_rows (rows : list nat) (blo bhi : nat) (j2len : gmap nat nat)
    (best : block) : block :=
  match rows with
  | [] => best
  | i :: rest =>
      let '(newj2len, best') :=
        scan_row i blo bhi j2len (from_option b2j [] (a !! i)) ∅ best in
      scan_rows rest blo bhi newj2len best'
  end.

(** [while besti > alo and bestj > blo and a[besti-1] == b[bestj-1]] *)
Fixpoint extend_left (alo blo besti bestj bestsize : nat) {struct besti} : block :=
  match besti, bestj with
  | S i', S j' =>
      if (alo <? besti)%nat && (blo <? bestj)%nat && same i' j'
      then extend_left alo blo i' j' (S bestsize)
      else (besti, bestj, bestsize)
  | _, _ => (besti, bestj, bestsize)
  end.

(** [while besti+bestsize < ahi and bestj+bestsize < bhi and
    a[besti+bestsize] == b[bestj+bestsize]]; [room] is [ahi - (besti+bestsize)]. *)
Fixpoint extend_right (room ahi bhi besti bestj bestsize : nat) : nat :=
  match room with
  | O => bestsize
  | S room' =>
      if (besti + bestsize <? ahi)%nat && (bestj + bestsize <? bhi)%nat
         && same (besti + bestsize) (bestj + bestsize)
      then extend_right room' ahi bhi besti bestj (S bestsize)
      else bestsize
  end.

(** The two loops that extend over junk never run: [bjunk] is empty. *)
Definition find_longest_match (alo ahi blo bhi : nat) : block :=
  let '(besti, bestj, bestsize) :=
    scan_rows (seq alo (ahi - alo)) blo bhi ∅ (alo, blo, 0%nat) in
  let '(besti, bestj, bestsize) := extend_left alo blo besti bestj bestsize in
  (besti, bestj,
   extend_right (ahi - (besti + bestsize)) ahi bhi besti bestj bestsize).

(** [get_matching_blocks]: the work list is a Python list used as a stack
    ([append]/[pop] at its end); here its end is the head.  Each turn pops
    one range, so [2*len(a)+1] turns empty it. *)
Fixpoint blocks_loop (turns : nat) (queue : list range4) (matching_blocks : list block)
    : list block :=
  match turns, queue with
  | S turns', (alo, ahi, blo, bhi) :: queue =>
      let '(i, j, k) := find_longest_match alo ahi blo bhi in
      if (k =? 0)%nat then blocks_loop turns' queue matching_blocks
      else
        let queue :=
          if (alo <? i)%nat && (blo <? j)%nat then (alo, i, blo, j) :: queue else queue in
        let queue :=
          if (i + k <? ahi)%nat && (j + k <? bhi)%nat
          then ((i + k)%nat, ahi, (j + k)%nat, bhi) :: queue else queue in
        blocks_loop turns' queue (matching_blocks ++ [(i, j, k)])
  | _, _ => matching_blocks
  end.

Definition get_matching_blocks : list block :=
  blocks_loop (2 * length a + 1) [(0%nat, length a, 0%nat, length b)] [].

(** [_calculate_ratio] *)
Definition calculate_ratio (matches len : nat) : Q :=
  match len with
  | O => 1
  | S _ => (2 * Z.of_nat matches) # (Pos.of_nat len)
  end.

(** [ratio]: sorting the blocks and merging adjacent ones leaves the sum of
    their sizes as it is. *)
Definition matches : nat := foldr (λ '(_, _, k) acc, (k + acc)%nat) 0%nat get_matching_blocks.

Definition ratio : Q := calculate_ratio matches (length a + length b).

(** [quick_ratio]: how many elements of [a] find a partner in the multiset
    of [b]. *)
Definition fullbcount (x : ascii) : Z := Z.of_nat (length (indices_from x 0 b)).

Fixpoint quick_matches (l : list ascii) (avail : gmap ascii Z) : nat :=
  match l with
  | [] => 0
  | elt :: r =>
      let numb := from_option id (fullbcount elt) (avail !! elt) in
      ((if (0 <? numb)%Z then 1 else 0) + quick_matches r (<[elt := (numb - 1)%Z]> avail))%nat
  end.

Definition quick_ratio : Q := calculate_ratio (quick_matches a ∅) (length a + length b).

Definition real_quick_ratio : Q :=
  calculate_ratio (length a `min` length b) (length a + length b).

End SequenceMatcher.

(** Python compares the [(score, x)] tuples: by score, then by string. *)
Definition tuple_lt (p q : Q * string) : bool :=
  match (fst p ?= fst q)%Q with
  | Lt => true
  | Eq => Strings.String.ltb (snd p) (snd q)
  | Gt => false
  end.

Fixpoint insert_desc (p : Q * string) (l : list (Q * string)) : list (Q * string) :=
  match l with
  | [] => [p]
  | q :: r => if tuple_lt p q then q :: insert_desc p r else p :: l
  end.

(** [heapq.nlargest(n, result)]: [sorted(result, reverse=True)[:n]]. *)
Definition nlargest (n : nat) (result : list (Q * string)) : list (Q * string) :=
  take n (foldr insert_desc [] result).

Definition chars (s : string) : list ascii := Strings.String.list_ascii_of_string s.

(** The three tests a candidate [x] passes before it is scored. *)
Definition close_enough (word x : string) (cutoff : Q) : bool :=
  Qle_bool cutoff (real_quick_ratio (chars x) (chars word))
  && Qle_bool cutoff (quick_ratio (chars x) (chars word))
  && Qle_bool cutoff (ratio (chars x) (chars word)).

(** [get_close_matches(word, possibilities, n, cutoff)]; both call sites pass
    [n > 0] and a cutoff in [0, 1], so the two [ValueError] checks pass. *)
Definition get_close_matches (word : string) (possibilities : list string)
    (n : nat) (cutoff : Q) : list string :=
  let result :=
    omap (λ x, if close_enough word x cutoff
               then Some (ratio (chars x) (chars word), x) else None)
         possibilities in
  map snd (nlargest n result).

End Difflib.

(* ===================================================================== *)
(** ** utils/language.py *)
(* ===================================================================== *)
Module Language.
Import Dict.

Definition INDIAN_LANG_MAP : dict string :=
  [ ("as", "Assamese"); ("bn", "Bengali"); ("brx", "Bodo"); ("doi", "Dogri");
    ("gu", "Gujarati"); ("hi", "Hindi"); ("kn", "Kannada"); ("kok", "Konkani");
    ("ks", "Kashmiri"); ("mai", "Maithili"); ("ml", "Malayalam"); ("mni", "Manipuri");
    ("mr", "Marathi"); ("ne", "Nepali"); ("or", "Odia"); ("pa", "Punjabi");
    ("sa", "Sanskrit"); ("sat", "Santali"); ("sd", "Sindhi"); ("ta", "Tamil");
    ("te", "Telugu"); ("ur", "Urdu") ].

Definition INDIAN_LANGS : list string := keys INDIAN_LANG_MAP.

Definition SUPPORTED_LANGUAGES : dict string :=
  [ ("english", "en"); ("hindi", "hi"); ("telugu", "te"); ("tamil", "ta");
    ("german", "de"); ("french", "fr"); ("bengali", "bn"); ("marathi", "mr");
    ("kannada", "kn"); ("malayalam", "ml"); ("japanese", "ja"); ("spanish", "es");
    ("gujarati", "gu"); ("punjabi", "pa") ].

Definition NLLB_LANG_CODE_MAP : dict string :=
  [ ("en", "eng_Latn"); ("hi", "hin_Deva"); ("te", "tel_Telu"); ("ta", "tam_Taml");
    ("bn", "ben_Beng"); ("ml", "mal_Mlym"); ("kn", "kan_Knda"); ("mr", "mar_Deva");
    ("gu", "guj_Gujr"); ("pa", "pan_Guru"); ("ur", "urd_Arab"); ("ne", "npi_Deva");
    ("or", "ory_Orya"); ("as", "asm_Beng"); ("sd", "snd_Arab"); ("si", "sin_Sinh");
    ("fr", "fra_Latn"); ("de", "deu_Latn"); ("es", "spa_Latn"); ("zh", "zho_Hans");
    ("ja", "jpn_Jpan"); ("ko", "kor_Hang"); ("ru", "rus_Cyrl"); ("ar", "arb_Arab");
    ("pt", "por_Latn"); ("it", "ita_Latn") ].

Definition normalize_language_input (text : string) : string :=
  PyStr.strip (PyStr.remove "lang" (PyStr.remove "language" (PyStr.lower text))).

(** Returns [(lang_code, canonical_name)] or [(None, None)]. *)
Definition get_language_code (spoken_input : string) : option string * option string :=
  let normalized := normalize_language_input spoken_input in
  let matches :=
    Difflib.get_close_matches normalized (keys SUPPORTED_LANGUAGES) 1 (1 # 2) in
  match matches with
  | lang_name :: _ => (get SUPPORTED_LANGUAGES lang_name, Some lang_name)
  | [] => (None, None)
  end.

(** The close matches [detect_target_language_manually] prints when the
    typed name was not recognised: [n=3], and [cutoff] left at its default
    of 0.6. *)
Definition suggestions (typed_input : string) : list string :=
  Difflib.get_close_matches (normalize_language_input typed_input)
    (keys SUPPORTED_LANGUAGES) 3 (6 # 10).

End Language.

(* ===================================================================== *)
(** ** The effects of the program

    A run threads one [state]: the module-level globals that cache the
    models, the files on disk, and the trace of every call made into a
    library or device.  What such a call answers is not the program's to
    decide: a [world] gives the answer, a value or an exception, from the
    call and everything that happened before it, and says what the call
    did to the files (a model loader downloads and caches).  The world also
    says which file a path names, how a sound file encodes its samples, and
    whether a write goes through.  [print] only writes to the terminal and
    is left out. *)
(* ===================================================================== *)
Module Runtime.

(** Exceptions; each is an instance of [Exception]. *)
Inductive exn : Type :=
| JSONDecodeError
| UnicodeDecodeError
| UnicodeEncodeError
| FileNotFoundError
| PermissionError
| ValueError
| ZeroDivisionError
| OverflowError
| IndexError
| LibraryError (what : string).

Definition is_JSONDecodeError (e : exn) : bool :=
  match e with JSONDecodeError => true | _ => false end.

Inductive outcome (A : Type) : Type :=
| Returns (a : A)
| Raises (e : exn).
Arguments Returns {A} a.
Arguments Raises {A} e.

(** Python values that end up in the JSON log. *)
Inductive json : Type :=
| JNull
| JBool (b : bool)
| JInt (z : Z)
| JFloat (f : float)
| JString (s : string)
| JArray (l : list json)
| JObject (m : list (string * json)).

Definition of_str (o : option string) : json :=
  match o with Some s => JString s | None => JNull end.

Definition handle : Type := nat.                (* a model object, by identity *)
Definition signal : Type := list float.

(** A numpy array of samples as the code meets it: one-dimensional, or the
    zero-dimensional array that [squeeze] makes of a single sample. *)
Inductive ndarray : Type :=
| Scalar (v : float)
| Vector (x : signal).

(** [a.squeeze()] of one row of samples: every axis of length one goes. *)
Definition squeeze (row : signal) : ndarray :=
  match row with
  | [v] => Scalar v
  | _ => Vector row
  end.

(** The elements of an array, in order. *)
Definition values (a : ndarray) : signal :=
  match a with
  | Scalar v => [v]
  | Vector x => x
  end.
Definition audio : Type := signal * Z.          (* samples, sample rate *)
Definition coeffs : Type := list float * list float.   (* (b, a) *)

Inductive sound : Type :=
| Beep (duration freq : float) (fs : Z)
| Samples (x : signal) (fs : Z).

(** Calls into libraries and devices, with the arguments the code passes. *)
Inductive call : Type :=
| sd_rec (frames fs : Z)                         (* sd.rec(...); sd.wait() *)
| sd_play (x : sound)                            (* sd.play(...); sd.wait() *)
| whisper_load_model (name : string)         (* whisper.load_model(name).to(device) *)
| model_eval (model : handle)                (* model.eval() *)
| whisper_detect_language (model : handle) (a : audio)
| whisper_decode (model : handle) (a : audio)
| AutoModel_from_pretrained (name : string)
| indic_model_call (model : handle) (a : audio) (lang_code decoding : string)
| input (prompt : string)
| pipeline (task model : string)
| set_quantized_engine (name : string)
| quantize_dynamic (pipe : handle)
| nllb_call (pipe : handle) (text src_lang tgt_lang : string) (max_length : Z)
| ParlerTTS_from_pretrained (name : string)
| AutoTokenizer_from_pretrained (name : string)
| AutoTokenizer_of_text_encoder (model : handle)
| ensure_pad_token (tokenizer : handle)      (* pad_token = eos_token if it is None *)
| parler_generate (model tokenizer desc_tokenizer : handle) (prompt description : string)
| pyttsx3_init
| engine_setProperty (engine : handle) (name : string) (value : json)
| engine_say (engine : handle) (text : string)
| engine_runAndWait (engine : handle)
| perf_counter
| cpu_times
| memory_info_rss
| cpu_count
| utcnow_isoformat.

(** The five blocks [run_voice2voice_evaluation] labels Phase 1 to 5. *)
Inductive phase : Type :=
| AudioCapture
| ASR
| TargetLanguageSelection
| Translation
| TTSSynthesis.

(** A trace lists the calls made and, between them, where the run entered
    each of its phases. *)
Inductive event : Type :=
| Lib (c : call)
| Phase (p : phase).

(** The type of what each call answers. *)
Definition ret (c : call) : Type :=
  match c with
  | sd_rec _ _ => list (list float)              (* frames x channels *)
  | whisper_load_model _ | AutoModel_from_pretrained _ | pipeline _ _
  | ParlerTTS_from_pretrained _ | AutoTokenizer_from_pretrained _
  | AutoTokenizer_of_text_encoder _ | pyttsx3_init => handle
  | whisper_detect_language _ _ => list (string * float)   (* probs *)
  | whisper_decode _ _ | indic_model_call _ _ _ _ | input _
  | nllb_call _ _ _ _ _ | utcnow_isoformat => string
  | parler_generate _ _ _ _ _ => audio           (* waveform, sampling_rate *)
  | perf_counter => float
  | cpu_times => float * float                   (* user, system *)
  | memory_info_rss => Z
  | cpu_count => option Z
  | sd_play _ | model_eval _ | set_quantized_engine _ | quantize_dynamic _
  | ensure_pad_token _
  | engine_setProperty _ _ _ | engine_say _ _ | engine_runAndWait _ => unit
  end.

(** What a file holds, as its readers see it. *)
Inductive contents : Type :=
| Audio (x : signal) (fs : Z)     (* a sound file: the samples it decodes to *)
| Json (v : json)                 (* text that [json.load] reads as [v] *)
| Malformed                       (* text that [json.load] rejects *)
| Undecodable.                    (* bytes that are not text *)

Record file : Type := File { data : contents; writable : bool }.

(** How opening a file for writing and writing to it ends. *)
Inductive written : Type :=
| Written                         (* the file holds what was written *)
| Refused (e : exn)               (* it could not be opened: nothing changed *)
| Torn (e : exn) (rest : contents).   (* truncated on opening, then the write
                                         failed and left this behind *)

(** scipy.signal's two functions are pure; a call answers by history and
    may change files; [resolve] gives the file a path names, the same for
    two paths to one file; [encode] gives the samples a sound file written
    under a name decodes to (16-bit PCM for ".wav"); [store] says how
    writing given contents to a file ends. *)
Record world : Type := World {
  respond : ∀ c : call, list event → outcome (ret c);
  effect : call → list event → gmap string file → gmap string file;
  butter : Z → float → float → string → outcome coeffs;
  lfilter : coeffs → signal → outcome signal;
  resolve : string → string;
  encode : string → signal → signal;
  store : string → contents → list event → written;
}.

Record state : Type := State {
  _whisper_model : option handle;                (* models/asr.py *)
  _indic_model : option handle;
  _nllb_pipeline : option handle;                (* models/translation.py *)
  _parler_model : option handle;                 (* models/tts.py *)
  _tokenizer : option handle;
  _desc_tokenizer : option handle;
  _engine : option handle;
  files : gmap string file;                      (* by the name [resolve] gives *)
  trace : list event;
}.

Definition M (A : Type) : Type := state → outcome A * state.

Definition return_ {A} (a : A) : M A := λ s, (Returns a, s).
Definition raise {A} (e : exn) : M A := λ s, (Raises e, s).
Definition bind {A B} (m : M A) (k : A → M B) : M B :=
  λ s, match m s with
       | (Returns a, s') => k a s'
       | (Raises e, s') => (Raises e, s')
       end.

(** [try: m  except <class>: h] for the exceptions [caught] selects. *)
Definition try_except {A} (m : M A) (caught : exn → bool) (h : exn → M A) : M A :=
  λ s, match m s with
       | (Raises e, s') => if caught e then h e s' else (Raises e, s')
       | r => r
       end.

Definition Exception (e : exn) : bool := true.

Declare Scope M_scope.
Delimit Scope M_scope with M.
Bind Scope M_scope with M.
Notation "x ← y ; z" := (bind y (λ x : _, z))
  (at level 20, y at level 100, z at level 200, only parsing) : M_scope.
Notation "' x ← y ; z" := (bind y (λ x : _, z))
  (at level 20, x pattern, y at level 100, z at level 200, only parsing) : M_scope.
Open Scope M_scope.

Definition lift {A} (o : outcome A) : M A := λ s, (o, s).

(** Sequencing of computations that touch no state. *)
Definition and_then {A B} (o : outcome A) (k : A → outcome B) : outcome B :=
  match o with
  | Returns a => k a
  | Raises e => Raises e
  end.

(** Reading and assigning the globals and the file table. *)
Definition read {A} (field : state → A) : M A := λ s, (Returns (field s), s).
Definition modify (f : state → state) : M unit := λ s, (Returns (), f s).

Definition set_whisper_model (v : option handle) (s : state) : state :=
  State v (_indic_model s) (_nllb_pipeline s) (_parler_model s) (_tokenizer s)
        (_desc_tokenizer s) (_engine s) (files s) (trace s).
Definition set_indic_model (v : option handle) (s : state) : state :=
  State (_whisper_model s) v (_nllb_pipeline s) (_parler_model s) (_tokenizer s)
        (_desc_tokenizer s) (_engine s) (files s) (trace s).
Definition set_nllb_pipeline (v : option handle) (s : state) : state :=
  State (_whisper_model s) (_indic_model s) v (_parler_model s) (_tokenizer s)
        (_desc_tokenizer s) (_engine s) (files s) (trace s).
Definition set_parler_model (v : option handle) (s : state) : state :=
  State (_whisper_model s) (_indic_model s) (_nllb_pipeline s) v (_tokenizer s)
        (_desc_tokenizer s) (_engine s) (files s) (trace s).
Definition set_tokenizer (v : option handle) (s : state) : state :=
  State (_whisper_model s) (_indic_model s) (_nllb_pipeline s) (_parler_model s) v
        (_desc_tokenizer s) (_engine s) (files s) (trace s).
Definition set_desc_tokenizer (v : option handle) (s : state) : state :=
  State (_whisper_model s) (_indic_model s) (_nllb_pipeline s) (_parler_model s)
        (_tokenizer s) v (_engine s) (files s) (trace s).
Definition set_engine (v : option handle) (s : state) : state :=
  State (_whisper_model s) (_indic_model s) (_nllb_pipeline s) (_parler_model s)
        (_tokenizer s) (_desc_tokenizer s) v (files s) (trace s).
Definition set_files (v : gmap string file) (s : state) : state :=
  State (_whisper_model s) (_indic_model s) (_nllb_pipeline s) (_parler_model s)
        (_tokenizer s) (_desc_tokenizer s) (_engine s) v (trace s).
Definition log (e : event) (s : state) : state :=
  State (_whisper_model s) (_indic_model s) (_nllb_pipeline s) (_parler_model s)
        (_tokenizer s) (_desc_tokenizer s) (_engine s) (files s) (trace s ++ [e]).

Section Calls.
Variable w : world.

(** The state a call leaves: the call is logged and the files are as the
    library left them. *)
Definition called (c : call) (s : state) : state :=
  set_files (effect w c (trace s) (files s)) (log (Lib c) s).

(** A call is answered by the world from what came before. *)
Definition lib (c : call) : M (ret c) :=
  λ s, (respond w c (trace s), called c s).

(** [open(path, "w")] and the writes that follow, up to closing the file.  A
    file that exists must be writable; opening truncates, so a write that
    fails later leaves the file torn. *)
Definition write_file (path : string) (d : contents) : M unit :=
  λ s, let name := resolve w path in
       match files s !! name with
       | Some (File _ false) => (Raises PermissionError, s)
       | _ =>
           match store w name d (trace s) with
           | Written => (Returns (), set_files (<[name := File d true]> (files s)) s)
           | Refused e => (Raises e, s)
           | Torn e rest => (Raises e, set_files (<[name := File rest true]> (files s)) s)
           end
       end.

(** [sf.write(path, data, fs)]: the channel count is [data.shape[1]] unless
    the array has one dimension, so a zero-dimensional array raises before the
    file is opened; the file then holds the samples as its format encodes
    them. *)
Definition sf_write (path : string) (data : ndarray) (fs : Z) : M unit :=
  match data with
  | Scalar _ => raise IndexError
  | Vector x => write_file path (Audio (encode w path x) fs)
  end.

(** [whisper.load_audio], [torchaudio.load], [sf.read]: the sound in [path]. *)
Definition load_audio (path : string) : M audio :=
  λ s, match files s !! resolve w path with
       | Some (File (Audio x fs) _) => (Returns (x, fs), s)
       | Some _ => (Raises (LibraryError "not a sound file"), s)
       | None => (Raises FileNotFoundError, s)
       end.

(** [os.path.exists(path)] *)
Definition exists_ (path : string) : M bool :=
  λ s, (Returns (bool_decide (is_Some (files s !! resolve w path))), s).

(** [with open(path, "r") as f: json.load(f)].  A sound file is not text. *)
Definition json_load (path : string) : M json :=
  λ s, match files s !! resolve w path with
       | Some (File (Json v) _) => (Returns v, s)
       | Some (File Malformed _) => (Raises JSONDecodeError, s)
       | Some (File _ _) => (Raises UnicodeDecodeError, s)
       | None => (Raises FileNotFoundError, s)
       end.

(** [with open(path, "w") as f: json.dump(v, f, ...); f.write("\n")]: what
    a completed write leaves reads back as [v]. *)
Definition json_dump (path : string) (v : json) : M unit :=
  write_file path (Json v).

End Calls.

Definition mark (p : phase) : M unit := modify (log (Phase p)).

End Runtime.

(* ===================================================================== *)
(** ** utils/system.py *)
(* ===================================================================== *)
Module System.

Definition device : string := "cpu".

End System.

(* ===================================================================== *)
(** ** Python numbers *)
(* ===================================================================== *)
Module PyNum.
Import Runtime.

(** A number handed to the program: an [int] or a [float]. *)
Inductive number : Type :=
| PyInt (z : Z)
| PyFloat (f : float).

(** [float(z)], also where an [int] meets a [float] in arithmetic: the
    nearest float, ties to even; [OverflowError] when that is beyond the
    largest float. *)
Definition float_of_int (z : Z) : outcome float :=
  match binary_normalize prec emax z 0 false with
  | S754_infinity _ => Raises OverflowError
  | f => Returns (SF2Prim f)
  end.

(** [int(x)] of a float: truncation toward zero. *)
Definition int_of_float (x : float) : outcome Z :=
  match Prim2SF x with
  | S754_nan => Raises ValueError
  | S754_infinity _ => Raises OverflowError
  | S754_zero _ => Returns 0%Z
  | S754_finite s m e =>
      let a := Z.shiftl (Zpos m) e in
      Returns (if s then - a else a)%Z
  end.

(** [x / y] on floats. *)
Definition truediv (x y : float) : outcome float :=
  if (y =? 0)%float then Raises ZeroDivisionError else Returns (x / y)%float.

(** [a / b] on ints: the float nearest the quotient, ties to even. *)
Definition int_truediv (a b : Z) : outcome float :=
  if (b =? 0)%Z then Raises ZeroDivisionError
  else
    let s := xorb (a <? 0)%Z (b <? 0)%Z in
    if (a =? 0)%Z then Returns (SF2Prim (S754_zero s))
    else
      let '(q, e, l) := SFdiv_core_binary prec emax (Z.abs a) 0 (Z.abs b) 0 in
      match binary_round_aux prec emax s q e l with
      | S754_infinity _ => Raises OverflowError
      | f => Returns (SF2Prim f)
      end.

(** [x * z] for an [int] [z]. *)
Definition mul_int (x : number) (z : Z) : outcome number :=
  match x with
  | PyInt a => Returns (PyInt (a * z))
  | PyFloat f => and_then (float_of_int z) (λ g, Returns (PyFloat (f * g)))
  end.

(** [int(x)] *)
Definition int (x : number) : outcome Z :=
  match x with
  | PyInt z => Returns z
  | PyFloat f => int_of_float f
  end.

(** [max(x, y)] and [min(x, y)] keep their first argument unless the second
    is strictly beyond it. *)
Definition max (x y : float) : float := if (x <? y)%float then y else x.
Definition min (x y : float) : float := if (y <? x)%float then y else x.

End PyNum.

(* ===================================================================== *)
(** ** utils/audio.py *)
(* ===================================================================== *)
Module Audio.
Import Runtime.

Section WithWorld.
Variable w : world.

(** Designs the Butterworth bandpass filter; the cutoffs are kept strictly
    within Nyquist. *)
Definition butter_bandpass (lowcut highcut : float) (fs : Z) (order : Z)
    : outcome coeffs :=
  and_then (PyNum.float_of_int fs) (λ fs',
  let nyq := (0.5 * fs')%float in
  and_then (PyNum.truediv lowcut nyq) (λ low',
  let low := PyNum.max low' 1e-6%float in
  and_then (PyNum.truediv highcut nyq) (λ high',
  let high := PyNum.min high' 0.999%float in
  butter w order low high "band"))).

Definition bandpass_filter (data : signal) (lowcut highcut : float) (fs : Z)
    (order : Z) : outcome signal :=
  and_then (butter_bandpass lowcut highcut fs order) (λ ba, lfilter w ba data).

(** The defaults of [bandpass_filter] that [record_audio] leaves in place. *)
Definition default_lowcut : float := 80%float.
Definition default_highcut : float := 7900%float.
Definition default_order : Z := 4.

(** Records audio, applies bandpass filtering, and saves to disk.  The
    cast of the played-back samples to float32 is not modelled. *)
Definition record_audio (duration : PyNum.number) (fs : Z) (filename : string)
    (playback : bool) : M string :=
  frames ← lift (and_then (PyNum.mul_int duration fs) PyNum.int);
  data ← lib w (sd_rec frames fs);
  let raw := concat data in
  filtered ← lift (bandpass_filter raw default_lowcut default_highcut fs default_order);
  _ ← (if playback then lib w (sd_play (Samples filtered fs)) else return_ ());
  _ ← sf_write w filename (Vector filtered) fs;
  return_ filename.

(** Plays a short beep to cue recording: [duration=0.07, freq=1000, fs=44100]. *)
Definition play_beep : M unit :=
  lib w (sd_play (Beep 0.07%float 1000%float 44100)).

(** Plays a WAV file; a failure is printed and swallowed. *)
Definition play_wav (filename : string) : M unit :=
  try_except
    ('(x, fs) ← load_audio w filename;
     lib w (sd_play (Samples x fs)))
    Exception (λ _, return_ ()).

End WithWorld.
End Audio.

(* ===================================================================== *)
(** ** models/asr.py and the manual fallback of utils/language.py *)
(* ===================================================================== *)
Module ASR.
Import Runtime Language.

Section WithWorld.
Variable w : world.

Definition get_whisper_model : M handle :=
  g ← read _whisper_model;
  match g with
  | Some m => return_ m
  | None =>
      m ← lib w (whisper_load_model "small");
      _ ← modify (set_whisper_model (Some m));
      _ ← lib w (model_eval m);
      return_ m
  end.

Definition get_indic_model : M handle :=
  g ← read _indic_model;
  match g with
  | Some m => return_ m
  | None =>
      m ← lib w (AutoModel_from_pretrained "ai4bharat/indic-conformer-600m-multilingual");
      _ ← modify (set_indic_model (Some m));
      _ ← lib w (model_eval m);
      return_ m
  end.

(** [max(probs, key=probs.get)]: the first key with the greatest value;
    [ValueError] on an empty dict. *)
Fixpoint max_key (best : string * float) (rest : list (string * float)) : string :=
  match rest with
  | [] => fst best
  | kv :: rest' => max_key (if (snd best <? snd kv)%float then kv else best) rest'
  end.

Definition detect_input_language_whisper (audio_path : string) (model : handle)
    : M (string * string * bool) :=
  a ← load_audio w audio_path;
  probs ← lib w (whisper_detect_language model a);
  detected_code ← match probs with
                  | [] => raise ValueError
                  | kv :: rest => return_ (max_key kv rest)
                  end;
  let is_indian := Dict.contains INDIAN_LANG_MAP (Some detected_code) in
  let lang_name := Dict.get_default INDIAN_LANG_MAP (Some detected_code) "International" in
  return_ (detected_code, lang_name, is_indian).

Definition whisper_transcribe (audio_path : string) (model : handle) : M string :=
  a ← load_audio w audio_path;
  lib w (whisper_decode model a).

(** Transcribe using IndicConformer; resampling to 16 kHz and the mix-down
    to mono happen inside the call, whose answer is the text taken from the
    model's result (the result itself, or its first element). *)
Definition indic_transcribe (audio_path : string) (lang_code : string) : M string :=
  indic_model ← get_indic_model;
  a ← load_audio w audio_path;
  lib w (indic_model_call indic_model a lang_code "ctc").

Definition transcribe_audio (audio_path : string) : M string :=
  whisper_model ← get_whisper_model;
  '(lang_code, lang_name, is_indic) ← detect_input_language_whisper audio_path whisper_model;
  if is_indic : bool
  then indic_transcribe audio_path lang_code
  else whisper_transcribe audio_path whisper_model.

(** The body of [for attempt in range(attempts)], [remaining] turns to go. *)
Fixpoint voice_attempts (whisper_model : handle) (attempt remaining : nat)
    : M (option string * option string) :=
  match remaining with
  | O => return_ (None, None)
  | S remaining' =>
      file_path ← Audio.record_audio w (PyNum.PyFloat 1.75) 16000
                    ("target_attempt_" +:+ pretty (attempt + 1) +:+ ".wav") false;
      a ← load_audio w file_path;
      text ← lib w (whisper_decode whisper_model a);
      let spoken := PyStr.strip text in
      let '(lang_code, lang_name) := get_language_code spoken in
      if PyStr.truthy lang_code then return_ (lang_code, lang_name)
      else voice_attempts whisper_model (S attempt) remaining'
  end.

Definition detect_target_language_by_voice (attempts : nat)
    : M (option string * option string) :=
  whisper_model ← get_whisper_model;
  voice_attempts whisper_model 0 attempts.

(** utils/language.py: manual fallback for target language selection.  The
    suggestions it prints on failure are not part of its result. *)
Definition detect_target_language_manually : M (option string * option string) :=
  line ← lib w (input "Your input: ");
  let typed_input := PyStr.strip line in
  let '(code, name) := get_language_code typed_input in
  if PyStr.truthy code then return_ (code, name) else return_ (None, None).

Definition get_target_language : M (option string * option string) :=
  '(code, name) ← detect_target_language_by_voice 2;
  '(code, name) ← (if negb (PyStr.truthy code)
                   then detect_target_language_manually
                   else return_ (code, name));
  return_ (code, name).

End WithWorld.
End ASR.

(* ===================================================================== *)
(** ** models/translation.py *)
(* ===================================================================== *)
Module Translation.
Import Runtime Language.

Section WithWorld.
Variable w : world.

Definition get_nllb_pipeline : M handle :=
  g ← read _nllb_pipeline;
  match g with
  | Some p => return_ p
  | None =>
      p ← lib w (pipeline "translation" "facebook/nllb-200-distilled-600M");
      _ ← modify (set_nllb_pipeline (Some p));
      _ ← (if Strings.String.eqb System.device "cpu"
           then
             _ ← lib w (set_quantized_engine "qnnpack");
             try_except (lib w (quantize_dynamic p)) Exception (λ _, return_ ())
           else return_ ());
      return_ p
  end.

(** [not text or not text.strip()] *)
Definition blank (text : option string) : bool :=
  negb (PyStr.truthy text) || negb (PyStr.truthy (PyStr.strip <$> text)).

(** Translates text using NLLB-200. *)
Definition translate_with_nllb (text src_lang_code tgt_lang_code : option string)
    : M (option string) :=
  match text with
  | Some t =>
      if blank text then return_ None
      else
        try_except
          (nllb ← get_nllb_pipeline;
           let src_nllb := Dict.get_default NLLB_LANG_CODE_MAP src_lang_code "eng_Latn" in
           let tgt_nllb := Dict.get_default NLLB_LANG_CODE_MAP tgt_lang_code "eng_Latn" in
           translated ← lib w (nllb_call nllb t src_nllb tgt_nllb 512);
           return_ (Some (translated : string)))
          Exception (λ _, return_ None)
  | None => return_ None
  end.

(** The default of [route_translation_pipeline]'s [target_lang_code]. *)
Definition default_target_lang_code : option string := Some "en".


(** [tgt_lang_code in INDIAN_LANGS]; [None] is in no set of codes. *)
Definition in_INDIAN_LANGS (tgt_lang_code : option string) : bool :=
  match tgt_lang_code with
  | Some code => bool_decide (code ∈ INDIAN_LANGS)
  | None => false
  end.

(** Translation + language classification: [(text, code, type)] or
    [(None, None, None)]. *)
Definition nllb_translate_and_classify (text src_lang_code tgt_lang_code : option string)
    : M (option string * option string * option string) :=
  try_except
    (translated_text ← translate_with_nllb text src_lang_code tgt_lang_code;
     if negb (PyStr.truthy translated_text) then return_ (None, None, None)
     else
       let lang_type :=
         if in_INDIAN_LANGS tgt_lang_code then "indian" else "international" in
       return_ (translated_text, tgt_lang_code, Some lang_type))
    Exception (λ _, return_ (None, None, None)).

End WithWorld.
End Translation.

(* ===================================================================== *)
(** ** models/tts.py *)
(* ===================================================================== *)
Module TTS.
Import Runtime.

Definition LANG_VOICE_MAP : Dict.dict string :=
  [ ("en", "com.apple.voice.compact.en-US.Samantha");
    ("es", "com.apple.voice.compact.es-ES.Monica");
    ("fr", "com.apple.voice.compact.fr-FR.Thomas");
    ("zh", "com.apple.voice.compact.zh-CN.Tingting");
    ("ar", "com.apple.voice.compact.ar-001.Maged");
    ("pt", "com.apple.voice.compact.pt-BR.Luciana");
    ("ru", "com.apple.voice.compact.ru-RU.Milena");
    ("ja", "com.apple.voice.compact.ja-JP.Kyoko");
    ("de", "com.apple.voice.compact.de-DE.Anna") ].

Section WithWorld.
Variable w : world.

(** Returns the three globals as they stand after the guarded block. *)
Definition load_parler_tts : M (option handle * option handle * option handle) :=
  g ← read _parler_model;
  _ ← match g with
      | Some _ => return_ ()
      | None =>
          m ← lib w (ParlerTTS_from_pretrained "ai4bharat/indic-parler-tts");
          _ ← modify (set_parler_model (Some m));
          _ ← lib w (model_eval m);
          t ← lib w (AutoTokenizer_from_pretrained "ai4bharat/indic-parler-tts");
          _ ← modify (set_tokenizer (Some t));
          d ← lib w (AutoTokenizer_of_text_encoder m);
          _ ← modify (set_desc_tokenizer (Some d));
          _ ← lib w (ensure_pad_token t);
          lib w (ensure_pad_token d)
      end;
  m ← read _parler_model;
  t ← read _tokenizer;
  d ← read _desc_tokenizer;
  return_ (m, t, d).

Definition get_tts_engine : M handle :=
  g ← read _engine;
  match g with
  | Some e => return_ e
  | None =>
      e ← lib w pyttsx3_init;
      _ ← modify (set_engine (Some e));
      _ ← lib w (engine_setProperty e "rate" (JInt 180));
      _ ← lib w (engine_setProperty e "volume" (JFloat 1%float));
      return_ e
  end.

(** [audio_arr.size == 0 or np.all(audio_arr == 0) or np.isnan(audio_arr).any()] *)
Definition invalid_waveform (audio_arr : ndarray) : bool :=
  let x := values audio_arr in
  bool_decide (x = []) || forallb (λ v, (v =? 0)%float) x || existsb PrimFloat.is_nan x.

(** Both tokenizers and [model.generate] run inside one call, which answers
    the one row of samples generated and the model's sampling rate; calling
    a tokenizer that is still [None] raises. *)
Definition generate_speech (prompt : option string) (description output_file : string)
    : M unit :=
  match prompt with
  | Some p =>
      if Translation.blank prompt then return_ ()
      else
        try_except
          ('(model, tokenizer, desc_tokenizer) ← load_parler_tts;
           match model, tokenizer, desc_tokenizer with
           | Some m, Some t, Some d =>
               '(audio, sampling_rate) ← lib w (parler_generate m t d p description);
               let audio_arr := squeeze audio in
               if invalid_waveform audio_arr then return_ ()
               else
                 _ ← sf_write w output_file audio_arr sampling_rate;
                 Audio.play_wav w output_file
           | _, _, _ => raise (LibraryError "'NoneType' object is not callable")
           end)
          Exception (λ _, return_ ())
  | None => return_ ()
  end.

Definition play_tts_output (text : option string) (lang_type : string)
    (tgt_lang_code : option string) : M unit :=
  match text with
  | Some t =>
      if Translation.blank text then return_ ()
      else if Strings.String.eqb lang_type "indian" then
        generate_speech text "A calm voice with natural pace, clarity and stability."
                        "output_indic.wav"
      else
        engine ← get_tts_engine;
        let voice_id :=
          Dict.get_default LANG_VOICE_MAP tgt_lang_code
            (Dict.get_default LANG_VOICE_MAP (Some "en") "") in
        _ ← lib w (engine_setProperty engine "voice" (JString voice_id));
        _ ← lib w (engine_say engine t);
        lib w (engine_runAndWait engine)
  | None => return_ ()
  end.

End WithWorld.
End TTS.

(* ===================================================================== *)
(** ** run_pipeline.py *)
(* ===================================================================== *)
Module Pipeline.
Import Runtime Language.

Section WithWorld.
Variable w : world.

(** The read-modify-write that keeps the log a JSON array. *)
Definition append_log (output_log : string) (evaluation_entry : json) : M unit :=
  try_except
    (present ← exists_ w output_log;
     existing ← (if present : bool then
                   try_except
                     (existing ← json_load w output_log;
                      return_ (match existing with JArray l => l | _ => [] end))
                     is_JSONDecodeError (λ _, return_ [])
                 else return_ []);
     json_dump w output_log (JArray (existing ++ [evaluation_entry])))
    Exception (λ _, return_ ()).

(** Runs the full pipeline once and logs metrics.  [psutil.Process()] and
    the timing report printed before the log is written are left out. *)
Definition run_voice2voice_evaluation (duration : PyNum.number) (output_log : string)
    : M json :=
  start_total ← lib w perf_counter;
  cpu_times_start ← lib w cpu_times;
  rss_start ← lib w memory_info_rss;
  let peak_rss : Z := rss_start in
  (* Phase 1: Audio Capture *)
  _ ← mark AudioCapture;
  _ ← Audio.play_beep w;
  t0 ← lib w perf_counter;
  audio_path ← Audio.record_audio w duration 16000 "input.wav" false;
  t1 ← lib w perf_counter;
  let timings := [("recording_time_sec", JFloat (t1 - t0))] in
  rss ← lib w memory_info_rss;
  let peak_rss := Z.max peak_rss rss in
  (* Phase 2: ASR (Detection + Transcription) *)
  _ ← mark ASR;
  t0 ← lib w perf_counter;
  transcription ← ASR.transcribe_audio w audio_path;
  t1 ← lib w perf_counter;
  let timings := timings ++ [("asr_time_sec", JFloat (t1 - t0))] in
  let outputs := [("transcription", JString transcription)] in
  rss ← lib w memory_info_rss;
  let peak_rss := Z.max peak_rss rss in
  (* Phase 3: Target Language Selection *)
  _ ← mark TargetLanguageSelection;
  _ ← Audio.play_beep w;
  t0 ← lib w perf_counter;
  '(tgt_lang_code, tgt_lang_name) ← ASR.get_target_language w;
  t1 ← lib w perf_counter;
  let timings := timings ++ [("target_lang_selection_sec", JFloat (t1 - t0))] in
  let outputs :=
    outputs ++ [("target_language",
                 JObject [("code", of_str tgt_lang_code); ("name", of_str tgt_lang_name)])] in
  rss ← lib w memory_info_rss;
  let peak_rss := Z.max peak_rss rss in
  (* Phase 4: Translation *)
  _ ← mark Translation;
  t0 ← lib w perf_counter;
  translated_text ← Translation.translate_with_nllb w (Some transcription) None tgt_lang_code;
  t1 ← lib w perf_counter;
  let timings := timings ++ [("translation_time_sec", JFloat (t1 - t0))] in
  let outputs := outputs ++ [("translation", of_str translated_text)] in
  rss ← lib w memory_info_rss;
  let peak_rss := Z.max peak_rss rss in
  (* Phase 5: TTS Synthesis *)
  _ ← mark TTSSynthesis;
  t0 ← lib w perf_counter;
  let lang_type :=
    if Dict.contains INDIAN_LANG_MAP tgt_lang_code then "indian" else "international" in
  _ ← TTS.play_tts_output w translated_text lang_type tgt_lang_code;
  t1 ← lib w perf_counter;
  let timings := timings ++ [("tts_time_sec", JFloat (t1 - t0))] in
  rss ← lib w memory_info_rss;
  let peak_rss := Z.max peak_rss rss in
  (* Final Aggregation *)
  t1 ← lib w perf_counter;
  let total_runtime := (t1 - start_total)%float in
  let timings := timings ++ [("total_pipeline_time_sec", JFloat total_runtime)] in
  cpu_times_end ← lib w cpu_times;
  let cpu_time_used :=
    ((fst cpu_times_end + snd cpu_times_end)
     - (fst cpu_times_start + snd cpu_times_start))%float in
  let avg_cores_used :=
    if (0 <? total_runtime)%float then (cpu_time_used / total_runtime)%float else 0%float in
  num_cores ← lib w cpu_count;
  normalized_percent ←
    lift (match num_cores with
          | Some n =>
              if (n =? 0)%Z then Returns 0%float
              else
                and_then (PyNum.float_of_int n) (λ n',
                and_then (PyNum.truediv avg_cores_used n') (λ share,
                Returns (share * 100)%float))
          | None => Returns 0%float
          end);
  peak_ram_mb ← lift (PyNum.int_truediv peak_rss (1024 * 1024));
  timestamp ← lib w utcnow_isoformat;
  let evaluation_entry :=
    JObject
      [ ("timestamp", JString timestamp);
        ("device", JString System.device);
        ("timings", JObject timings);
        ("outputs", JObject outputs);
        ("system_metrics",
         JObject [ ("avg_cores_used", JFloat avg_cores_used);
                   ("normalized_cpu_percent", JFloat normalized_percent);
                   ("peak_ram_usage_mb", JFloat peak_ram_mb) ]) ] in
  _ ← append_log output_log evaluation_entry;
  return_ evaluation_entry.

End WithWorld.
End Pipeline.

(* ===================================================================== *)
(** ** Sample worlds and states, used to exercise the statements below *)
(* ===================================================================== *)
Module Examples.
Import Runtime.

(** What each call answers when everything works: the microphone yields two
    samples, Whisper detects English and hears "tamil", NLLB echoes its
    input. *)
Definition answer (c : call) : ret c :=
  match c return ret c with
  | sd_rec _ _ => [[0.5%float]; [0.25%float]]
  | whisper_load_model _ => 1%nat
  | AutoModel_from_pretrained _ => 2%nat
  | pipeline _ _ => 3%nat
  | ParlerTTS_from_pretrained _ => 4%nat
  | AutoTokenizer_from_pretrained _ => 5%nat
  | AutoTokenizer_of_text_encoder _ => 6%nat
  | pyttsx3_init => 7%nat
  | whisper_detect_language _ _ => [("en", 0.9%float); ("hi", 0.1%float)]
  | whisper_decode _ _ => "tamil"
  | indic_model_call _ _ _ _ => "namaste"
  | input _ => "hindi"
  | nllb_call _ text _ _ _ => text
  | utcnow_isoformat => "2024-01-01T00:00:00"
  | parler_generate _ _ _ _ _ => ([1%float; 0.5%float], 44100%Z)
  | perf_counter => 1%float
  | cpu_times => (1%float, 2%float)
  | memory_info_rss => 1000%Z
  | cpu_count => Some 8%Z
  | sd_play _ | model_eval _ | set_quantized_engine _ | quantize_dynamic _
  | ensure_pad_token _
  | engine_setProperty _ _ _ | engine_say _ _ | engine_runAndWait _ => ()
  end.

(** scipy stand-ins: a fixed design, and a filter that halves each sample. *)
Definition design (order : Z) (low high : float) (btype : string) : outcome coeffs :=
  Returns ([1%float], [1%float]).
Definition halve (ba : coeffs) (x : signal) : outcome signal :=
  Returns (map (λ v, v / 2)%float x).

(** A 16-bit sound format: a sample is rounded to a multiple of 2^-15 and
    clipped to [-1, 1). *)
Definition sixteen_bit (v : float) : float :=
  let scaled := (v * 32768)%float in
  let rounded :=
    if (scaled <? 0)%float
    then (scaled - 4503599627370496 + 4503599627370496)%float
    else (scaled + 4503599627370496 - 4503599627370496)%float in
  (PyNum.max (-32768) (PyNum.min 32767 rounded) / 32768)%float.

(** Paths in one directory: a leading "./" names the same file. *)
Definition same_directory (path : string) : string :=
  match path with
  | String "." (String "/" rest) => rest
  | _ => path
  end.

(** A world with the given answers where the libraries touch no file, sound
    files are 16-bit, and every write goes through. *)
Definition plain (respond : ∀ c : call, list event → outcome (ret c)) : world :=
  World respond (λ _ _ f, f) design halve same_directory (λ _, map sixteen_bit)
        (λ _ _ _, Written).

Definition all_is_well : world := plain (λ c _, Returns (answer c)).

(** Whisper detects Hindi. *)
Definition hindi_speaker : world :=
  plain (λ c _, match c return outcome (ret c) with
                | whisper_detect_language _ _ =>
                    Returns [("en", 0.2%float); ("hi", 0.7%float); ("ta", 0.1%float)]
                | c => Returns (answer c)
                end).

(** No microphone: recording raises. *)
Definition no_microphone : world :=
  plain (λ c _, match c return outcome (ret c) with
                | sd_rec _ _ => Raises (LibraryError "PortAudioError")
                | c => Returns (answer c)
                end).

Fixpoint decodes_so_far (t : list event) : nat :=
  match t with
  | [] => 0
  | Lib (whisper_decode _ _) :: r => S (decodes_so_far r)
  | _ :: r => decodes_so_far r
  end.

(** The speaker mumbles at first: the first thing Whisper decodes is "xyz",
    everything after it "tamil". *)
Definition mumbles_once : world :=
  plain (λ c t, match c return outcome (ret c) with
                | whisper_decode _ _ =>
                    Returns (if decide (decodes_so_far t = 0%nat) then "xyz" else "tamil")
                | c => Returns (answer c)
                end).

(** The NLLB model fails. *)
Definition nllb_fails : world :=
  plain (λ c _, match c return outcome (ret c) with
                | nllb_call _ _ _ _ _ => Raises (LibraryError "RuntimeError")
                | c => Returns (answer c)
                end).

Fixpoint downloads_so_far (t : list event) : nat :=
  match t with
  | [] => 0
  | Lib (pipeline _ _) :: r => S (downloads_so_far r)
  | _ :: r => downloads_so_far r
  end.

(** The first download of the NLLB model fails; a later one goes through. *)
Definition flaky_download : world :=
  plain (λ c t, match c return outcome (ret c) with
                | pipeline _ _ =>
                    if decide (downloads_so_far t = 0%nat)
                    then Raises (LibraryError "ConnectionError")
                    else Returns 3%nat
                | c => Returns (answer c)
                end).

(** The disk fills up while the log is written: the file, truncated when it
    was opened, is left with the beginning of the text. *)
Definition disk_fills_up : world :=
  World (respond all_is_well) (effect all_is_well) design halve same_directory
        (encode all_is_well)
        (λ _ d _, match d with
                  | Json _ => Torn (LibraryError "OSError") Malformed
                  | _ => Written
                  end).

(** The model generates a single sample. *)
Definition one_sample : world :=
  plain (λ c _, match c return outcome (ret c) with
                | parler_generate _ _ _ _ _ => Returns ([0.5%float], 44100%Z)
                | c => Returns (answer c)
                end).

(** Loading Whisper leaves the downloaded weights in a file. *)
Definition caching : world :=
  World (respond all_is_well)
        (λ c _ f, match c with
                  | whisper_load_model _ => <["small.pt" := File Undecodable true]> f
                  | _ => f
                  end)
        design halve same_directory (encode all_is_well) (store all_is_well).

(** A soft voice: the microphone yields samples that are no multiples of
    2^-15, and neither are their halves. *)
Definition soft_voice : world :=
  plain (λ c _, match c return outcome (ret c) with
                | sd_rec _ _ => Returns [[0.3%float]; [0.1%float]]
                | c => Returns (answer c)
                end).

(** A fresh process with no files. *)
Definition fresh : state := State None None None None None None None ∅ [].

(** A fresh process beside a log that holds [[null]] and a marker for
    whether it may be written. *)
Definition with_log (writable : bool) : state :=
  State None None None None None None None
        {[ "evaluation_log.json" := File (Json (JArray [JNull])) writable ]} [].

(** The tokenizers cannot be fetched. *)
Definition tokenizers_offline : world :=
  plain (λ c _, match c return outcome (ret c) with
                | AutoTokenizer_from_pretrained _ => Raises (LibraryError "OSError")
                | c => Returns (answer c)
                end).

(** [model.eval()] and [engine.setProperty] fail. *)
Definition setup_fails : world :=
  plain (λ c _, match c return outcome (ret c) with
                | model_eval _ => Raises (LibraryError "RuntimeError")
                | engine_setProperty _ _ _ => Raises (LibraryError "RuntimeError")
                | c => Returns (answer c)
                end).

(** Dynamic quantization is not available. *)
Definition quantization_fails : world :=
  plain (λ c _, match c return outcome (ret c) with
                | quantize_dynamic _ => Raises (LibraryError "RuntimeError")
                | c => Returns (answer c)
                end).

(** A process that has loaded Indic-Parler and its tokenizers. *)
Definition parler_loaded : state :=
  State None None None (Some 4%nat) (Some 5%nat) (Some 6%nat) None ∅ [].

End Examples.

(* ===================================================================== *)
(** * Properties *)
(* ===================================================================== *)

(** ** The matcher's loops stay in range and run to their end *)
Section MatcherFacts.
Import Difflib.
Variables a b : list ascii.

(** A candidate block starts at or after [alo] and ends at or before [bound]. *)
Definition in_range (alo bound : nat) (best : block) : Prop :=
  let '(besti, _, bestsize) := best in (alo ≤ besti ∧ besti + bestsize ≤ bound)%nat.

Definition bounded (j2len : gmap nat nat) (n : nat) : Prop :=
  ∀ j v, j2len !! j = Some v → (v ≤ n)%nat.

Lemma j2len_get_bounded j2len n j : bounded j2len n → (j2len_get j2len j ≤ n)%nat.
Proof.
  intros H. destruct j as [|j]; simpl; [lia|].
  destruct (j2len !! j) as [v|] eqn:E; simpl; [by eapply H|lia].
Qed.

Lemma scan_row_in_range i alo blo bhi j2len js newj2len best :
  (alo ≤ i)%nat → bounded j2len (i - alo) → bounded newj2len (i + 1 - alo) →
  in_range alo (S i) best →
  bounded (scan_row i blo bhi j2len js newj2len best).1 (i + 1 - alo)
  ∧ in_range alo (S i) (scan_row i blo bhi j2len js newj2len best).2.
Proof.
  intros Hi Hj. revert newj2len best.
  induction js as [|j js IH]; intros newj2len best Hn Hb; simpl; [done|].
  destruct (j <? blo)%nat; [by apply IH|].
  destruct (bhi <=? j)%nat; [done|].
  pose proof (j2len_get_bounded j2len (i - alo) j Hj) as Hk.
  destruct best as [[besti bestj] bestsize]. apply IH.
  - intros j' v. rewrite lookup_insert. case_decide; [|by apply Hn].
    intros [= <-]. lia.
  - destruct (bestsize <? _)%nat; [|done]. simpl. lia.
Qed.

Lemma scan_rows_in_range n i alo blo bhi j2len best :
  (alo ≤ i)%nat → bounded j2len (i - alo) → in_range alo i best →
  in_range alo (i + n) (scan_rows a b (seq i n) blo bhi j2len best).
Proof.
  revert i j2len best. induction n as [|n IH]; intros i j2len best Hi Hj Hb; simpl.
  - by rewrite Nat.add_0_r.
  - destruct (scan_row_in_range i alo blo bhi j2len (from_option (b2j b) [] (a !! i)) ∅ best)
      as [Hn Hb']; [done|done|by intros ? ? ?| |].
    { destruct best as [[besti bestj] bestsize]. simpl in *. lia. }
    destruct (scan_row _ _ _ _ _ _ _) as [newj2len best'].
    replace (i + S n)%nat with (S i + n)%nat by lia. apply IH; [lia| |done].
    simpl in Hn. by replace (S i - alo)%nat with (i + 1 - alo)%nat by lia.
Qed.

Lemma extend_left_in_range alo blo bound besti bestj bestsize :
  in_range alo bound (besti, bestj, bestsize) →
  in_range alo bound (extend_left a b alo blo besti bestj bestsize).
Proof.
  revert bestj bestsize. induction besti as [|i IH]; intros bestj bestsize H; simpl; [done|].
  destruct bestj as [|j]; [done|].
  destruct (alo <? S i)%nat eqn:E; simpl; [|done].
  destruct (_ && _); [|done]. apply IH. apply Nat.ltb_lt in E. simpl in *. lia.
Qed.

Lemma extend_right_in_range room ahi bhi besti bestj bestsize :
  (besti + bestsize ≤ ahi)%nat →
  (besti + extend_right a b room ahi bhi besti bestj bestsize ≤ ahi)%nat.
Proof.
  revert bestsize. induction room as [|room IH]; intros bestsize H; simpl; [done|].
  destruct (besti + bestsize <? ahi)%nat eqn:E; simpl; [|done].
  destruct (_ && _); [|done]. apply IH. apply Nat.ltb_lt in E. lia.
Qed.

(** The block [find_longest_match] returns lies within [a[alo:ahi]]. *)
Lemma find_longest_match_in_range alo ahi blo bhi :
  (alo ≤ ahi)%nat → in_range alo ahi (find_longest_match a b alo ahi blo bhi).
Proof.
  intros H. unfold find_longest_match.
  pose proof (scan_rows_in_range (ahi - alo) alo alo blo bhi ∅ (alo, blo, 0%nat)) as H1.
  destruct (scan_rows _ _ _ _ _ _ _) as [[besti bestj] bestsize].
  pose proof (extend_left_in_range alo blo ahi besti bestj bestsize) as H2.
  destruct (extend_left _ _ _ _ _ _ _) as [[besti' bestj'] bestsize'].
  replace (alo + (ahi - alo))%nat with ahi in H1 by lia.
  destruct H2 as [Ha Hb]; [apply H1; [lia|by intros ? ? ?|simpl; lia]|].
  split; [done|]. by apply extend_right_in_range.
Qed.

(** The work left in the queue of [get_matching_blocks]: each range costs
    one turn itself and at most two for each element of [a] in it. *)
Definition work (queue : list range4) : nat :=
  foldr (λ '(alo, ahi, _, _) n, (2 * (ahi - alo) + 1 + n)%nat) 0%nat queue.

Definition well_formed (queue : list range4) : Prop :=
  Forall (λ '(alo, ahi, _, _), (alo ≤ ahi)%nat) queue.

(** With as many turns as there is work, the loop stops because the queue is
    empty: more turns change nothing. *)
Lemma blocks_loop_enough turns more queue matching_blocks :
  well_formed queue → (work queue ≤ turns)%nat →
  blocks_loop a b (turns + more) queue matching_blocks
  = blocks_loop a b turns queue matching_blocks.
Proof.
  revert queue matching_blocks.
  induction turns as [|turns IH]; intros queue acc Hwf Hw.
  - destruct queue as [|[[[alo ahi] blo] bhi] queue]; [by destruct more|simpl in Hw; lia].
  - destruct queue as [|[[[alo ahi] blo] bhi] queue]; [done|].
    apply Forall_cons in Hwf as [Hr Hwf]. simpl in Hw. simpl.
    pose proof (find_longest_match_in_range alo ahi blo bhi Hr) as Hb.
    destruct (find_longest_match a b alo ahi blo bhi) as [[i j] k]. simpl in Hb.
    destruct (k =? 0)%nat eqn:Ek; [apply IH; [done|lia]|].
    apply Nat.eqb_neq in Ek. apply IH.
    + destruct (_ && _); destruct (_ && _); repeat (apply Forall_cons; split); try done; lia.
    + destruct (_ && _); destruct (_ && _); simpl; lia.
Qed.

(** [get_matching_blocks] has emptied its queue. *)
Lemma get_matching_blocks_complete more :
  blocks_loop a b (2 * length a + 1 + more) [(0%nat, length a, 0%nat, length b)] []
  = get_matching_blocks a b.
Proof.
  unfold get_matching_blocks. apply blocks_loop_enough.
  - apply Forall_cons. split; [lia|done].
  - simpl. lia.
Qed.

End MatcherFacts.

(** ** The matching blocks pair elements of [a] with equal elements of [b] *)
Section MatchingBlocks.
Import Difflib.
Variables a b : list ascii.

(** [a[i:i+k] == b[j:j+k]], element by element. *)
Definition agree (i j k : nat) : Prop :=
  ∀ t, (t < k)%nat → ∃ x, a !! (i + t)%nat = Some x ∧ b !! (j + t)%nat = Some x.

(** A block that lies in the window [a[alo:bound]], [b[blo:bhi]] and
    matches there. *)
Definition valid (alo bound blo bhi : nat) (best : block) : Prop :=
  let '(besti, bestj, bestsize) := best in
  (alo ≤ besti ∧ besti + bestsize ≤ bound ∧ blo ≤ bestj ∧ bestj + bestsize ≤ bhi)%nat
  ∧ agree besti bestj bestsize.

(** An entry [v] of [j2len] at [j] for row [i]: a match of length [v] that
    ends with [a[i]] and [b[j]]. *)
Definition ends (alo blo bhi i j v : nat) : Prop :=
  (v ≤ i + 1 - alo ∧ v ≤ j + 1 - blo ∧ j < bhi)%nat ∧ agree (i + 1 - v) (j + 1 - v) v.

Lemma same_spec i j : same a b i j = true → ∃ x, a !! i = Some x ∧ b !! j = Some x.
Proof.
  unfold same. destruct (a !! i) as [x|], (b !! j) as [y|]; try done.
  intros ->%bool_decide_eq_true. eauto.
Qed.

Lemma indices_from_spec x n l j :
  j ∈ indices_from x n l → ∃ t, j = (n + t)%nat ∧ l !! t = Some x.
Proof.
  revert n. induction l as [|y l IH]; intros n; simpl; [by intros ?%elem_of_nil|].
  case_bool_decide as E.
  - intros [->|H]%elem_of_cons.
    + exists 0%nat. subst. split; [lia|done].
    + destruct (IH _ H) as (t & -> & Ht). exists (S t). split; [lia|done].
  - intros H. destruct (IH _ H) as (t & -> & Ht). exists (S t). split; [lia|done].
Qed.

Lemma b2j_spec x : Forall (λ j, b !! j = Some x) (b2j b x).
Proof.
  apply Forall_forall. intros j. unfold b2j. destruct (popular b x); [by intros ?%elem_of_nil|].
  intros (t & -> & Ht)%indices_from_spec. done.
Qed.

Lemma j2len_get_ends alo blo bhi i x j j2len :
  (alo ≤ i)%nat → (blo ≤ j)%nat → (j < bhi)%nat →
  a !! i = Some x → b !! j = Some x →
  (∀ j' v, j2len !! j' = Some v → ∃ i', i = S i' ∧ ends alo blo bhi i' j' v) →
  ends alo blo bhi i j (j2len_get j2len j + 1).
Proof.
  intros Hi Hj Hjh Ha Hb HJ.
  assert (ends alo blo bhi i j 1) as H1.
  { split; [lia|]. intros t Ht. exists x.
    by replace (i + 1 - 1 + t)%nat with i by lia; replace (j + 1 - 1 + t)%nat with j by lia. }
  destruct j as [|j']; [exact H1|]. simpl.
  destruct (j2len !! j') as [v|] eqn:E; [|exact H1]. simpl.
  destruct (HJ j' v E) as (i' & -> & [Hb' Hag]).
  split; [lia|]. intros t Ht.
  replace (S i' + 1 - (v + 1))%nat with (i' + 1 - v)%nat by lia.
  replace (S j' + 1 - (v + 1))%nat with (j' + 1 - v)%nat by lia.
  destruct (decide (t < v)%nat) as [Hlt|Hge]; [by apply Hag|].
  exists x. replace (i' + 1 - v + t)%nat with (S i') by lia.
  by replace (j' + 1 - v + t)%nat with (S j') by lia.
Qed.

Lemma scan_row_valid i x alo blo bhi j2len js newj2len best :
  (alo ≤ i)%nat → a !! i = Some x → Forall (λ j, b !! j = Some x) js →
  (∀ j v, j2len !! j = Some v → ∃ i', i = S i' ∧ ends alo blo bhi i' j v) →
  (∀ j v, newj2len !! j = Some v → ends alo blo bhi i j v) →
  valid alo (S i) blo bhi best →
  (∀ j v, (scan_row i blo bhi j2len js newj2len best).1 !! j = Some v →
          ends alo blo bhi i j v)
  ∧ valid alo (S i) blo bhi (scan_row i blo bhi j2len js newj2len best).2.
Proof.
  intros Hi Ha Hjs HJ. revert newj2len best.
  induction Hjs as [|j js Hbj _ IH]; intros newj2len best Hn Hb; simpl; [done|].
  destruct (j <? blo)%nat eqn:E1; [by apply IH|].
  destruct (bhi <=? j)%nat eqn:E2; [done|].
  apply Nat.ltb_ge in E1. apply Nat.leb_gt in E2.
  pose proof (j2len_get_ends alo blo bhi i x j j2len Hi E1 E2 Ha Hbj HJ) as He.
  destruct best as [[besti bestj] bestsize]. apply IH.
  - intros j' v. rewrite lookup_insert. case_decide; [|by apply Hn].
    intros [= <-]. by subst.
  - destruct (bestsize <? _)%nat; [|done].
    destruct He as [Hbd Hag]. split; [lia|done].
Qed.

Lemma scan_rows_valid n i alo blo bhi j2len best :
  (alo ≤ i)%nat →
  (∀ j v, j2len !! j = Some v → ∃ i', i = S i' ∧ ends alo blo bhi i' j v) →
  valid alo i blo bhi best →
  valid alo (i + n) blo bhi (scan_rows a b (seq i n) blo bhi j2len best).
Proof.
  revert i j2len best. induction n as [|n IH]; intros i j2len best Hi HJ Hb; simpl.
  - by rewrite Nat.add_0_r.
  - assert (valid alo (S i) blo bhi best) as Hb'.
    { destruct best as [[besti bestj] bestsize]. destruct Hb as [? ?]. split; [lia|done]. }
    replace (i + S n)%nat with (S i + n)%nat by lia.
    destruct (a !! i) as [x|] eqn:Ha; simpl.
    + destruct (scan_row_valid i x alo blo bhi j2len (b2j b x) ∅ best)
        as [Hn Hv]; [done|done|apply b2j_spec|done|by intros ? ? ?|done|].
      destruct (scan_row _ _ _ _ _ _ _) as [newj2len best'].
      apply IH; [lia| |done]. intros j v Hjv. exists i. split; [done|by apply Hn].
    + apply IH; [lia|by intros ? ? ?|done].
Qed.

Lemma extend_left_valid alo bound blo bhi besti bestj bestsize :
  valid alo bound blo bhi (besti, bestj, bestsize) →
  valid alo bound blo bhi (extend_left a b alo blo besti bestj bestsize).
Proof.
  revert bestj bestsize. induction besti as [|i IH]; intros bestj bestsize H; simpl; [done|].
  destruct bestj as [|j]; [done|].
  destruct (alo <? S i)%nat eqn:E1; simpl; [|done].
  destruct (blo <? S j)%nat eqn:E2; simpl; [|done].
  destruct (same a b i j) eqn:E3; [|done].
  apply Nat.ltb_lt in E1, E2. apply same_spec in E3.
  apply IH. destruct H as [Hbd Hag]. split; [lia|].
  intros [|t] Ht.
  - by rewrite !Nat.add_0_r.
  - replace (i + S t)%nat with (S i + t)%nat by lia.
    replace (j + S t)%nat with (S j + t)%nat by lia. apply Hag. lia.
Qed.

Lemma extend_right_valid room alo ahi blo bhi besti bestj bestsize :
  valid alo ahi blo bhi (besti, bestj, bestsize) →
  valid alo ahi blo bhi
    (besti, bestj, extend_right a b room ahi bhi besti bestj bestsize).
Proof.
  revert bestsize. induction room as [|room IH]; intros bestsize H; simpl; [done|].
  destruct (besti + bestsize <? ahi)%nat eqn:E1; simpl; [|done].
  destruct (bestj + bestsize <? bhi)%nat eqn:E2; simpl; [|done].
  destruct (same a b _ _) eqn:E3; [|done].
  apply Nat.ltb_lt in E1, E2. apply same_spec in E3.
  apply IH. destruct H as [Hbd Hag]. split; [lia|].
  intros t Ht. destruct (decide (t < bestsize)%nat); [by apply Hag|].
  by replace t with bestsize by lia.
Qed.

(** The block [find_longest_match] returns lies within the window it was
    given and is a match. *)
Lemma find_longest_match_valid alo ahi blo bhi :
  (alo ≤ ahi)%nat → (blo ≤ bhi)%nat →
  valid alo ahi blo bhi (find_longest_match a b alo ahi blo bhi).
Proof.
  intros Ha Hb. unfold find_longest_match.
  pose proof (scan_rows_valid (ahi - alo) alo alo blo bhi ∅ (alo, blo, 0%nat)) as H1.
  replace (alo + (ahi - alo))%nat with ahi in H1 by lia.
  destruct (scan_rows _ _ _ _ _ _ _) as [[besti bestj] bestsize].
  pose proof (extend_left_valid alo ahi blo bhi besti bestj bestsize) as H2.
  destruct (extend_left _ _ _ _ _ _ _) as [[besti' bestj'] bestsize'].
  apply extend_right_valid, H2, H1; [lia|by intros ? ? ?|].
  split; [lia|]. intros t Ht. lia.
Qed.


(** [l[lo:hi]] *)
Definition seg (l : list ascii) (lo hi : nat) : list ascii := take (hi - lo) (drop lo l).

Lemma seg_lookup l lo hi t :
  seg l lo hi !! t = if decide (t < hi - lo)%nat then l !! (lo + t)%nat else None.
Proof.
  unfold seg. case_decide.
  - by rewrite lookup_take_lt, lookup_drop.
  - by rewrite lookup_take_ge by lia.
Qed.

Lemma seg_split l lo mid hi :
  (lo ≤ mid ≤ hi)%nat → seg l lo hi = seg l lo mid ++ seg l mid hi.
Proof.
  intros H. unfold seg. replace (hi - lo)%nat with ((mid - lo) + (hi - mid))%nat by lia.
  rewrite <- take_take_drop, drop_drop. do 3 f_equal. lia.
Qed.

Lemma seg_agree i j k : agree i j k → seg a i (i + k) = seg b j (j + k).
Proof.
  intros H. apply list_eq. intros t. rewrite !seg_lookup.
  replace (i + k - i)%nat with k by lia. replace (j + k - j)%nat with k by lia.
  case_decide; [|done]. destruct (H t) as (x & -> & ->); done.
Qed.

Lemma seg_agree_length i j k : agree i j k → length (seg a i (i + k)) = k.
Proof.
  intros H. unfold seg. rewrite length_take, length_drop.
  replace (i + k - i)%nat with k by lia.
  destruct k as [|k]; [lia|]. destruct (H k) as (x & Hx & _); [lia|].
  apply lookup_lt_Some in Hx. lia.
Qed.

(** The characters of the blocks found, and of the windows still to search. *)
Definition found_a (blocks : list block) : list ascii :=
  concat (map (λ '(i, _, k), seg a i (i + k)) blocks).
Definition found_b (blocks : list block) : list ascii :=
  concat (map (λ '(_, j, k), seg b j (j + k)) blocks).
Definition todo_a (queue : list range4) : list ascii :=
  concat (map (λ '(alo, ahi, _, _), seg a alo ahi) queue).
Definition todo_b (queue : list range4) : list ascii :=
  concat (map (λ '(_, _, blo, bhi), seg b blo bhi) queue).

Definition windows (queue : list range4) : Prop :=
  Forall (λ '(alo, ahi, blo, bhi), (alo ≤ ahi ∧ blo ≤ bhi)%nat) queue.

Definition matched (blocks : list block) : Prop :=
  Forall (λ '(i, j, k), agree i j k) blocks.

(** The blocks found and the windows left never overlap: together they fit
    into [a], and into [b]. *)
Lemma blocks_loop_fits turns queue blocks :
  windows queue → matched blocks →
  found_a blocks ++ todo_a queue ⊆+ a → found_b blocks ++ todo_b queue ⊆+ b →
  matched (blocks_loop a b turns queue blocks)
  ∧ found_a (blocks_loop a b turns queue blocks) ⊆+ a
  ∧ found_b (blocks_loop a b turns queue blocks) ⊆+ b.
Proof.
  revert queue blocks. induction turns as [|turns IH]; intros queue blocks Hw Hm Ha Hb.
  { simpl. split; [done|]. split; [by etrans; [apply submseteq_inserts_r|exact Ha]|].
    by etrans; [apply submseteq_inserts_r|exact Hb]. }
  destruct queue as [|[[[alo ahi] blo] bhi] queue]; simpl.
  { unfold todo_a, todo_b in *. simpl in *. rewrite app_nil_r in Ha, Hb. done. }
  apply Forall_cons in Hw as [[Hr1 Hr2] Hw].
  pose proof (find_longest_match_valid alo ahi blo bhi Hr1 Hr2) as Hv.
  destruct (find_longest_match a b alo ahi blo bhi) as [[i j] k].
  destruct Hv as [Hbd Hag].
  unfold todo_a, todo_b in Ha, Hb. simpl in Ha, Hb. fold (todo_a queue) in Ha.
  fold (todo_b queue) in Hb.
  destruct (k =? 0)%nat.
  { apply IH; [done|done| |].
    - etrans; [|exact Ha]. solve_submseteq.
    - etrans; [|exact Hb]. solve_submseteq. }
  rewrite (seg_split a alo i ahi), (seg_split a i (i + k) ahi) in Ha by lia.
  rewrite (seg_split b blo j bhi), (seg_split b j (j + k) bhi) in Hb by lia.
  apply IH.
  - destruct (_ && _); destruct (_ && _); repeat (apply Forall_cons; split); try done; lia.
  - apply Forall_app. split; [done|]. by apply Forall_singleton.
  - unfold found_a. rewrite map_app, concat_app. simpl. fold (found_a blocks).
    etrans; [|exact Ha].
    destruct (_ && _); destruct (_ && _); unfold todo_a; simpl; fold (todo_a queue);
      solve_submseteq.
  - unfold found_b. rewrite map_app, concat_app. simpl. fold (found_b blocks).
    etrans; [|exact Hb].
    destruct (_ && _); destruct (_ && _); unfold todo_b; simpl; fold (todo_b queue);
      solve_submseteq.
Qed.

Lemma found_length blocks :
  matched blocks →
  found_a blocks = found_b blocks
  ∧ length (found_a blocks) = foldr (λ '(_, _, k) acc, (k + acc)%nat) 0%nat blocks.
Proof.
  induction 1 as [|[[i j] k] blocks Hag _ [IH1 IH2]]; [done|].
  unfold found_a, found_b in *. simpl. rewrite length_app, IH2, IH1.
  by rewrite (seg_agree_length i j k), (seg_agree i j k) by done.
Qed.

(** The matched characters form a sub-multiset of both sequences. *)
Lemma matches_fit :
  ∃ cs, length cs = matches a b ∧ cs ⊆+ a ∧ cs ⊆+ b.
Proof.
  destruct (blocks_loop_fits (2 * length a + 1) [(0%nat, length a, 0%nat, length b)] [])
    as (Hm & Ha & Hb).
  - apply Forall_singleton. lia.
  - apply Forall_nil_2.
  - unfold found_a, todo_a, seg. simpl. by rewrite app_nil_r, Nat.sub_0_r, firstn_all.
  - unfold found_b, todo_b, seg. simpl. by rewrite app_nil_r, Nat.sub_0_r, firstn_all.
  - fold (get_matching_blocks a b) in Hm, Ha, Hb.
    destruct (found_length _ Hm) as [E1 E2].
    exists (found_a (get_matching_blocks a b)). split; [done|]. split; [done|by rewrite E1].
Qed.


(** How often [x] occurs in [l]. *)
Definition occurrences (x : ascii) (l : list ascii) : nat := count_occ ascii_dec l x.

Lemma indices_from_length x n l : length (indices_from x n l) = occurrences x l.
Proof.
  unfold occurrences. revert n. induction l as [|y l IH]; intros n; simpl; [done|].
  case_bool_decide; destruct (ascii_dec y x); simpl; rewrite ?IH; done.
Qed.

Lemma submseteq_occurrences x cs l : cs ⊆+ l → (occurrences x cs ≤ occurrences x l)%nat.
Proof.
  unfold occurrences. induction 1 as [|y|y z|y|]; simpl; try lia.
  - destruct (ascii_dec y x); lia.
  - destruct (ascii_dec y x), (ascii_dec z x); lia.
  - destruct (ascii_dec y x); lia.
Qed.

Lemma Permutation_occurrences x cs l : cs ≡ₚ l → occurrences x cs = occurrences x l.
Proof. intros H. by apply Permutation_count_occ. Qed.

(** What [avail.get(x, fullbcount.get(x, 0))] is. *)
Definition left_over (avail : gmap ascii Z) (x : ascii) : Z :=
  from_option id (fullbcount b x) (avail !! x).

(** [quick_ratio] counts at least every selection of elements of [l] that
    the multiset left of [b] can still pair up. *)
Lemma quick_matches_bound l : ∀ cs avail,
  cs ⊆+ l →
  (∀ x, Z.of_nat (occurrences x cs) ≤ Z.max 0 (left_over avail x))%Z →
  (length cs ≤ quick_matches b l avail)%nat.
Proof.
  induction l as [|elt r IH]; intros cs avail Hsub Hocc.
  { apply submseteq_nil_r in Hsub as ->. done. }
  simpl. fold (left_over avail elt). set (numb := left_over avail elt).
  assert (Hrest : ∀ cs' : list ascii,
             (∀ x, x ≠ elt → occurrences x cs' = occurrences x cs) →
             (Z.of_nat (occurrences elt cs') ≤ Z.max 0 (numb - 1))%Z →
             ∀ x, (Z.of_nat (occurrences x cs')
                   ≤ Z.max 0 (left_over (<[elt := (numb - 1)%Z]> avail) x))%Z).
  { intros cs' Hne He x. unfold left_over. destruct (decide (x = elt)) as [->|Hx].
    - by rewrite lookup_insert_eq.
    - rewrite lookup_insert_ne by done. rewrite Hne by done. apply Hocc. }
  destruct (decide (elt ∈ cs)) as [Hin|Hin].
  - apply elem_of_Permutation in Hin as [k Hk].
    assert (k ⊆+ r) as Hkr.
    { apply submseteq_cons_r in Hsub as [Hsub|(k' & Hk' & Hsub)].
      - etrans; [|exact Hsub]. rewrite Hk. by apply submseteq_cons.
      - rewrite Hk in Hk'. by apply Permutation_cons_inv in Hk' as ->. }
    pose proof (Hocc elt) as Helt. fold numb in Helt.
    rewrite (Permutation_occurrences elt _ _ Hk) in Helt.
    unfold occurrences in Helt. simpl in Helt.
    destruct (ascii_dec elt elt); [|done]. fold (occurrences elt k) in Helt.
    assert (0 < numb)%Z as Hpos by lia.
    apply Z.ltb_lt in Hpos as ->.
    rewrite (Permutation_length Hk). simpl. apply le_n_S. apply IH; [done|].
    apply Hrest; [|lia].
    intros x Hx. rewrite (Permutation_occurrences x _ _ Hk). unfold occurrences. simpl.
    by destruct (ascii_dec elt x).
  - assert (cs ⊆+ r) as Hcr.
    { apply submseteq_cons_r in Hsub as [Hsub|(k' & Hk' & Hsub)]; [done|].
      exfalso. apply Hin. rewrite Hk'. by left. }
    etrans; [apply (IH cs (<[elt := (numb - 1)%Z]> avail) Hcr)|lia].
    apply Hrest; [done|].
    assert (occurrences elt cs = 0%nat) as ->; [|lia].
    unfold occurrences. apply count_occ_not_In. by rewrite <- list_elem_of_In.
Qed.

(** The matching blocks pair each element at most once, so both quick
    estimates are upper bounds of the number of matches. *)
Lemma matches_quick : (matches a b ≤ quick_matches b a ∅)%nat.
Proof.
  destruct matches_fit as (cs & <- & Ha & Hb).
  apply quick_matches_bound; [done|]. intros x. unfold left_over.
  rewrite lookup_empty. simpl. unfold fullbcount. rewrite indices_from_length.
  pose proof (submseteq_occurrences x _ _ Hb). lia.
Qed.

Lemma matches_real_quick : (matches a b ≤ length a `min` length b)%nat.
Proof.
  destruct matches_fit as (cs & <- & Ha & Hb).
  apply submseteq_length in Ha, Hb. lia.
Qed.

End MatchingBlocks.

Section QuickRatios.
Import Difflib.

Lemma calculate_ratio_mono m m' n :
  (m ≤ m')%nat → (calculate_ratio m n <= calculate_ratio m' n)%Q.
Proof.
  intros H. unfold calculate_ratio. destruct n; [apply Qle_refl|].
  unfold Qle. simpl. nia.
Qed.

Lemma ratio_quick_ratio a b : (ratio a b <= quick_ratio a b)%Q.
Proof. apply calculate_ratio_mono, matches_quick. Qed.

Lemma ratio_real_quick_ratio a b : (ratio a b <= real_quick_ratio a b)%Q.
Proof. apply calculate_ratio_mono, matches_real_quick. Qed.

(** The two cheaper tests of [get_close_matches] never reject what the
    last one accepts. *)
Lemma close_enough_ratio word x cutoff :
  close_enough word x cutoff = Qle_bool cutoff (ratio (chars x) (chars word)).
Proof.
  unfold close_enough. destruct (Qle_bool cutoff (ratio _ _)) eqn:E.
  - apply Qle_bool_iff in E.
    assert (Qle_bool cutoff (real_quick_ratio (chars x) (chars word)) = true) as ->.
    { apply Qle_bool_iff. eapply Qle_trans; [exact E|apply ratio_real_quick_ratio]. }
    assert (Qle_bool cutoff (quick_ratio (chars x) (chars word)) = true) as ->; [|done].
    apply Qle_bool_iff. eapply Qle_trans; [exact E|apply ratio_quick_ratio].
  - apply andb_false_r.
Qed.

End QuickRatios.

(** ** Closest match *)
Section ClosestMatch.
Import Difflib.

Lemma insert_desc_elem p l q : q ∈ insert_desc p l ↔ q = p ∨ q ∈ l.
Proof.
  induction l as [|h l IH]; simpl.
  - rewrite list_elem_of_singleton, elem_of_nil. tauto.
  - destruct (tuple_lt p h); rewrite !elem_of_cons; [rewrite IH|]; tauto.
Qed.

Lemma sorted_elem result q : q ∈ foldr insert_desc [] result ↔ q ∈ result.
Proof.
  induction result as [|p l IH]; simpl; [done|].
  rewrite insert_desc_elem, elem_of_cons, IH. tauto.
Qed.

(** Scores never grow along [tuple_lt]. *)
Lemma tuple_lt_score p q : tuple_lt p q = true → (fst p <= fst q)%Q.
Proof.
  unfold tuple_lt. destruct (fst p ?= fst q)%Q eqn:E; intros H; try done.
  - apply Qeq_alt in E. rewrite E. apply Qle_refl.
  - apply Qlt_alt in E. by apply Qlt_le_weak.
Qed.

Lemma not_tuple_lt_score p q : tuple_lt p q = false → (fst q <= fst p)%Q.
Proof.
  unfold tuple_lt. destruct (fst p ?= fst q)%Q eqn:E; intros H; try done.
  - apply Qeq_alt in E. rewrite E. apply Qle_refl.
  - apply Qgt_alt in E. by apply Qlt_le_weak.
Qed.

(** The head of the sorted list scores highest. *)
Definition head_is_best (l : list (Q * string)) : Prop :=
  match l with
  | [] => True
  | h :: r => Forall (λ q, (fst q <= fst h)%Q) r
  end.

Lemma insert_desc_best p l : head_is_best l → head_is_best (insert_desc p l).
Proof.
  destruct l as [|h r]; simpl; [by constructor|].
  intros Hr. destruct (tuple_lt p h) eqn:E; simpl.
  - apply Forall_forall. intros q Hq. apply insert_desc_elem in Hq as [->|Hq].
    + by apply tuple_lt_score.
    + by eapply Forall_forall in Hr.
  - apply not_tuple_lt_score in E. constructor; [done|].
    eapply Forall_impl; [exact Hr|]. intros q Hq. simpl in Hq.
    eapply Qle_trans; eauto.
Qed.

Lemma sorted_best result : head_is_best (foldr insert_desc [] result).
Proof. induction result; simpl; [done|]. by apply insert_desc_best. Qed.

Lemma nlargest_1 result :
  match nlargest 1 result with
  | [] => result = []
  | [h] => h ∈ result ∧ ∀ q, q ∈ result → (fst q <= fst h)%Q
  | _ => False
  end.
Proof.
  unfold nlargest. pose proof (sorted_best result) as Hb.
  pose proof (sorted_elem result) as He.
  destruct (foldr insert_desc [] result) as [|h r]; simpl.
  - destruct result as [|p ?]; [done|]. exfalso.
    eapply elem_of_nil, He. by left.
  - split; [apply He; by left|].
    intros q Hq. apply He, elem_of_cons in Hq as [->|Hq]; [apply Qle_refl|].
    simpl in Hb. by eapply Forall_forall in Hb.
Qed.

(** What [get_close_matches] returns for [n = 1]: nothing when every
    candidate's ratio is below the cutoff, else one candidate whose ratio
    reaches the cutoff and is the highest of all. *)
Lemma get_close_matches_1 word possibilities cutoff :
  match get_close_matches word possibilities 1 cutoff with
  | [] => ∀ x, x ∈ possibilities → (ratio (chars x) (chars word) < cutoff)%Q
  | [name] =>
      name ∈ possibilities ∧ (cutoff <= ratio (chars name) (chars word))%Q
      ∧ ∀ x, x ∈ possibilities →
             (ratio (chars x) (chars word) <= ratio (chars name) (chars word))%Q
  | _ => False
  end.
Proof.
  unfold get_close_matches.
  set (score := λ x, if close_enough word x cutoff
                      then Some (ratio (chars x) (chars word), x) else None).
  pose proof (nlargest_1 (omap score possibilities)) as H.
  destruct (nlargest 1 (omap score possibilities)) as [|[r name] [|? ?]]; simpl; try done.
  - intros x Hx. apply Qnot_le_lt. intros E%Qle_bool_iff.
    rewrite <- close_enough_ratio in E.
    assert ((ratio (chars x) (chars word), x) ∈ omap score possibilities) as Hin.
    { apply list_elem_of_omap. exists x. split; [done|]. unfold score. by rewrite E. }
    rewrite H in Hin. by apply elem_of_nil in Hin.
  - destruct H as [Hin Hmax].
    apply list_elem_of_omap in Hin as (x & Hx & Hs). unfold score in Hs.
    destruct (close_enough word x cutoff) eqn:E; [|done]. simplify_eq.
    rewrite close_enough_ratio in E. apply Qle_bool_iff in E.
    split; [done|]. split; [done|].
    intros y Hy. destruct (Qlt_le_dec (ratio (chars y) (chars word)) cutoff) as [Ey|Ey].
    + apply Qlt_le_weak. eapply Qlt_le_trans; [exact Ey|exact E].
    + apply Qle_bool_iff in Ey. rewrite <- close_enough_ratio in Ey.
      apply (Hmax (ratio (chars y) (chars word), y)).
      apply list_elem_of_omap. exists y. split; [done|]. unfold score. by rewrite Ey.
Qed.

End ClosestMatch.

(** ** utils/language.py *)
Section LanguageFacts.
Import Difflib Language.

Lemma dict_get_key {V} (d : Dict.dict V) k : k ∈ Dict.keys d → is_Some (Dict.get d k).
Proof.
  induction d as [|[k' v] d IH]; simpl; [by intros ?%elem_of_nil|].
  intros [->|Hk]%elem_of_cons.
  - rewrite Strings.String.eqb_refl. eauto.
  - destruct (Strings.String.eqb k' k); eauto.
Qed.

Lemma dict_get_value {V} (d : Dict.dict V) k v : Dict.get d k = Some v → v ∈ Dict.values d.
Proof.
  unfold Dict.values. induction d as [|[k' v'] d IH]; simpl; [done|].
  destruct (Strings.String.eqb k' k); [intros [= ->]; by left|right; auto].
Qed.

Lemma dict_get_contains {V} (d : Dict.dict V) k :
  Dict.contains d (Some k) = true ↔ k ∈ Dict.keys d.
Proof.
  unfold Dict.contains. split.
  - induction d as [|[k' v] d IH]; simpl; [done|].
    destruct (Strings.String.eqb k' k) eqn:E.
    + apply Strings.String.eqb_eq in E as ->. intros _. by left.
    + intros H. right. by apply IH.
  - intros [v ->]%dict_get_key. done.
Qed.

(** C5: [get_language_code] lowercases its input, deletes "language" and
    then "lang", strips the ends, and asks for the one closest of the 14
    names at cutoff 0.5.  A match gives that name with its code from
    SUPPORTED_LANGUAGES: its similarity ratio to the normalised input is at
    least 0.5 and no other name has a higher one.  No match gives
    (None, None), and then every name's ratio is below 0.5.  Each of the 14
    names, given as it is, comes back with its own code. *)
Theorem get_language_code_closest_match :
  (∀ s : string,
     let normalized :=
       PyStr.strip (PyStr.remove "lang" (PyStr.remove "language" (PyStr.lower s))) in
     match get_language_code s with
     | (Some code, Some name) =>
         Dict.get SUPPORTED_LANGUAGES name = Some code
         ∧ (1 # 2 <= ratio (chars name) (chars normalized))%Q
         ∧ ∀ x, x ∈ Dict.keys SUPPORTED_LANGUAGES →
                (ratio (chars x) (chars normalized)
                 <= ratio (chars name) (chars normalized))%Q
     | (None, None) =>
         ∀ x, x ∈ Dict.keys SUPPORTED_LANGUAGES →
              (ratio (chars x) (chars normalized) < 1 # 2)%Q
     | _ => False
     end)
  ∧ length (Dict.keys SUPPORTED_LANGUAGES) = 14%nat
  ∧ Forall (λ '(name, code), get_language_code name = (Some code, Some name))
           SUPPORTED_LANGUAGES.
Proof.
  split; [|split; [reflexivity|]].
  - intros s normalized. unfold get_language_code, normalize_language_input.
    fold normalized.
    pose proof (get_close_matches_1 normalized (Dict.keys SUPPORTED_LANGUAGES) (1 # 2)) as H.
    destruct (get_close_matches normalized (Dict.keys SUPPORTED_LANGUAGES) 1 (1 # 2))
      as [|name [|? ?]]; try done.
    destruct H as (Hin & Hc & Hmax).
    destruct (dict_get_key _ _ Hin) as [code ->]. done.
  - repeat constructor; vm_compute; reflexivity.
Qed.

(** C10 rests on this: every code SUPPORTED_LANGUAGES can give is a key of
    NLLB_LANG_CODE_MAP. *)
Lemma supported_codes_in_nllb_map code :
  code ∈ Dict.values SUPPORTED_LANGUAGES → is_Some (Dict.get NLLB_LANG_CODE_MAP code).
Proof.
  intros H. unfold Dict.values in H. simpl in H.
  repeat (apply elem_of_cons in H as [->|H]; [vm_compute; eauto|]).
  by apply elem_of_nil in H.
Qed.

Lemma get_language_code_supported s code name :
  get_language_code s = (Some code, name) → code ∈ Dict.values SUPPORTED_LANGUAGES.
Proof.
  unfold get_language_code.
  destruct (get_close_matches _ _ _ _) as [|n ?]; [done|].
  intros [= H _]. eapply dict_get_value, H.
Qed.

End LanguageFacts.

(** ** Frames: what a computation adds to the trace and which files it touches *)
Section Frames.
Import Runtime.
Context {A : Type}.
Variable w : world.

(** No library call changes the file [name]. *)
Definition leaves (name : string) : Prop :=
  ∀ c t f, effect w c t f !! name = f !! name.

(** From [s] to [s'] no file changed but those in [names] and those the
    libraries write. *)
Definition kept (names : list string) (s s' : state) : Prop :=
  ∀ p, p ∉ names → leaves p → files s' !! p = files s !! p.

(** [s'] extends [s]: the trace grew by events that satisfy [P], and the
    files outside [names] are kept. *)
Definition frame (names : list string) (P : event → Prop) (s s' : state) : Prop :=
  (∃ added, trace s' = trace s ++ added ∧ Forall P added) ∧ kept names s s'.

Definition preserves (names : list string) (P : event → Prop) (m : M A) : Prop :=
  ∀ s, frame names P s (m s).2.

Lemma frame_refl names P s : frame names P s s.
Proof. split; [exists []; by rewrite app_nil_r|done]. Qed.

Lemma frame_trans names P s1 s2 s3 :
  frame names P s1 s2 → frame names P s2 s3 → frame names P s1 s3.
Proof.
  intros [(a1 & E1 & F1) H1] [(a2 & E2 & F2) H2]. split.
  - exists (a1 ++ a2). rewrite E2, E1, app_assoc. split; [done|]. by apply Forall_app.
  - intros p Hp Hl. by rewrite H2, H1.
Qed.

Lemma preserves_pure names P (m : M A) : (∀ s, (m s).2 = s) → preserves names P m.
Proof. intros H s. rewrite H. apply frame_refl. Qed.

Lemma preserves_return names P (a : A) : preserves names P (return_ a).
Proof. by apply preserves_pure. Qed.

Lemma preserves_raise names P e : preserves names P (raise e : M A).
Proof. by apply preserves_pure. Qed.

Lemma preserves_lift names P (o : outcome A) : preserves names P (lift o).
Proof. by apply preserves_pure. Qed.

Lemma preserves_try names P (m : M A) caught h :
  preserves names P m → (∀ e, preserves names P (h e)) →
  preserves names P (try_except m caught h).
Proof.
  intros Hm Hh s. unfold try_except. specialize (Hm s).
  destruct (m s) as [[a|e] s1]; simpl in *; [done|].
  destruct (caught e); [|done]. eapply frame_trans; [exact Hm|apply Hh].
Qed.

End Frames.

Section FramesBind.
Import Runtime.
Variable w : world.

Lemma bind_returns {A B} (m : M A) (k : A → M B) s a s1 :
  m s = (Returns a, s1) → bind m k s = k a s1.
Proof. intros H. unfold bind. by rewrite H. Qed.

Lemma bind_raises {A B} (m : M A) (k : A → M B) s e s1 :
  m s = (Raises e, s1) → bind m k s = (Raises e, s1).
Proof. intros H. unfold bind. by rewrite H. Qed.

Lemma preserves_bind {A B} names P (m : M A) (k : A → M B) :
  preserves w names P m → (∀ a, preserves w names P (k a)) →
  preserves w names P (bind m k).
Proof.
  intros Hm Hk s. unfold bind. specialize (Hm s).
  destruct (m s) as [[a|e] s1]; simpl in *; [|done].
  eapply frame_trans; [exact Hm|apply Hk].
Qed.

Lemma preserves_read {A} names P (field : state → A) : preserves w names P (read field).
Proof. by apply preserves_pure. Qed.

Lemma preserves_exists names P path : preserves w names P (exists_ w path).
Proof. by apply preserves_pure. Qed.

Lemma load_audio_state path s : (load_audio w path s).2 = s.
Proof. unfold load_audio. by repeat case_match. Qed.

Lemma json_load_state path s : (json_load w path s).2 = s.
Proof. unfold json_load. by repeat case_match. Qed.

Lemma preserves_load_audio names P path : preserves w names P (load_audio w path).
Proof. apply preserves_pure, load_audio_state. Qed.

Lemma preserves_json_load names P path : preserves w names P (json_load w path).
Proof. apply preserves_pure, json_load_state. Qed.

(** Assigning a global touches neither the trace nor the files. *)
Definition keeps_io (f : state → state) : Prop :=
  ∀ s, trace (f s) = trace s ∧ files (f s) = files s.

Lemma preserves_modify names P f : keeps_io f → preserves w names P (modify f).
Proof.
  intros H s. destruct (H s) as [Ht Hf]. split; simpl.
  - exists []. rewrite Ht, app_nil_r. by split.
  - intros p _ _. by rewrite Hf.
Qed.

Lemma preserves_log names P e : P e → preserves w names P (modify (log e)).
Proof. intros H s. split; simpl; [|done]. exists [e]. split; [done|]. by constructor. Qed.

Lemma preserves_mark names P p : P (Phase p) → preserves w names P (mark p).
Proof. apply preserves_log. Qed.

Lemma preserves_lib names P c : P (Lib c) → preserves w names P (lib w c).
Proof.
  intros H s. split; simpl.
  - exists [Lib c]. split; [done|]. by constructor.
  - intros p _ Hl. apply Hl.
Qed.

Lemma preserves_write_file names P path d :
  resolve w path ∈ names → preserves w names P (write_file w path d).
Proof.
  intros Hin s. unfold write_file.
  destruct (files s !! resolve w path) as [[? []]|]; simpl; try apply frame_refl.
  all: destruct (store w _ _ _); simpl; try apply frame_refl.
  all: split; simpl; [exists []; by rewrite app_nil_r|].
  all: intros p Hp _; apply lookup_insert_ne; set_solver.
Qed.

Lemma preserves_sf_write names P path data fs :
  resolve w path ∈ names → preserves w names P (sf_write w path data fs).
Proof.
  intros Hin. destruct data; [apply preserves_raise|by apply preserves_write_file].
Qed.

End FramesBind.

Create HintDb frames.
#[global] Hint Resolve preserves_return preserves_raise preserves_lift preserves_read
  preserves_exists preserves_load_audio preserves_json_load : frames.

(** Splits a computation along its binds, handlers and branches, and closes
    the leaves with the lemmas above; [tac] proves that a call is allowed. *)
Ltac frame_step tac :=
  lazymatch goal with
  | |- preserves _ _ _ (Runtime.bind _ _) => apply preserves_bind; [|intros ?]
  | |- preserves _ _ _ (Runtime.try_except _ _ _) => apply preserves_try; [|intros ?]
  | |- preserves ?w ?n ?P (Runtime.lib _ ?c) => apply (preserves_lib w n P c); tac
  | |- preserves _ _ _ (Runtime.mark _) => apply preserves_mark; tac
  | |- preserves _ _ _ (Runtime.modify _) => apply preserves_modify; by intros []
  | |- preserves _ _ _ (Runtime.sf_write _ _ _ _) => apply preserves_sf_write; tac
  | |- preserves _ _ _ (Runtime.json_dump _ _ _) => apply preserves_write_file; tac
  | |- preserves _ _ _ (match ?x with _ => _ end) => destruct x
  | |- preserves _ _ _ (let '(_, _) := ?x in _) => destruct x
  | |- preserves _ _ _ _ => solve [auto with frames]
  end.
Ltac frames tac := repeat frame_step tac.

(** ** The calls each function makes and the files it writes *)
Section FunctionFrames.
Import Runtime.
Variable w : world.
Variable names : list string.
Variable P : event → Prop.

Definition calls_audio (c : call) : bool :=
  match c with sd_rec _ _ | sd_play _ => true | _ => false end.

Definition calls_asr (c : call) : bool :=
  match c with
  | whisper_load_model _ | model_eval _ | whisper_detect_language _ _
  | whisper_decode _ _ | AutoModel_from_pretrained _ | indic_model_call _ _ _ _ => true
  | _ => false
  end.

Definition calls_voice (c : call) : bool :=
  match c with
  | whisper_load_model _ | model_eval _ | whisper_decode _ _ => true
  | _ => calls_audio c
  end.

Definition calls_target (c : call) : bool :=
  match c with
  | input _ => true
  | _ => calls_voice c
  end.

Definition calls_nllb_load (c : call) : bool :=
  match c with
  | pipeline _ _ | set_quantized_engine _ | quantize_dynamic _ => true
  | _ => false
  end.

(** The translation calls; [src] is the source language it may pass. *)
Definition calls_translation (src : string) (c : call) : bool :=
  calls_nllb_load c
  || match c with
     | nllb_call _ _ src_lang _ _ => bool_decide (src_lang = src)
     | _ => false
     end.

Definition calls_tts (c : call) : bool :=
  match c with
  | ParlerTTS_from_pretrained _ | model_eval _ | AutoTokenizer_from_pretrained _
  | AutoTokenizer_of_text_encoder _ | ensure_pad_token _ | parler_generate _ _ _ _ _
  | sd_play _ | pyttsx3_init | engine_setProperty _ _ _ | engine_say _ _
  | engine_runAndWait _ => true
  | _ => false
  end.

Definition calls_metrics (c : call) : bool :=
  match c with
  | perf_counter | cpu_times | memory_info_rss | cpu_count | utcnow_isoformat => true
  | _ => false
  end.

Ltac allowed HP :=
  first [ assumption | apply HP; reflexivity
        | intros [] ?; apply HP; done ].

Lemma record_audio_frame duration fs filename playback :
  resolve w filename ∈ names → (∀ c, calls_audio c = true → P (Lib c)) →
  preserves w names P (Audio.record_audio w duration fs filename playback).
Proof. intros Hn HP. unfold Audio.record_audio. frames ltac:(allowed HP). Qed.

Lemma play_beep_frame :
  (∀ c, calls_audio c = true → P (Lib c)) → preserves w names P (Audio.play_beep w).
Proof. intros HP. unfold Audio.play_beep. frames ltac:(allowed HP). Qed.

Lemma play_wav_frame filename :
  (∀ c, calls_tts c = true → P (Lib c)) → preserves w names P (Audio.play_wav w filename).
Proof. intros HP. unfold Audio.play_wav. frames ltac:(allowed HP). Qed.

Lemma get_whisper_model_frame :
  (∀ c, calls_asr c = true ∧ calls_target c = true → P (Lib c)) →
  preserves w names P (ASR.get_whisper_model w).
Proof.
  intros HP. unfold ASR.get_whisper_model.
  frames ltac:(apply HP; by split).
Qed.

Lemma transcribe_audio_frame audio_path :
  (∀ c, calls_asr c = true → P (Lib c)) →
  preserves w names P (ASR.transcribe_audio w audio_path).
Proof.
  intros HP. unfold ASR.transcribe_audio.
  apply preserves_bind; [apply get_whisper_model_frame; intros c []; auto|intros model].
  unfold ASR.detect_input_language_whisper, ASR.indic_transcribe, ASR.whisper_transcribe,
    ASR.get_indic_model.
  frames ltac:(allowed HP).
Qed.

Lemma voice_attempts_frame model attempt remaining :
  (∀ k, (k < remaining)%nat →
        resolve w ("target_attempt_" +:+ pretty (attempt + k + 1)%nat +:+ ".wav") ∈ names) →
  (∀ c, calls_voice c = true → P (Lib c)) →
  preserves w names P (ASR.voice_attempts w model attempt remaining).
Proof.
  intros Hn HP. revert attempt Hn.
  induction remaining as [|n IH]; intros attempt Hn; simpl; [apply preserves_return|].
  apply preserves_bind.
  { apply record_audio_frame; [|intros [] ?; apply HP; done].
    specialize (Hn 0%nat). rewrite Nat.add_0_r in Hn. apply Hn. lia. }
  intros path. frames ltac:(allowed HP).
  apply IH. intros k Hk. specialize (Hn (S k)).
  replace (S attempt + k + 1)%nat with (attempt + S k + 1)%nat by lia. apply Hn. lia.
Qed.

Lemma get_target_language_frame :
  resolve w "target_attempt_1.wav" ∈ names → resolve w "target_attempt_2.wav" ∈ names →
  (∀ c, calls_target c = true → P (Lib c)) →
  preserves w names P (ASR.get_target_language w).
Proof.
  intros H1 H2 HP. unfold ASR.get_target_language, ASR.detect_target_language_by_voice,
    ASR.detect_target_language_manually.
  apply preserves_bind.
  { apply preserves_bind; [apply get_whisper_model_frame; intros c []; auto|intros model].
    apply voice_attempts_frame; [|intros [] ?; apply HP; done].
    intros [|[|k]] Hk; [exact H1|exact H2|lia]. }
  intros [code name]. frames ltac:(allowed HP).
Qed.

Lemma get_nllb_pipeline_frame :
  (∀ c, calls_nllb_load c = true → P (Lib c)) →
  preserves w names P (Translation.get_nllb_pipeline w).
Proof. intros HP. unfold Translation.get_nllb_pipeline. frames ltac:(allowed HP). Qed.

Lemma translate_with_nllb_frame text src_lang_code tgt_lang_code :
  (∀ c, calls_nllb_load c = true → P (Lib c)) →
  (∀ nllb t,
     P (Lib (nllb_call nllb t
               (Dict.get_default Language.NLLB_LANG_CODE_MAP src_lang_code "eng_Latn")
               (Dict.get_default Language.NLLB_LANG_CODE_MAP tgt_lang_code "eng_Latn")
               512))) →
  preserves w names P (Translation.translate_with_nllb w text src_lang_code tgt_lang_code).
Proof.
  intros HP Hcall. unfold Translation.translate_with_nllb.
  destruct text as [t|]; [|apply preserves_return].
  destruct (Translation.blank (Some t)); [apply preserves_return|].
  apply preserves_try; [|intros; apply preserves_return].
  apply preserves_bind; [by apply get_nllb_pipeline_frame|intros nllb].
  frames ltac:(apply Hcall).
Qed.

Lemma play_tts_output_frame text lang_type tgt_lang_code :
  resolve w "output_indic.wav" ∈ names →
  (∀ c, calls_tts c = true → P (Lib c)) →
  preserves w names P (TTS.play_tts_output w text lang_type tgt_lang_code).
Proof.
  intros Hn HP. unfold TTS.play_tts_output, TTS.generate_speech, TTS.load_parler_tts,
    TTS.get_tts_engine, Audio.play_wav.
  frames ltac:(allowed HP).
Qed.

End FunctionFrames.

(** ** run_pipeline.py: the whole run *)
Section RunFrame.
Import Runtime.
Variable w : world.

(** Every call a run may make; NLLB is only ever given "eng_Latn" as source. *)
Definition calls_run (c : call) : bool :=
  calls_metrics c || calls_audio c || calls_asr c || calls_target c
  || calls_translation "eng_Latn" c || calls_tts c.

(** The sound files a run writes, by path and by the file each names. *)
Definition sound_files : list string :=
  ["input.wav"; "target_attempt_1.wav"; "target_attempt_2.wav"; "output_indic.wav"].

Definition sounds : list string := resolve w <$> sound_files.

Lemma append_log_frame names P output_log entry :
  resolve w output_log ∈ names → preserves w names P (Pipeline.append_log w output_log entry).
Proof. intros Hn. unfold Pipeline.append_log. frames ltac:(assumption). Qed.

Ltac run_step HP Hn :=
  lazymatch goal with
  | |- preserves _ _ _ (Audio.play_beep _) => apply play_beep_frame
  | |- preserves _ _ _ (Audio.record_audio _ _ _ _ _) => apply record_audio_frame; [apply Hn; set_solver|]
  | |- preserves _ _ _ (ASR.transcribe_audio _ _) => apply transcribe_audio_frame
  | |- preserves _ _ _ (ASR.get_target_language _) =>
      apply get_target_language_frame; [apply Hn; set_solver|apply Hn; set_solver|]
  | |- preserves _ _ _ (Translation.translate_with_nllb _ _ _ _) =>
      apply translate_with_nllb_frame; [|intros ? ?; apply HP; reflexivity]
  | |- preserves _ _ _ (TTS.play_tts_output _ _ _ _) =>
      apply play_tts_output_frame; [apply Hn; set_solver|]
  | |- preserves _ _ _ _ => frame_step ltac:(first [done | apply HP; reflexivity])
  | |- ∀ c, _ = true → _ =>
      let c := fresh "c" in let Hc := fresh "Hc" in
      intros c Hc; apply HP; unfold calls_run, calls_translation; rewrite Hc;
      by rewrite ?orb_true_r
  end.

Lemma run_before_log_frame names P duration output_log :
  (∀ p, p ∈ sounds → p ∈ names) →
  (∀ c, calls_run c = true → P (Lib c)) → (∀ p, P (Phase p)) →
  (∀ entry, preserves w names P (Pipeline.append_log w output_log entry)) →
  preserves w names P (Pipeline.run_voice2voice_evaluation w duration output_log).
Proof.
  intros Hn HP HM HL. unfold Pipeline.run_voice2voice_evaluation.
  repeat run_step HP Hn.
Qed.

End RunFrame.

(** ** What a computation adds to the trace *)
Section Added.
Import Runtime.

Definition added {A} (m : M A) (s : state) : list event :=
  drop (length (trace s)) (trace (m s).2).

Lemma preserves_added {A} w names P (m : M A) s :
  preserves w names P m →
  trace (m s).2 = trace s ++ added m s ∧ Forall P (added m s).
Proof.
  intros H. destruct (H s) as [(l & E & F) _]. unfold added.
  rewrite E, drop_app_length. by split.
Qed.

(** The source-language arguments of the NLLB calls in a trace. *)
Definition nllb_sources (t : list event) : list string :=
  omap (λ e, match e with Lib (nllb_call _ _ src _ _) => Some src | _ => None end) t.

Definition from_eng_Latn (e : event) : Prop :=
  match e with Lib (nllb_call _ _ src _ _) => src = "eng_Latn" | _ => True end.

Lemma run_from_eng_Latn w duration output_log s :
  Forall (λ src, src = "eng_Latn")
    (nllb_sources (added (Pipeline.run_voice2voice_evaluation w duration output_log) s)).
Proof.
  destruct (preserves_added w (resolve w output_log :: sounds w) from_eng_Latn
              (Pipeline.run_voice2voice_evaluation w duration output_log) s) as [_ H].
  - apply run_before_log_frame.
    + intros p Hp. by right.
    + intros [] Hc; try done. simpl. unfold calls_run in Hc. simpl in Hc.
      rewrite orb_false_r in Hc. by apply bool_decide_eq_true in Hc.
    + done.
    + intros entry. apply append_log_frame. by left.
  - apply Forall_forall. intros src Hsrc.
    apply list_elem_of_omap in Hsrc as (e & He & Hs).
    eapply Forall_forall in H; [|exact He].
    destruct e as [[]|]; simplify_eq. exact H.
Qed.

End Added.

(** C9: the run passes [src_lang_code=None] to translation, and a source
    code that is no key of NLLB_LANG_CODE_MAP ([None] included) becomes
    "eng_Latn"; so every call a run makes to the NLLB model has "eng_Latn" as
    its source language, and any two runs, whatever language was detected in
    them, pass the same source language. *)
Theorem translation_source_is_always_eng_Latn :
  (∀ code, Dict.contains Language.NLLB_LANG_CODE_MAP code = false →
           Dict.get_default Language.NLLB_LANG_CODE_MAP code "eng_Latn" = "eng_Latn")
  ∧ (∀ w duration output_log s,
       Forall (λ src, src = "eng_Latn")
         (nllb_sources (added (Pipeline.run_voice2voice_evaluation w duration output_log) s)))
  ∧ (∀ w1 w2 duration1 duration2 log1 log2 s1 s2 src1 src2,
       src1 ∈ nllb_sources (added (Pipeline.run_voice2voice_evaluation w1 duration1 log1) s1) →
       src2 ∈ nllb_sources (added (Pipeline.run_voice2voice_evaluation w2 duration2 log2) s2) →
       src1 = src2).
Proof.
  split; [|split].
  - intros [code|]; [|done]. unfold Dict.contains, Dict.get_default.
    by destruct (Dict.get _ code).
  - apply run_from_eng_Latn.
  - intros w1 w2 d1 d2 l1 l2 s1 s2 src1 src2 H1 H2.
    pose proof (run_from_eng_Latn w1 d1 l1 s1) as F1.
    pose proof (run_from_eng_Latn w2 d2 l2 s2) as F2.
    eapply Forall_forall in F1; [|exact H1]. eapply Forall_forall in F2; [|exact H2].
    congruence.
Qed.

(** ** models/translation.py *)
Section TranslationFacts.
Import Runtime.

Lemma rstrip_empty s : PyStr.rstrip s = "" ↔ forallb PyStr.isspace (Difflib.chars s) = true.
Proof.
  induction s as [|c r IH]; simpl; [done|].
  destruct (PyStr.rstrip r) eqn:E.
  - destruct (PyStr.isspace c); simpl; [|split; done].
    split; [intros _; by apply IH|done].
  - split; [done|]. intros [_ H]%andb_true_iff. apply IH in H. done.
Qed.

Lemma lstrip_spaces s :
  forallb PyStr.isspace (Difflib.chars (PyStr.lstrip s))
  = forallb PyStr.isspace (Difflib.chars s).
Proof.
  induction s as [|c r IH]; simpl; [done|].
  destruct (PyStr.isspace c) eqn:E; simpl; [done|]. by rewrite E.
Qed.

Lemma strip_empty s : PyStr.strip s = "" ↔ forallb PyStr.isspace (Difflib.chars s) = true.
Proof. unfold PyStr.strip. by rewrite rstrip_empty, lstrip_spaces. Qed.

(** [not text or not text.strip()] holds for [None] and for text made of
    whitespace only (the empty string included). *)
Lemma blank_whitespace text :
  Translation.blank text
  = match text with
    | None => true
    | Some t => forallb PyStr.isspace (Difflib.chars t)
    end.
Proof.
  destruct text as [t|]; [|done]. unfold Translation.blank. simpl.
  destruct t as [|c r]; [done|]. simpl (negb _ || _).
  destruct (forallb _ _) eqn:E.
  - apply strip_empty in E. by rewrite E.
  - destruct (PyStr.strip (String c r)) eqn:E'; [|done].
    apply strip_empty in E'. congruence.
Qed.

(** The two ways through [translate_with_nllb]. *)
Lemma translate_with_nllb_cases w text src_lang_code tgt_lang_code s :
  let run := Translation.translate_with_nllb w text src_lang_code tgt_lang_code s in
  match text with
  | None => run = (Returns None, s)
  | Some t =>
      if forallb PyStr.isspace (Difflib.chars t) then run = (Returns None, s)
      else
        match Translation.get_nllb_pipeline w s with
        | (Returns nllb, s1) =>
            let c :=
              nllb_call nllb t
                (Dict.get_default Language.NLLB_LANG_CODE_MAP src_lang_code "eng_Latn")
                (Dict.get_default Language.NLLB_LANG_CODE_MAP tgt_lang_code "eng_Latn")
                512 in
            run = (match respond w c (trace s1) with
                   | Returns translated => Returns (Some translated)
                   | Raises _ => Returns None
                   end, called w c s1)
        | (Raises _, s1) => run = (Returns None, s1)
        end
  end.
Proof.
  intros run. subst run. unfold Translation.translate_with_nllb.
  destruct text as [t|]; [|eauto].
  rewrite blank_whitespace.
  destruct (forallb _ _); [eauto|].
  unfold try_except, bind, lib.
  destruct (Translation.get_nllb_pipeline w s) as [[nllb|e] s1]; simpl; [|eauto].
  destruct (respond w _ (trace s1)); simpl; eauto.
Qed.


End TranslationFacts.

(** ** Target languages *)
Section TargetFacts.
Import Runtime Language.

(** The target-language arguments of the NLLB calls in a trace. *)
Definition nllb_targets (t : list event) : list string :=
  omap (λ e, match e with Lib (nllb_call _ _ _ tgt _) => Some tgt | _ => None end) t.

Lemma translate_with_nllb_target w text src code own s :
  Dict.get NLLB_LANG_CODE_MAP code = Some own →
  Forall (λ tgt, tgt = own)
    (nllb_targets (added (Translation.translate_with_nllb w text src (Some code)) s)).
Proof.
  intros Hown.
  set (P := λ e, match e with Lib (nllb_call _ _ _ tgt _) => tgt = own | _ => True end).
  destruct (preserves_added w [] P
              (Translation.translate_with_nllb w text src (Some code)) s) as [_ H].
  - apply translate_with_nllb_frame.
    + by intros [] ?.
    + intros nllb t. unfold P, Dict.get_default. by rewrite Hown.
  - apply Forall_forall. intros tgt Ht.
    apply list_elem_of_omap in Ht as (e & He & Hs).
    eapply Forall_forall in H; [|exact He].
    destruct e as [[]|]; simplify_eq. exact H.
Qed.

(** C10: every code in the range of SUPPORTED_LANGUAGES is a key of
    NLLB_LANG_CODE_MAP, and [get_language_code] gives no other code; so when
    [translate_with_nllb] is given a selected target language, every call it
    makes to the model carries that language's own NLLB code as target, not
    the "eng_Latn" fallback for unknown codes. *)
Theorem supported_targets_keep_their_nllb_code :
  Forall (λ '(name, code),
            ∃ own, Dict.get NLLB_LANG_CODE_MAP code = Some own
                   ∧ ∀ w text src s,
                       Forall (λ tgt, tgt = own)
                         (nllb_targets
                            (added (Translation.translate_with_nllb w text src (Some code)) s)))
         SUPPORTED_LANGUAGES
  ∧ length (Dict.values SUPPORTED_LANGUAGES) = 14%nat
  ∧ ∀ spoken, match get_language_code spoken with
              | (Some code, _) => code ∈ Dict.values SUPPORTED_LANGUAGES
              | (None, _) => True
              end.
Proof.
  split; [|split; [reflexivity|]].
  - apply Forall_forall. intros [name code] Hin.
    destruct (supported_codes_in_nllb_map code) as [own Hown].
    { apply list_elem_of_fmap. by exists (name, code). }
    exists own. split; [done|]. intros. by apply translate_with_nllb_target.
  - intros spoken. destruct (get_language_code spoken) as [[code|] name] eqn:E; [|done].
    by eapply get_language_code_supported.
Qed.

End TargetFacts.

(** ** Conversions between ints and floats *)
Section Rounding.
Local Open Scope Z_scope.

Lemma digits2_pos_spec p :
  2 ^ (Zpos (digits2_pos p) - 1) ≤ Zpos p < 2 ^ Zpos (digits2_pos p).
Proof.
  induction p as [p IH|p IH|]; simpl digits2_pos; [| |simpl; lia].
  all: rewrite Pos2Z.inj_succ;
    replace (Z.succ (Zpos (digits2_pos p)) - 1) with (Z.succ (Zpos (digits2_pos p) - 1)) by lia;
    rewrite !Z.pow_succ_r by lia; lia.
Qed.

Lemma digits2_pos_upper p k : Zpos p < 2 ^ k → Zpos (digits2_pos p) ≤ k.
Proof.
  intros H. destruct (digits2_pos_spec p) as [L _].
  destruct (decide (k < Zpos (digits2_pos p))) as [Hlt|]; [|lia].
  destruct (decide (k < 0)). { rewrite Z.pow_neg_r in H by lia. lia. }
  assert (2 ^ k ≤ 2 ^ (Zpos (digits2_pos p) - 1)) by (apply Z.pow_le_mono_r; lia).
  lia.
Qed.

Lemma shr_1_spec mrs : 0 ≤ shr_m mrs → shr_m (shr_1 mrs) = Z.shiftr (shr_m mrs) 1.
Proof.
  destruct mrs as [m r s]. simpl. intros H.
  destruct m as [|[p|p|]|p]; simpl; done || lia.
Qed.

Lemma iter_shr_1_spec n mrs :
  0 ≤ shr_m mrs → shr_m (SpecFloat.iter_pos shr_1 n mrs) = Z.shiftr (shr_m mrs) (Zpos n).
Proof.
  revert mrs. induction n as [n IH|n IH|]; intros mrs H; simpl SpecFloat.iter_pos.
  - assert (0 ≤ shr_m (shr_1 mrs)) by (rewrite shr_1_spec by done; by apply Z.shiftr_nonneg).
    assert (0 ≤ shr_m (SpecFloat.iter_pos shr_1 n (shr_1 mrs)))
      by (rewrite IH by done; by apply Z.shiftr_nonneg).
    rewrite IH, IH, shr_1_spec by done. rewrite !Z.shiftr_shiftr by lia. f_equal. lia.
  - assert (0 ≤ shr_m (SpecFloat.iter_pos shr_1 n mrs)) by (rewrite IH by done; by apply Z.shiftr_nonneg).
    rewrite IH, IH by done. rewrite Z.shiftr_shiftr by lia. f_equal. lia.
  - by apply shr_1_spec.
Qed.

(** [shr] divides the mantissa by a power of two and raises the exponent. *)
Lemma shr_spec mrs e n :
  0 ≤ shr_m mrs →
  shr_m (shr mrs e n).1 = shr_m mrs / 2 ^ Z.max n 0 ∧ (shr mrs e n).2 = e + Z.max n 0.
Proof.
  intros H. destruct n as [|n|n]; simpl.
  - rewrite Z.div_1_r. lia.
  - rewrite iter_shr_1_spec, Z.shiftr_div_pow2 by lia. split; [done|lia].
  - rewrite Z.div_1_r. lia.
Qed.

Lemma round_nearest_even_bounds m l : m ≤ round_nearest_even m l ≤ m + 1.
Proof. destruct l as [|[]]; simpl; try lia. destruct (Z.even m); lia. Qed.

(** In the normal range, rounding a positive mantissa gives a finite non-zero
    float or overflows; the exponent rises by at most the digits dropped
    and one. *)
Lemma binary_round_aux_shape s p ex l :
  -1074 ≤ Zpos (digits2_pos p) + ex - 53 →
  ∃ m e,
    binary_round_aux prec emax s (Zpos p) ex l
    = (if e <=? 971 then S754_finite s m e else S754_infinity s)
    ∧ ex ≤ e ≤ ex + Z.max (Zpos (digits2_pos p) - 53) 0 + 1.
Proof.
  intros Hn. unfold binary_round_aux, shr_fexp.
  pose proof (digits2_pos_spec p) as [Hlo Hhi].
  set (d := Zpos (digits2_pos p)) in *.
  change (Zdigits2 (Zpos p)) with d.
  set (n := fexp prec emax (d + ex) - ex).
  assert (n = d - 53) as Hn1 by (unfold n, fexp, SpecFloat.emin, prec, emax; lia).
  assert (0 < d) as Hd by (unfold d; lia).
  destruct (shr_spec (shr_record_of_loc (Zpos p) l) ex n) as [Hm1 He1].
  { by destruct l as [|[]]. }
  destruct (shr (shr_record_of_loc (Zpos p) l) ex n) as [mrs1 e1]. simpl in Hm1, He1.
  replace (shr_m (shr_record_of_loc (Zpos p) l)) with (Zpos p) in Hm1 by by destruct l as [|[]].
  set (N := Z.max n 0) in *.
  assert (2 ^ N ≤ 2 ^ (d - 1)) by (apply Z.pow_le_mono_r; lia).
  assert (0 < 2 ^ N) by (apply Z.pow_pos_nonneg; lia).
  assert (1 ≤ shr_m mrs1) as Hpos1.
  { rewrite Hm1. apply Z.div_le_lower_bound; lia. }
  assert (shr_m mrs1 < 2 ^ (d - N)) as Hup1.
  { rewrite Hm1. apply Z.div_lt_upper_bound; [lia|].
    rewrite <- Z.pow_add_r by lia. replace (N + (d - N)) with d by lia. done. }
  pose proof (round_nearest_even_bounds (shr_m mrs1) (loc_of_shr_record mrs1)) as Hr.
  destruct (round_nearest_even (shr_m mrs1) (loc_of_shr_record mrs1)) as [|r|r]; [lia| |lia].
  pose proof (digits2_pos_spec r) as [Hlor Hhir].
  assert (Zpos (digits2_pos r) ≤ d - N + 1) as Hdr.
  { apply digits2_pos_upper. rewrite Z.pow_add_r by lia. lia. }
  set (dr := Zpos (digits2_pos r)) in *.
  change (Zdigits2 (Zpos r)) with dr.
  set (n2 := fexp prec emax (dr + e1) - e1).
  assert (0 < dr) as Hdr0 by (unfold dr; lia).
  assert (Z.max n2 0 ≤ Z.max (dr - 53) 0) as Hn2
    by (unfold n2, fexp, SpecFloat.emin, prec, emax; lia).
  destruct (shr_spec (shr_record_of_loc (Zpos r) loc_Exact) e1 n2) as [Hm2 He2]; [done|].
  destruct (shr (shr_record_of_loc (Zpos r) loc_Exact) e1 n2) as [mrs2 e2].
  simpl in Hm2, He2.
  set (N2 := Z.max n2 0) in *.
  assert (2 ^ N2 ≤ 2 ^ (dr - 1)) by (apply Z.pow_le_mono_r; lia).
  assert (0 < 2 ^ N2) by (apply Z.pow_pos_nonneg; lia).
  assert (1 ≤ shr_m mrs2) as Hpos2.
  { rewrite Hm2. apply Z.div_le_lower_bound; lia. }
  destruct (shr_m mrs2) as [|m|m]; [lia| |lia].
  exists m, e2. split; [done|]. lia.
Qed.

Lemma digits2_pos_iter p k :
  Zpos (digits2_pos (Pos.iter xO p k)) = Zpos (digits2_pos p) + Zpos k.
Proof.
  induction k as [|k IH] using Pos.peano_ind.
  - simpl. lia.
  - rewrite Pos.iter_succ. simpl digits2_pos. lia.
Qed.

(** An integer in [1, 2^63) converts to a finite float that is not zero. *)
Lemma binary_normalize_int z :
  0 < z < 2 ^ 63 →
  ∃ m e, binary_normalize prec emax z 0 false = S754_finite false m e ∧ -52 ≤ e.
Proof.
  intros Hz. destruct z as [|p|p]; [lia| |lia]. simpl binary_normalize.
  unfold binary_round, shl_align.
  pose proof (digits2_pos_spec p) as [Hlo Hhi].
  assert (Zpos (digits2_pos p) ≤ 63) as Hd by (apply digits2_pos_upper; lia).
  assert (fexp prec emax (Zpos (digits2_pos p) + 0) = Zpos (digits2_pos p) - 53) as ->
    by (unfold fexp, SpecFloat.emin, prec, emax; lia).
  destruct (Zpos (digits2_pos p) - 53 - 0) as [|k|k] eqn:Ek.
  1, 2: destruct (binary_round_aux_shape false p 0 loc_Exact) as (m & e & -> & He); [lia|];
    exists m, e; split; [|lia]; by destruct (Z.leb_spec e 971); [|lia].
  destruct (binary_round_aux_shape false (Pos.iter xO p k) (Zpos (digits2_pos p) - 53) loc_Exact)
    as (m & e & -> & He); rewrite ?digits2_pos_iter in *; [lia|].
  exists m, e. split; [|lia]. by destruct (Z.leb_spec e 971); [|lia].
Qed.

Lemma float_of_int_small z :
  0 < z < 2 ^ 63 →
  ∃ f m e,
    PyNum.float_of_int z = Runtime.Returns f ∧ Prim2SF f = S754_finite false m e ∧ -52 ≤ e.
Proof.
  intros Hz. destruct (binary_normalize_int z Hz) as (m & e & E & He).
  exists (of_uint63 (Uint63.of_Z z)), m, e.
  assert (Prim2SF (of_uint63 (Uint63.of_Z z)) = S754_finite false m e) as Ef.
  { rewrite of_uint63_spec, Uint63.of_Z_spec, Z.mod_small; [done|].
    change Uint63.wB with (2 ^ 63). lia. }
  split; [|done]. unfold PyNum.float_of_int. rewrite E, <- Ef. by rewrite SF2Prim_Prim2SF.
Qed.

(** Half of a float that is at least one is not zero. *)
Lemma half_is_not_zero f m e :
  Prim2SF f = S754_finite false m e → -52 ≤ e → (0.5 * f =? 0)%float = false.
Proof.
  intros Ef He. rewrite FloatAxioms.eqb_spec, mul_spec, Ef.
  change (Prim2SF 0.5) with (S754_finite false 4503599627370496 (-53)).
  change (Prim2SF 0) with (S754_zero false).
  unfold SF64mul, SFmul.
  destruct (binary_round_aux_shape (xorb false false) (4503599627370496 * m) (-53 + e) loc_Exact)
    as (m' & e' & -> & _).
  { pose proof (digits2_pos_spec (4503599627370496 * m)). lia. }
  by destruct (e' <=? 971).
Qed.

(** A sample rate in [1, 2^63) has a Nyquist frequency that is a float other
    than zero: the divisions by it do not raise. *)
Lemma nyquist_divides fs x :
  0 < fs < 2 ^ 63 →
  ∃ fs', PyNum.float_of_int fs = Runtime.Returns fs'
         ∧ PyNum.truediv x (0.5 * fs') = Runtime.Returns (x / (0.5 * fs'))%float.
Proof.
  intros Hfs. destruct (float_of_int_small fs Hfs) as (f & m & e & E & Ef & He).
  exists f. split; [done|]. unfold PyNum.truediv.
  by rewrite (half_is_not_zero f m e Ef He).
Qed.

End Rounding.

(** ** utils/audio.py *)
Section AudioFacts.
Import Runtime.

(** At 16 kHz, the rate every call site uses, the normalised band is
    [0.01, 0.9875]: neither clamp applies. *)
Example butter_bandpass_16k w :
  Audio.butter_bandpass w 80 7900 16000 4 = butter w 4 0.01 0.9875 "band".
Proof. reflexivity. Qed.

(** The frames asked of the device: 28000 for the 1.75 s of a target-language
    attempt, 16015 (not 16016) for 1.001 s. *)
Example frames_of_a_float_duration :
  and_then (PyNum.mul_int (PyNum.PyFloat 1.75) 16000) PyNum.int = Returns 28000%Z
  ∧ and_then (PyNum.mul_int (PyNum.PyFloat 1.001) 16000) PyNum.int = Returns 16015%Z
  ∧ and_then (PyNum.mul_int (PyNum.PyInt 2) 16000) PyNum.int = Returns 32000%Z.
Proof. by vm_compute. Qed.

(** What [record_audio] does, step by step. *)
Lemma record_audio_cases w duration fs filename playback s :
  let run := Audio.record_audio w duration fs filename playback s in
  match and_then (PyNum.mul_int duration fs) PyNum.int with
  | Raises e => run = (Raises e, s)
  | Returns frames =>
      let s1 := called w (sd_rec frames fs) s in
      match respond w (sd_rec frames fs) (trace s) with
      | Raises e => run = (Raises e, s1)
      | Returns data =>
          match Audio.bandpass_filter w (concat data) 80 7900 fs 4 with
          | Raises e => run = (Raises e, s1)
          | Returns filtered =>
              let play := sd_play (Samples filtered fs) in
              let s2 := if playback then called w play s1 else s1 in
              match (if playback then respond w play (trace s1) else Returns ()) with
              | Raises e => run = (Raises e, s2)
              | Returns _ =>
                  let name := resolve w filename in
                  let stored := Audio (encode w filename filtered) fs in
                  match files s2 !! name with
                  | Some (File _ false) => run = (Raises PermissionError, s2)
                  | _ =>
                      match store w name stored (trace s2) with
                      | Written =>
                          run = (Returns filename,
                                 set_files (<[name := File stored true]> (files s2)) s2)
                      | Refused e => run = (Raises e, s2)
                      | Torn e rest =>
                          run = (Raises e,
                                 set_files (<[name := File rest true]> (files s2)) s2)
                      end
                  end
              end
          end
      end
  end.
Proof.
  intros run. subst run.
  unfold Audio.record_audio, Audio.default_lowcut, Audio.default_highcut,
    Audio.default_order, bind, lib, lift, sf_write, write_file, return_.
  destruct (and_then _ _) as [frames|e]; [|done].
  destruct (respond w _ (trace s)) as [data|e]; [|done].
  destruct (Audio.bandpass_filter w _ _ _ _ _) as [filtered|e]; [|done].
  destruct playback; [destruct (respond w _ _) as [[]|e]; [|done]|].
  all: destruct (files _ !! _) as [[d []]|]; try done.
  all: by destruct (store w _ _ _).
Qed.

(** C8 as the spec states it: the call returns the file name it was given
    and leaves in the file exactly what the filter made of the flattened
    recording. *)
Definition writes_the_filtered_samples (w : world) (duration : PyNum.number) (fs : Z)
    (filename : string) (s : state) : Prop :=
  ∃ frames data filtered s',
    and_then (PyNum.mul_int duration fs) PyNum.int = Returns frames
    ∧ respond w (sd_rec frames fs) (trace s) = Returns data
    ∧ Audio.bandpass_filter w (concat data) 80 7900 fs 4 = Returns filtered
    ∧ Audio.record_audio w duration fs filename false s = (Returns filename, s')
    ∧ files s' !! resolve w filename = Some (File (Audio filtered fs) true).

(** The first sample of a sound file. *)
Definition first_sample (f : option file) : float :=
  match f with
  | Some (File (Audio (v :: _) _) _) => v
  | _ => 0%float
  end.

(** C8 fails as stated.  With no microphone the recording raises: nothing
    is written and no file name is returned.  And where the recording works,
    the file is a 16-bit sound file: the filter gives 0.15 for the first
    sample, and the file holds 4915/32768. *)
Lemma recording_fails_or_is_rounded :
  ¬ writes_the_filtered_samples Examples.no_microphone (PyNum.PyInt 2) 16000 "input.wav"
      Examples.fresh
  ∧ ¬ writes_the_filtered_samples Examples.soft_voice (PyNum.PyInt 2) 16000 "input.wav"
        Examples.fresh.
Proof.
  split; intros (frames & data & filtered & s' & Hf & Hd & Hb & Hr & Hfile).
  - vm_compute in Hr. discriminate Hr.
  - vm_compute in Hf. injection Hf as <-.
    vm_compute in Hd. injection Hd as <-.
    vm_compute in Hb. injection Hb as <-.
    vm_compute in Hr. injection Hr as <-.
    apply (f_equal first_sample) in Hfile.
    apply (f_equal (λ v, (v =? 0.15)%float)) in Hfile.
    vm_compute in Hfile. discriminate Hfile.
Qed.

(** The same recording: what the filter gives and what the file holds. *)
Example soft_voice_is_rounded :
  let run := Audio.record_audio Examples.soft_voice (PyNum.PyInt 2) 16000 "input.wav" false
               Examples.fresh in
  Audio.bandpass_filter Examples.soft_voice [0.3; 0.1]%float 80 7900 16000 4
  = Returns [0.15; 0.05]%float
  ∧ run.1 = Returns "input.wav"
  ∧ files run.2 !! "input.wav"
    = Some (File (Audio [0.149993896484375; 0.04998779296875]%float 16000) true).
Proof. by vm_compute. Qed.

(** C8, amended: [record_audio] asks the device for [int(duration * fs)]
    frames and passes the flattened recording through the Butterworth bandpass
    of order 4 with cutoffs 80 Hz and 7900 Hz over the Nyquist frequency of the
    given rate, clamped to [1e-6, 0.999].  When the recording, the filter, the
    playback if asked for and the write go through, it returns the file name
    it was given, and the file holds the filtered samples as the sound format
    encodes them, at the given rate; the unfiltered samples are never handed
    to a file.  When a step raises, [record_audio] raises and returns no file
    name; the file is then as the calls before left it, or torn if the write
    itself failed. *)
Theorem record_audio_writes_filtered w duration fs filename playback s :
  let run := Audio.record_audio w duration fs filename playback s in
  (∀ data, Audio.bandpass_filter w data 80 7900 fs 4
     = and_then (PyNum.float_of_int fs) (λ fs',
       and_then (PyNum.truediv 80 (0.5 * fs')) (λ low,
       and_then (PyNum.truediv 7900 (0.5 * fs')) (λ high,
       and_then (butter w 4 (PyNum.max low 1e-6) (PyNum.min high 0.999) "band") (λ ba,
       lfilter w ba data)))))
  ∧ match and_then (PyNum.mul_int duration fs) PyNum.int with
    | Raises e => run = (Raises e, s)
    | Returns frames =>
        let s1 := called w (sd_rec frames fs) s in
        match respond w (sd_rec frames fs) (trace s) with
        | Raises e => run = (Raises e, s1)
        | Returns data =>
            match Audio.bandpass_filter w (concat data) 80 7900 fs 4 with
            | Raises e => run = (Raises e, s1)
            | Returns filtered =>
                let play := sd_play (Samples filtered fs) in
                let s2 := if playback then called w play s1 else s1 in
                match (if playback then respond w play (trace s1) else Returns ()) with
                | Raises e => run = (Raises e, s2)
                | Returns _ =>
                    let name := resolve w filename in
                    let stored := Audio (encode w filename filtered) fs in
                    match files s2 !! name with
                    | Some (File _ false) => run = (Raises PermissionError, s2)
                    | _ =>
                        match store w name stored (trace s2) with
                        | Written =>
                            run = (Returns filename,
                                   set_files (<[name := File stored true]> (files s2)) s2)
                        | Refused e => run = (Raises e, s2)
                        | Torn e rest =>
                            run = (Raises e,
                                   set_files (<[name := File rest true]> (files s2)) s2)
                        end
                    end
                end
            end
        end
    end.
Proof.
  split; [|apply record_audio_cases].
  intros data. unfold Audio.bandpass_filter, Audio.butter_bandpass.
  destruct (PyNum.float_of_int fs) as [fs'|]; [|done]. simpl.
  destruct (PyNum.truediv 80 _); [|done]. simpl.
  by destruct (PyNum.truediv 7900 _).
Qed.

End AudioFacts.

(** ** The order on floats that [max], [min] and [<] use *)
Section FloatOrder.

Ltac order_facts :=
  repeat match goal with
         | H : (?x ?= ?y)%Z = Lt |- _ => change (x < y)%Z in H
         | H : (_ ?= _)%Z = Gt |- _ => apply Z.compare_gt_iff in H
         | H : (_ ?= _)%Z = Eq |- _ => apply Z.compare_eq_iff in H
         | H : (?x ?= ?y)%positive = Lt |- _ => change (x < y)%positive in H
         | H : (_ ?= _)%positive = Gt |- _ => apply Pos.compare_gt_iff in H
         | H : (_ ?= _)%positive = Eq |- _ => apply Pos.compare_eq_iff in H
         end.

Lemma SFltb_irrefl f : SFltb f f = false.
Proof.
  unfold SFltb, SFcompare. destruct f as [s|s| |s m e]; try done; try by destruct s.
  change (PosDef.Pos.compare_cont Eq m m) with (m ?= m)%positive.
  rewrite Z.compare_refl, Pos.compare_refl. by destruct s.
Qed.

Lemma SFltb_trans f g h : SFltb f g = true → SFltb g h = true → SFltb f h = true.
Proof.
  unfold SFltb, SFcompare.
  destruct f as [s1|s1| |s1 m1 e1], g as [s2|s2| |s2 m2 e2], h as [s3|s3| |s3 m3 e3];
    try done; try (by destruct s1, s2, s3).
  change (PosDef.Pos.compare_cont Eq m1 m2) with (m1 ?= m2)%positive.
  change (PosDef.Pos.compare_cont Eq m2 m3) with (m2 ?= m3)%positive.
  change (PosDef.Pos.compare_cont Eq m1 m3) with (m1 ?= m3)%positive.
  destruct s1, s2, s3; try done;
    destruct (e1 ?= e2)%Z eqn:E12, (e2 ?= e3)%Z eqn:E23, (e1 ?= e3)%Z eqn:E13;
    try done;
    destruct (m1 ?= m2)%positive eqn:M12, (m2 ?= m3)%positive eqn:M23,
      (m1 ?= m3)%positive eqn:M13;
    try done; order_facts; lia.
Qed.

Lemma ltb_irrefl (x : float) : (x <? x)%float = false.
Proof. rewrite ltb_spec. apply SFltb_irrefl. Qed.

Lemma ltb_trans (x y z : float) :
  (x <? y)%float = true → (y <? z)%float = true → (x <? z)%float = true.
Proof. rewrite !ltb_spec. apply SFltb_trans. Qed.

(** [max(x, y)] is never below either argument, and [min(x, y)] never above,
    in the order [<] itself; a NaN is below and above nothing. *)
Lemma max_not_below_floor x y : (PyNum.max x y <? y)%float = false.
Proof.
  unfold PyNum.max. destruct (x <? y)%float eqn:E; [apply ltb_irrefl|exact E].
Qed.

Lemma min_not_above_cap x y : (y <? PyNum.min x y)%float = false.
Proof.
  unfold PyNum.min. destruct (y <? x)%float eqn:E; [apply ltb_irrefl|exact E].
Qed.

End FloatOrder.

(** ** models/asr.py: the language Whisper is most sure of *)
Section Detection.
Import Runtime Language.

(** No entry is strictly above [best]. *)
Definition unbeaten (best : string * float) (probs : list (string * float)) : Prop :=
  Forall (λ kv, (snd best <? snd kv)%float = false) probs.

Lemma unbeaten_raise best kv probs :
  (snd best <? snd kv)%float = true → unbeaten best probs → unbeaten kv probs.
Proof.
  intros Hlt Hun. eapply Forall_impl; [exact Hun|]. intros other Ho. simpl in *.
  destruct (snd kv <? snd other)%float eqn:E; [|done].
  by rewrite (ltb_trans _ _ _ Hlt E) in Ho.
Qed.

(** [max(probs, key=probs.get)] picks an entry of [probs] that no entry
    beats. *)
Lemma max_key_spec best rest seen :
  best ∈ seen → unbeaten best seen →
  ∃ p, (ASR.max_key best rest, p) ∈ seen ++ rest
       ∧ unbeaten (ASR.max_key best rest, p) (seen ++ rest).
Proof.
  revert best seen. induction rest as [|kv rest IH]; intros best seen Hin Hun; simpl.
  - exists (snd best). rewrite app_nil_r. by destruct best.
  - replace (seen ++ kv :: rest) with ((seen ++ [kv]) ++ rest) by by rewrite <- app_assoc.
    destruct (snd best <? snd kv)%float eqn:E; apply IH.
    + apply elem_of_app. right. by left.
    + apply Forall_app. split; [by eapply unbeaten_raise|].
      apply Forall_singleton. apply ltb_irrefl.
    + apply elem_of_app. by left.
    + apply Forall_app. split; [done|]. by apply Forall_singleton.
Qed.

(** What [detect_input_language_whisper] does: it reads the file, asks the
    model once, and picks a code no other code out-scores. *)
Lemma detect_input_language_whisper_cases w audio_path model s :
  match load_audio w audio_path s with
  | (Raises e, _) => ASR.detect_input_language_whisper w audio_path model s = (Raises e, s)
  | (Returns a, _) =>
      let c := whisper_detect_language model a in
      match respond w c (trace s) with
      | Raises e =>
          ASR.detect_input_language_whisper w audio_path model s = (Raises e, called w c s)
      | Returns [] =>
          ASR.detect_input_language_whisper w audio_path model s
          = (Raises ValueError, called w c s)
      | Returns probs =>
          ∃ code p,
            ASR.detect_input_language_whisper w audio_path model s
            = (Returns (code,
                        Dict.get_default INDIAN_LANG_MAP (Some code) "International",
                        Dict.contains INDIAN_LANG_MAP (Some code)),
               called w c s)
            ∧ (code, p) ∈ probs
            ∧ Forall (λ kv, (p <? snd kv)%float = false) probs
      end
  end.
Proof.
  unfold ASR.detect_input_language_whisper, bind, lib, return_, raise.
  pose proof (load_audio_state w audio_path s) as E.
  destruct (load_audio w audio_path s) as [[a|e] s1]; simpl in E; subst s1; [|done].
  destruct (respond w _ (trace s)) as [[|kv rest]|e]; try done.
  destruct (max_key_spec kv rest [kv]) as (p & Hin & Hun).
  { by left. } { apply Forall_singleton, ltb_irrefl. }
  exists (ASR.max_key kv rest), p. split; [done|]. by split.
Qed.

End Detection.

(** ** models/asr.py: routing *)
Section RoutingFacts.
Import Runtime Language.

Definition is_indic_call (e : event) : bool :=
  match e with
  | Lib (AutoModel_from_pretrained _) | Lib (indic_model_call _ _ _ _) => true
  | _ => false
  end.

Definition is_whisper_decode (e : event) : bool :=
  match e with Lib (whisper_decode _ _) => true | _ => false end.

Lemma indic_transcribe_calls w audio_path lang_code s :
  Forall (λ e, is_whisper_decode e = false)
    (added (ASR.indic_transcribe w audio_path lang_code) s).
Proof.
  eapply (preserves_added w []). unfold ASR.indic_transcribe, ASR.get_indic_model.
  frames ltac:(done).
Qed.

Lemma whisper_transcribe_calls w audio_path model s :
  Forall (λ e, is_indic_call e = false)
    (added (ASR.whisper_transcribe w audio_path model) s).
Proof.
  eapply (preserves_added w []). unfold ASR.whisper_transcribe.
  frames ltac:(done).
Qed.

Lemma contains_keys code :
  Dict.contains INDIAN_LANG_MAP (Some code) = bool_decide (code ∈ Dict.keys INDIAN_LANG_MAP).
Proof.
  destruct (Dict.contains INDIAN_LANG_MAP (Some code)) eqn:E; symmetry.
  - by apply bool_decide_eq_true, dict_get_contains.
  - apply bool_decide_eq_false. intros H%dict_get_contains. congruence.
Qed.

(** The flag [detect_input_language_whisper] returns. *)
Lemma detected_flag w audio_path model s :
  match ASR.detect_input_language_whisper w audio_path model s with
  | (Returns (code, _, is_indian), _) =>
      is_indian = bool_decide (code ∈ Dict.keys INDIAN_LANG_MAP)
  | (Raises _, _) => True
  end.
Proof.
  unfold ASR.detect_input_language_whisper, bind, lib, return_, raise.
  destruct (load_audio w audio_path s) as [[a|e] s1]; [|done].
  destruct (respond w _ _) as [[|kv rest]|e];
    cbn -[Dict.contains Dict.get_default Dict.keys INDIAN_LANG_MAP bool_decide];
    try done.
  apply contains_keys.
Qed.

(** Whisper transcription: the file is read and decoded by the given model. *)
Lemma whisper_transcribe_cases w audio_path model s :
  ASR.whisper_transcribe w audio_path model s
  = match load_audio w audio_path s with
    | (Returns a, _) =>
        (respond w (whisper_decode model a) (trace s), called w (whisper_decode model a) s)
    | (Raises e, _) => (Raises e, s)
    end.
Proof.
  unfold ASR.whisper_transcribe, bind, lib.
  pose proof (load_audio_state w audio_path s) as E.
  by destruct (load_audio w audio_path s) as [[a|e] s1]; simpl in E; subst s1.
Qed.

(** IndicConformer transcription: the model is fetched, the file is read and
    handed to the model with the language code and CTC decoding. *)
Lemma indic_transcribe_cases w audio_path lang_code s :
  ASR.indic_transcribe w audio_path lang_code s
  = match ASR.get_indic_model w s with
    | (Returns indic_model, s1) =>
        match load_audio w audio_path s1 with
        | (Returns a, _) =>
            let c := indic_model_call indic_model a lang_code "ctc" in
            (respond w c (trace s1), called w c s1)
        | (Raises e, _) => (Raises e, s1)
        end
    | (Raises e, s1) => (Raises e, s1)
    end.
Proof.
  unfold ASR.indic_transcribe, bind at 1.
  destruct (ASR.get_indic_model w s) as [[indic_model|e] s1]; [|done].
  unfold bind, lib.
  pose proof (load_audio_state w audio_path s1) as E.
  by destruct (load_audio w audio_path s1) as [[a|e] s2]; simpl in E; subst s2.
Qed.

(** C6: INDIAN_LANG_MAP has 22 keys.  [detect_input_language_whisper] reads
    the audio file and asks Whisper once for the probabilities of the
    languages; the code it detects is a code of that table that no other code
    out-scores, its name is the one INDIAN_LANG_MAP gives or "International",
    and [is_indian] holds exactly when the code is one of the 22 keys (an
    unreadable file, a failing model and an empty table raise).
    [transcribe_audio] fetches the Whisper model, detects with it, and routes
    by the detected code: to [indic_transcribe] with that code when it is a
    key, to [whisper_transcribe] with the Whisper model when it is not.
    [indic_transcribe] hands the audio and the code to the IndicConformer
    model with CTC decoding and never decodes with Whisper;
    [whisper_transcribe] decodes with Whisper and never touches
    IndicConformer. *)
Theorem transcribe_audio_routes_by_detected_code :
  length (Dict.keys INDIAN_LANG_MAP) = 22%nat
  ∧ (∀ w audio_path model s,
       match load_audio w audio_path s with
       | (Raises e, _) =>
           ASR.detect_input_language_whisper w audio_path model s = (Raises e, s)
       | (Returns a, _) =>
           let c := whisper_detect_language model a in
           match respond w c (trace s) with
           | Raises e =>
               ASR.detect_input_language_whisper w audio_path model s
               = (Raises e, called w c s)
           | Returns [] =>
               ASR.detect_input_language_whisper w audio_path model s
               = (Raises ValueError, called w c s)
           | Returns probs =>
               ∃ code p,
                 ASR.detect_input_language_whisper w audio_path model s
                 = (Returns (code,
                             Dict.get_default INDIAN_LANG_MAP (Some code) "International",
                             bool_decide (code ∈ Dict.keys INDIAN_LANG_MAP)),
                    called w c s)
                 ∧ (code, p) ∈ probs
                 ∧ Forall (λ kv, (p <? snd kv)%float = false) probs
           end
       end)
  ∧ (∀ w audio_path s,
       match ASR.get_whisper_model w s with
       | (Returns model, s1) =>
           match ASR.detect_input_language_whisper w audio_path model s1 with
           | (Returns (code, _, _), s2) =>
               ASR.transcribe_audio w audio_path s
               = if bool_decide (code ∈ Dict.keys INDIAN_LANG_MAP)
                 then ASR.indic_transcribe w audio_path code s2
                 else ASR.whisper_transcribe w audio_path model s2
           | (Raises e, s2) => ASR.transcribe_audio w audio_path s = (Raises e, s2)
           end
       | (Raises e, s1) => ASR.transcribe_audio w audio_path s = (Raises e, s1)
       end)
  ∧ (∀ w audio_path lang_code s,
       ASR.indic_transcribe w audio_path lang_code s
       = match ASR.get_indic_model w s with
         | (Returns indic_model, s1) =>
             match load_audio w audio_path s1 with
             | (Returns a, _) =>
                 let c := indic_model_call indic_model a lang_code "ctc" in
                 (respond w c (trace s1), called w c s1)
             | (Raises e, _) => (Raises e, s1)
             end
         | (Raises e, s1) => (Raises e, s1)
         end)
  ∧ (∀ w audio_path model s,
       ASR.whisper_transcribe w audio_path model s
       = match load_audio w audio_path s with
         | (Returns a, _) =>
             (respond w (whisper_decode model a) (trace s),
              called w (whisper_decode model a) s)
         | (Raises e, _) => (Raises e, s)
         end)
  ∧ (∀ w audio_path lang_code s,
       Forall (λ e, is_whisper_decode e = false)
         (added (ASR.indic_transcribe w audio_path lang_code) s))
  ∧ (∀ w audio_path model s,
       Forall (λ e, is_indic_call e = false)
         (added (ASR.whisper_transcribe w audio_path model) s)).
Proof.
  split; [reflexivity|]. split.
  { intros w audio_path model s.
    pose proof (detect_input_language_whisper_cases w audio_path model s) as H.
    destruct (load_audio w audio_path s) as [[a|e] s1]; [|done]. simpl in *.
    destruct (respond w _ (trace s)) as [[|kv rest]|e]; try done.
    destruct H as (code & p & H). exists code, p. by rewrite <- contains_keys. }
  split.
  { intros w audio_path s. unfold ASR.transcribe_audio.
    destruct (ASR.get_whisper_model w s) as [[model|e] s1] eqn:Eg;
      [|by apply bind_raises].
    rewrite (bind_returns _ _ _ _ _ Eg).
    pose proof (detected_flag w audio_path model s1) as Hdet.
    destruct (ASR.detect_input_language_whisper w audio_path model s1)
      as [[[[code name] is_indian]|e] s2] eqn:Ed; [|by apply bind_raises].
    rewrite (bind_returns _ _ _ _ _ Ed), <- Hdet. by destruct is_indian. }
  split; [apply indic_transcribe_cases|]. split; [apply whisper_transcribe_cases|].
  split; [apply indic_transcribe_calls|apply whisper_transcribe_calls].
Qed.

End RoutingFacts.

(** ** The model loaders *)
Section LoaderFacts.
Import Runtime.

(** A call that returned has done all the loading there is: calling again
    from the state it left returns the same value and changes nothing. *)
Definition memoized {R} (loader : M R) : Prop :=
  ∀ s r s', loader s = (Returns r, s') → loader s' = (Returns r, s').

(** With the global set, the loader hands it back and touches nothing. *)
Definition cached (field : state → option handle) (loader : M handle) : Prop :=
  ∀ s h, field s = Some h → loader s = (Returns h, s).

Ltac run_loader :=
  unfold bind, read, lib, modify, return_, try_except; simpl.

Lemma get_whisper_model_cached w : cached _whisper_model (ASR.get_whisper_model w).
Proof. intros s h H. unfold ASR.get_whisper_model. run_loader. by rewrite H. Qed.

Lemma get_indic_model_cached w : cached _indic_model (ASR.get_indic_model w).
Proof. intros s h H. unfold ASR.get_indic_model. run_loader. by rewrite H. Qed.

Lemma get_nllb_pipeline_cached w : cached _nllb_pipeline (Translation.get_nllb_pipeline w).
Proof. intros s h H. unfold Translation.get_nllb_pipeline. run_loader. by rewrite H. Qed.

Lemma get_tts_engine_cached w : cached _engine (TTS.get_tts_engine w).
Proof. intros s h H. unfold TTS.get_tts_engine. run_loader. by rewrite H. Qed.

Lemma load_parler_tts_cached w s m :
  _parler_model s = Some m →
  TTS.load_parler_tts w s = (Returns (Some m, _tokenizer s, _desc_tokenizer s), s).
Proof. intros H. unfold TTS.load_parler_tts. run_loader. rewrite H. simpl. by rewrite H. Qed.

(** [o], then [a]: the value a loader returns after a set-up call. *)
Definition and_return {A} (o : outcome unit) (a : A) : outcome A :=
  and_then o (λ _, Returns a).

(** What each loader does from a state where its global is unset. *)
Definition whisper_load (w : world) (s : state) : outcome handle * state :=
  let load := whisper_load_model "small" in
  match respond w load (trace s) with
  | Raises e => (Raises e, called w load s)
  | Returns m =>
      let s1 := set_whisper_model (Some m) (called w load s) in
      (and_return (respond w (model_eval m) (trace s1)) m, called w (model_eval m) s1)
  end.

Definition indic_load (w : world) (s : state) : outcome handle * state :=
  let load := AutoModel_from_pretrained "ai4bharat/indic-conformer-600m-multilingual" in
  match respond w load (trace s) with
  | Raises e => (Raises e, called w load s)
  | Returns m =>
      let s1 := set_indic_model (Some m) (called w load s) in
      (and_return (respond w (model_eval m) (trace s1)) m, called w (model_eval m) s1)
  end.

(** A failure of the dynamic quantization is swallowed. *)
Definition nllb_load (w : world) (s : state) : outcome handle * state :=
  let load := pipeline "translation" "facebook/nllb-200-distilled-600M" in
  match respond w load (trace s) with
  | Raises e => (Raises e, called w load s)
  | Returns p =>
      let s1 := set_nllb_pipeline (Some p) (called w load s) in
      let s2 := called w (set_quantized_engine "qnnpack") s1 in
      match respond w (set_quantized_engine "qnnpack") (trace s1) with
      | Raises e => (Raises e, s2)
      | Returns _ => (Returns p, called w (quantize_dynamic p) s2)
      end
  end.

Definition engine_load (w : world) (s : state) : outcome handle * state :=
  match respond w pyttsx3_init (trace s) with
  | Raises e => (Raises e, called w pyttsx3_init s)
  | Returns e =>
      let rate := engine_setProperty e "rate" (JInt 180) in
      let volume := engine_setProperty e "volume" (JFloat 1) in
      let s1 := set_engine (Some e) (called w pyttsx3_init s) in
      match respond w rate (trace s1) with
      | Raises x => (Raises x, called w rate s1)
      | Returns _ =>
          (and_return (respond w volume (trace (called w rate s1))) e,
           called w volume (called w rate s1))
      end
  end.

(** The Parler model and its two tokenizers are stored one by one, each as
    soon as the library has answered it. *)
Definition parler_load (w : world) (s : state)
    : outcome (option handle * option handle * option handle) * state :=
  let load := ParlerTTS_from_pretrained "ai4bharat/indic-parler-tts" in
  match respond w load (trace s) with
  | Raises e => (Raises e, called w load s)
  | Returns m =>
      let s1 := set_parler_model (Some m) (called w load s) in
      let s2 := called w (model_eval m) s1 in
      match respond w (model_eval m) (trace s1) with
      | Raises e => (Raises e, s2)
      | Returns _ =>
          let fetch := AutoTokenizer_from_pretrained "ai4bharat/indic-parler-tts" in
          match respond w fetch (trace s2) with
          | Raises e => (Raises e, called w fetch s2)
          | Returns t =>
              let s3 := set_tokenizer (Some t) (called w fetch s2) in
              match respond w (AutoTokenizer_of_text_encoder m) (trace s3) with
              | Raises e => (Raises e, called w (AutoTokenizer_of_text_encoder m) s3)
              | Returns d =>
                  let s4 :=
                    set_desc_tokenizer (Some d)
                      (called w (AutoTokenizer_of_text_encoder m) s3) in
                  let s5 := called w (ensure_pad_token t) s4 in
                  match respond w (ensure_pad_token t) (trace s4) with
                  | Raises e => (Raises e, s5)
                  | Returns _ =>
                      (and_return (respond w (ensure_pad_token d) (trace s5))
                         (Some m, Some t, Some d),
                       called w (ensure_pad_token d) s5)
                  end
              end
          end
      end
  end.

Ltac answers :=
  repeat match goal with
         | |- context [respond ?w ?c ?t] => destruct (respond w c t) as [?|?]; simpl
         | u : unit |- _ => destruct u
         end.

Lemma get_whisper_model_cases w s :
  ASR.get_whisper_model w s
  = match _whisper_model s with
    | Some m => (Returns m, s)
    | None => whisper_load w s
    end.
Proof.
  unfold ASR.get_whisper_model, whisper_load. run_loader.
  destruct (_whisper_model s); [done|]. by answers.
Qed.

Lemma get_indic_model_cases w s :
  ASR.get_indic_model w s
  = match _indic_model s with
    | Some m => (Returns m, s)
    | None => indic_load w s
    end.
Proof.
  unfold ASR.get_indic_model, indic_load. run_loader.
  destruct (_indic_model s); [done|]. by answers.
Qed.

Lemma get_nllb_pipeline_cases w s :
  Translation.get_nllb_pipeline w s
  = match _nllb_pipeline s with
    | Some p => (Returns p, s)
    | None => nllb_load w s
    end.
Proof.
  unfold Translation.get_nllb_pipeline, nllb_load. run_loader.
  destruct (_nllb_pipeline s); [done|]. by answers.
Qed.

Lemma get_tts_engine_cases w s :
  TTS.get_tts_engine w s
  = match _engine s with
    | Some e => (Returns e, s)
    | None => engine_load w s
    end.
Proof.
  unfold TTS.get_tts_engine, engine_load. run_loader.
  destruct (_engine s); [done|]. by answers.
Qed.

Lemma load_parler_tts_cases w s :
  TTS.load_parler_tts w s
  = match _parler_model s with
    | Some m => (Returns (Some m, _tokenizer s, _desc_tokenizer s), s)
    | None => parler_load w s
    end.
Proof.
  unfold TTS.load_parler_tts, parler_load. run_loader.
  destruct (_parler_model s) eqn:E; simpl; [by rewrite E|]. by answers.
Qed.

(** A loader that returned has set its global to what it returned. *)
Lemma get_whisper_model_sets w s h s' :
  ASR.get_whisper_model w s = (Returns h, s') → _whisper_model s' = Some h.
Proof.
  rewrite get_whisper_model_cases. unfold whisper_load.
  destruct (_whisper_model s) eqn:E; [by intros [= <- <-]|].
  answers; by intros [= <- <-].
Qed.

Lemma get_indic_model_sets w s h s' :
  ASR.get_indic_model w s = (Returns h, s') → _indic_model s' = Some h.
Proof.
  rewrite get_indic_model_cases. unfold indic_load.
  destruct (_indic_model s) eqn:E; [by intros [= <- <-]|].
  answers; by intros [= <- <-].
Qed.

Lemma get_nllb_pipeline_sets w s h s' :
  Translation.get_nllb_pipeline w s = (Returns h, s') → _nllb_pipeline s' = Some h.
Proof.
  rewrite get_nllb_pipeline_cases. unfold nllb_load.
  destruct (_nllb_pipeline s) eqn:E; [by intros [= <- <-]|].
  answers; by intros [= <- <-].
Qed.

Lemma get_tts_engine_sets w s h s' :
  TTS.get_tts_engine w s = (Returns h, s') → _engine s' = Some h.
Proof.
  rewrite get_tts_engine_cases. unfold engine_load.
  destruct (_engine s) eqn:E; [by intros [= <- <-]|].
  answers; by intros [= <- <-].
Qed.

Lemma load_parler_tts_sets w s r s' :
  TTS.load_parler_tts w s = (Returns r, s') →
  ∃ m, _parler_model s' = Some m ∧ r = (Some m, _tokenizer s', _desc_tokenizer s').
Proof.
  rewrite load_parler_tts_cases. unfold parler_load.
  destruct (_parler_model s) eqn:E; [intros [= <- <-]; eauto|].
  answers; intros [= <- <-]; eauto.
Qed.

Lemma sets_memoized field (loader : M handle) :
  cached field loader → (∀ s h s', loader s = (Returns h, s') → field s' = Some h) →
  memoized loader.
Proof. intros Hc Hs s h s' Hrun. apply Hc. by eapply Hs. Qed.

Lemma load_parler_tts_memoized w : memoized (TTS.load_parler_tts w).
Proof.
  intros s r s' Hrun. destruct (load_parler_tts_sets w s r s' Hrun) as (m & Hm & ->).
  by apply load_parler_tts_cached.
Qed.

(** The calls of [load] that [m] makes from [s]. *)
Definition loads {A} (load : call → bool) (m : M A) (s : state) : list event :=
  List.filter (λ e, match e with Lib c => load c | Phase _ => false end) (added m s).

End LoaderFacts.

(** C7 as the spec states it: after a first call, a later call in the same
    process does not load the model again. *)
Definition loaded_by_the_first_call_only (loader : Runtime.M Runtime.handle)
    (load : Runtime.call → bool) (s : Runtime.state) : Prop :=
  loads load loader (loader s).2 = [].

Definition is_pipeline (c : Runtime.call) : bool :=
  match c with Runtime.pipeline _ _ => true | _ => false end.

(** C7 fails as stated: when the download of the NLLB model fails, the
    loader raises with its global still unset ([translate_with_nllb] catches
    the exception and the process goes on), and the next call loads again. *)
Lemma failed_download_is_loaded_again :
  ¬ loaded_by_the_first_call_only (Translation.get_nllb_pipeline Examples.flaky_download)
      is_pipeline Examples.fresh.
Proof. unfold loaded_by_the_first_call_only. intros H. vm_compute in H. discriminate H. Qed.

(** In that world, two translations in a row: the first gives [None], the
    second the translation, and the model was asked for twice. *)
Example second_translation_loads_again :
  let translate :=
    Translation.translate_with_nllb Examples.flaky_download (Some "hello") None (Some "hi") in
  (translate Examples.fresh).1 = Runtime.Returns None
  ∧ (translate (translate Examples.fresh).2).1 = Runtime.Returns (Some "hello")
  ∧ length (loads is_pipeline (Runtime.bind translate (λ _, translate)) Examples.fresh) = 2%nat.
Proof. by vm_compute. Qed.

(** C7, amended: each of the five loaders goes through its global.  With
    the global set, the loader returns it and neither calls the library nor
    changes the state.  With it unset, the loader asks the library for the
    model: if that raises, the loader raises and the global stays unset, so
    the next call asks again; if it answers, the answer is stored in the
    global at once and the set-up calls follow (a set-up call that raises
    makes the loader raise with the global already set; a failed quantization
    of the NLLB model is swallowed).  A call that returns has left what it
    returned in the global, so any later call returns the same reference and
    changes nothing: after a call that returned, calling again is calling
    once, and nothing is loaded again. *)
Theorem model_loaders_are_memoized (w : Runtime.world) :
  ((∀ s, ASR.get_whisper_model w s
         = match Runtime._whisper_model s with
           | Some m => (Runtime.Returns m, s)
           | None => whisper_load w s
           end)
   ∧ (∀ s h s', ASR.get_whisper_model w s = (Runtime.Returns h, s') →
                Runtime._whisper_model s' = Some h)
   ∧ memoized (ASR.get_whisper_model w))
  ∧ ((∀ s, ASR.get_indic_model w s
           = match Runtime._indic_model s with
             | Some m => (Runtime.Returns m, s)
             | None => indic_load w s
             end)
     ∧ (∀ s h s', ASR.get_indic_model w s = (Runtime.Returns h, s') →
                  Runtime._indic_model s' = Some h)
     ∧ memoized (ASR.get_indic_model w))
  ∧ ((∀ s, Translation.get_nllb_pipeline w s
           = match Runtime._nllb_pipeline s with
             | Some p => (Runtime.Returns p, s)
             | None => nllb_load w s
             end)
     ∧ (∀ s h s', Translation.get_nllb_pipeline w s = (Runtime.Returns h, s') →
                  Runtime._nllb_pipeline s' = Some h)
     ∧ memoized (Translation.get_nllb_pipeline w))
  ∧ ((∀ s, TTS.load_parler_tts w s
           = match Runtime._parler_model s with
             | Some m =>
                 (Runtime.Returns (Some m, Runtime._tokenizer s, Runtime._desc_tokenizer s), s)
             | None => parler_load w s
             end)
     ∧ (∀ s r s', TTS.load_parler_tts w s = (Runtime.Returns r, s') →
                  ∃ m, Runtime._parler_model s' = Some m
                       ∧ r = (Some m, Runtime._tokenizer s', Runtime._desc_tokenizer s'))
     ∧ memoized (TTS.load_parler_tts w))
  ∧ ((∀ s, TTS.get_tts_engine w s
           = match Runtime._engine s with
             | Some e => (Runtime.Returns e, s)
             | None => engine_load w s
             end)
     ∧ (∀ s h s', TTS.get_tts_engine w s = (Runtime.Returns h, s') →
                  Runtime._engine s' = Some h)
     ∧ memoized (TTS.get_tts_engine w)).
Proof.
  repeat split.
  - apply get_whisper_model_cases.
  - apply get_whisper_model_sets.
  - eapply sets_memoized; [apply get_whisper_model_cached|apply get_whisper_model_sets].
  - apply get_indic_model_cases.
  - apply get_indic_model_sets.
  - eapply sets_memoized; [apply get_indic_model_cached|apply get_indic_model_sets].
  - apply get_nllb_pipeline_cases.
  - apply get_nllb_pipeline_sets.
  - eapply sets_memoized; [apply get_nllb_pipeline_cached|apply get_nllb_pipeline_sets].
  - apply load_parler_tts_cases.
  - apply load_parler_tts_sets.
  - apply load_parler_tts_memoized.
  - apply get_tts_engine_cases.
  - apply get_tts_engine_sets.
  - eapply sets_memoized; [apply get_tts_engine_cached|apply get_tts_engine_sets].
Qed.

(** ** run_pipeline.py: the order of the phases *)
Section PhaseFacts.
Import Runtime.

(** The phases a trace enters, in order. *)
Definition phases (t : list event) : list phase :=
  omap (λ e, match e with Phase p => Some p | Lib _ => None end) t.

Definition all_phases : list phase :=
  [AudioCapture; ASR; TargetLanguageSelection; Translation; TTSSynthesis].

Definition no_phase (e : event) : Prop :=
  match e with Phase _ => False | Lib _ => True end.

Lemma phases_app t1 t2 : phases (t1 ++ t2) = phases t1 ++ phases t2.
Proof. apply omap_app. Qed.

Lemma phases_silent l : Forall no_phase l → phases l = [].
Proof.
  induction 1 as [|e l He _ IH]; [done|]. unfold phases in *. simpl.
  destruct e; [exact IH|done].
Qed.

(** [m] enters a prefix of the phases in [todo], and all of them when it
    returns. *)
Definition enters {A} (todo : list phase) (m : M A) : Prop :=
  ∀ s, ∃ l, trace (m s).2 = trace s ++ l
            ∧ phases l `prefix_of` todo
            ∧ (∀ a, (m s).1 = Returns a → phases l = todo).

Lemma enters_return {A} (a : A) : enters [] (return_ a).
Proof. intros s. exists []. simpl. by rewrite app_nil_r. Qed.

Lemma enters_bind_silent {A B} w names todo (m : M A) (k : A → M B) :
  preserves w names no_phase m → (∀ a, enters todo (k a)) → enters todo (bind m k).
Proof.
  intros Hm Hk s. destruct (Hm s) as [(l1 & E1 & F1) _]. unfold bind.
  destruct (m s) as [[a|e] s1]; simpl in *.
  - destruct (Hk a s1) as (l2 & E2 & Hp & Hr). exists (l1 ++ l2).
    rewrite E2, E1, app_assoc, phases_app, (phases_silent l1 F1). done.
  - exists l1. rewrite (phases_silent l1 F1). split; [done|].
    split; [apply prefix_nil|done].
Qed.

Lemma enters_bind_mark {B} p todo (k : unit → M B) :
  enters todo (k ()) → enters (p :: todo) (bind (mark p) k).
Proof.
  intros Hk s. unfold bind, mark, modify.
  destruct (Hk (log (Phase p) s)) as (l & E & Hp & Hr).
  exists (Phase p :: l). simpl in *. rewrite E, <- app_assoc. split; [done|].
  split; [|intros a Ha; f_equal; eauto].
  change (phases (Phase p :: l)) with (p :: phases l). by apply prefix_cons.
Qed.

End PhaseFacts.

(** Proves that a file is among the files of a run. *)
Ltac named :=
  solve [ set_solver
        | unfold sounds, sound_files; rewrite ?fmap_cons, ?fmap_nil; set_solver ].

(** Proves that one step of the run enters no phase. *)
Ltac silent_step :=
  lazymatch goal with
  | |- preserves _ _ _ (Audio.play_beep _) => apply play_beep_frame
  | |- preserves _ _ _ (Audio.record_audio _ _ _ _ _) =>
      apply record_audio_frame; [named|]
  | |- preserves _ _ _ (ASR.transcribe_audio _ _) => apply transcribe_audio_frame
  | |- preserves _ _ _ (ASR.get_target_language _) =>
      apply get_target_language_frame; [named|named|]
  | |- preserves _ _ _ (Translation.translate_with_nllb _ _ _ _) =>
      apply translate_with_nllb_frame; [|done]
  | |- preserves _ _ _ (TTS.play_tts_output _ _ _ _) =>
      apply play_tts_output_frame; [named|]
  | |- preserves _ _ _ (Pipeline.append_log _ _ _) => apply append_log_frame; named
  | |- preserves _ _ _ _ => frame_step ltac:(done)
  | |- ∀ c, _ = true → _ => first [done | by intros [] ?]
  end.

Section PhaseOrder.
Import Runtime.

Lemma run_enters_all_phases w duration output_log :
  enters all_phases (Pipeline.run_voice2voice_evaluation w duration output_log).
Proof.
  unfold Pipeline.run_voice2voice_evaluation, all_phases.
  repeat first
    [ apply enters_bind_mark
    | apply enters_return
    | apply (enters_bind_silent w (resolve w output_log :: sounds w));
      [repeat silent_step|intros ?]
    | match goal with |- enters _ (let '(_, _) := ?x in _) => destruct x end ].
Qed.

End PhaseOrder.

(** C2 as the spec states it: whatever happens in a phase, the run enters
    all five phases. *)
Definition enters_every_phase (w : Runtime.world) (duration : PyNum.number)
    (output_log : string)
    (s : Runtime.state) : Prop :=
  phases (added (Pipeline.run_voice2voice_evaluation w duration output_log) s) = all_phases.

(** C2 fails as stated: with no microphone the recording raises, nothing
    catches it, and the run ends in its first phase. *)
Lemma recording_failure_ends_the_run :
  ¬ enters_every_phase Examples.no_microphone (PyNum.PyInt 2) "evaluation_log.json" Examples.fresh.
Proof. unfold enters_every_phase. intros H. vm_compute in H. discriminate H. Qed.

(** A translation that fails inside is no obstacle: [translate_with_nllb]
    returns [None], and the run goes on to the TTS phase and returns. *)
Example failed_translation_does_not_stop_the_run :
  let run := Pipeline.run_voice2voice_evaluation Examples.nllb_fails (PyNum.PyInt 2) "evaluation_log.json" in
  (∃ entry, (run Examples.fresh).1 = Runtime.Returns entry)
  ∧ phases (added run Examples.fresh) = all_phases.
Proof. split; [eexists|]; vm_compute; reflexivity. Qed.

(** ** run_pipeline.py: the phases and the functions that carry them out *)
Section Stages.
Import Runtime.

(** What a run does around its phases: it calls the clock and the process
    statistics, plays a beep, and marks the phase it enters. *)
Inductive step : Type :=
| Call (c : call)
| Enter (p : phase).

(** The steps in turn, up to the first call that raises; what the calls
    answer goes into the timings and changes nothing else. *)
Fixpoint bookkeeping (w : world) (l : list step) (s : state) : outcome unit * state :=
  match l with
  | [] => (Returns (), s)
  | Enter p :: l => bookkeeping w l (log (Phase p) s)
  | Call c :: l =>
      match respond w c (trace s) with
      | Returns _ => bookkeeping w l (called w c s)
      | Raises e => (Raises e, called w c s)
      end
  end.

Definition beep : call := sd_play (Beep 0.07 1000 44100).

(** The run, phase by phase: each phase's function is called once, in the
    state the steps before it left and with what the earlier phases returned;
    when a step or a phase's function raises, the run raises the same from the
    same state, so nothing of the later phases happens; after the last phase
    only the clock and the process statistics are consulted. *)
Definition in_stages (w : world) (duration : PyNum.number) (output_log : string)
    (s : state) : Prop :=
  let run := Pipeline.run_voice2voice_evaluation w duration output_log s in
  match bookkeeping w [Call perf_counter; Call cpu_times; Call memory_info_rss;
                       Enter AudioCapture; Call beep; Call perf_counter] s with
  | (Raises e, s0) => run = (Raises e, s0)
  | (Returns _, s0) =>
  match Audio.record_audio w duration 16000 "input.wav" false s0 with
  | (Raises e, s1) => run = (Raises e, s1)
  | (Returns audio_path, s1) =>
  match bookkeeping w [Call perf_counter; Call memory_info_rss; Enter ASR;
                       Call perf_counter] s1 with
  | (Raises e, s1) => run = (Raises e, s1)
  | (Returns _, s1) =>
  match ASR.transcribe_audio w audio_path s1 with
  | (Raises e, s2) => run = (Raises e, s2)
  | (Returns transcription, s2) =>
  match bookkeeping w [Call perf_counter; Call memory_info_rss;
                       Enter TargetLanguageSelection; Call beep; Call perf_counter] s2 with
  | (Raises e, s2) => run = (Raises e, s2)
  | (Returns _, s2) =>
  match ASR.get_target_language w s2 with
  | (Raises e, s3) => run = (Raises e, s3)
  | (Returns (tgt_lang_code, _), s3) =>
  match bookkeeping w [Call perf_counter; Call memory_info_rss; Enter Translation;
                       Call perf_counter] s3 with
  | (Raises e, s3) => run = (Raises e, s3)
  | (Returns _, s3) =>
  match Translation.translate_with_nllb w (Some transcription) None tgt_lang_code s3 with
  | (Raises e, s4) => run = (Raises e, s4)
  | (Returns translated_text, s4) =>
  match bookkeeping w [Call perf_counter; Call memory_info_rss; Enter TTSSynthesis;
                       Call perf_counter] s4 with
  | (Raises e, s4) => run = (Raises e, s4)
  | (Returns _, s4) =>
  let lang_type :=
    if Dict.contains Language.INDIAN_LANG_MAP tgt_lang_code
    then "indian" else "international" in
  match TTS.play_tts_output w translated_text lang_type tgt_lang_code s4 with
  | (Raises e, s5) => run = (Raises e, s5)
  | (Returns _, s5) =>
      ∃ l, trace run.2 = trace s5 ++ l
           ∧ Forall (λ e, match e with
                          | Lib c => calls_metrics c = true
                          | Phase _ => False
                          end) l
  end end end end end end end end end end.

Lemma bind_lib {B} w c (k : ret c → M B) s :
  bind (lib w c) k s
  = match respond w c (trace s) with
    | Returns a => k a (called w c s)
    | Raises e => (Raises e, called w c s)
    end.
Proof. unfold bind, lib. by destruct (respond w c (trace s)). Qed.

Lemma bind_mark {B} p (k : unit → M B) s : bind (mark p) k s = k () (log (Phase p) s).
Proof. done. Qed.

Lemma bind_beep {B} w (k : unit → M B) s :
  bind (Audio.play_beep w) k s
  = match respond w beep (trace s) with
    | Returns a => k a (called w beep s)
    | Raises e => (Raises e, called w beep s)
    end.
Proof. apply (bind_lib w beep). Qed.

Lemma bind_run {A B} (m : M A) (k : A → M B) s :
  bind m k s
  = match m s with
    | (Returns a, s1) => k a s1
    | (Raises e, s1) => (Raises e, s1)
    end.
Proof. done. Qed.

Ltac book :=
  first
    [ rewrite bind_mark
    | first [rewrite bind_lib | rewrite bind_beep];
      match goal with
      | |- context [respond ?w ?c ?t] => destruct (respond w c t) as [?|?]; [|done]
      end ].

Ltac phase_function :=
  rewrite bind_run;
  match goal with
  | |- context [Audio.record_audio ?w ?d ?fs ?f ?p ?s] =>
      destruct (Audio.record_audio w d fs f p s) as [[?|?] ?]; [|done]
  | |- context [ASR.transcribe_audio ?w ?p ?s] =>
      destruct (ASR.transcribe_audio w p s) as [[?|?] ?]; [|done]
  | |- context [ASR.get_target_language ?w ?s] =>
      destruct (ASR.get_target_language w s) as [[[? ?]|?] ?]; [|done]
  | |- context [Translation.translate_with_nllb ?w ?t ?a ?b ?s] =>
      destruct (Translation.translate_with_nllb w t a b s) as [[?|?] ?]; [|done]
  | |- context [TTS.play_tts_output ?w ?t ?a ?b ?s] =>
      destruct (TTS.play_tts_output w t a b s) as [[?|?] ?]; [|done]
  end.

Lemma run_in_stages w duration output_log s : in_stages w duration output_log s.
Proof.
  unfold in_stages, Pipeline.run_voice2voice_evaluation. cbn [bookkeeping].
  repeat book. phase_function.
  repeat book. phase_function.
  repeat book. phase_function.
  repeat book. phase_function.
  repeat book. phase_function.
  eexists. eapply (preserves_added w [resolve w output_log]).
  repeat first
    [ apply append_log_frame; set_solver
    | frame_step ltac:(done) ].
Qed.
End Stages.

(** C2, amended: a run carries out its phases in the order recording, ASR,
    target selection, translation, TTS.  Each phase's function
    ([record_audio], [transcribe_audio], [get_target_language],
    [translate_with_nllb], [play_tts_output]) is called once, from the state
    the steps before it left and with what the earlier phases returned; when
    it raises, the run raises the same exception from the state the phase
    left, so no later phase is carried out; after the TTS phase the run only
    reads the clock and the process statistics.  Hence the phases a run
    enters are always an initial part of the five, in order and once each, and
    a run that returns has entered all five, whatever the earlier phases
    returned. *)
Theorem run_enters_phases_in_order w duration output_log s :
  let run := Pipeline.run_voice2voice_evaluation w duration output_log in
  in_stages w duration output_log s
  ∧ phases (added run s) `prefix_of` all_phases
  ∧ (∀ entry, (run s).1 = Runtime.Returns entry → phases (added run s) = all_phases).
Proof.
  intros run. split; [apply run_in_stages|].
  destruct (run_enters_all_phases w duration output_log s) as (l & E & Hp & Hr).
  fold run in E, Hr. unfold added. rewrite E, drop_app_length. split; [done|].
  intros entry He. by eapply Hr.
Qed.

(** ** run_pipeline.py: the evaluation log *)
Section LogFacts.
Import Runtime.
Variable w : world.








End LogFacts.





(** With the same log writable, the run appends its entry to the list. *)
Example writable_log_grows :
  let run := Pipeline.run_voice2voice_evaluation Examples.all_is_well (PyNum.PyInt 2)
               "evaluation_log.json" (Examples.with_log true) in
  ∃ entry, run.1 = Runtime.Returns entry
           ∧ Runtime.files run.2 !! "evaluation_log.json"
             = Some (Runtime.File (Runtime.Json (Runtime.JArray [Runtime.JNull; entry])) true).
Proof. eexists. split; vm_compute; reflexivity. Qed.

(** A write that fails half-way: the run still returns its entry, and the
    log, truncated when it was opened, holds neither the old list nor the
    new one. *)
Example failed_write_tears_the_log :
  let run := Pipeline.run_voice2voice_evaluation Examples.disk_fills_up (PyNum.PyInt 2)
               "evaluation_log.json" (Examples.with_log true) in
  (∃ entry, run.1 = Runtime.Returns entry)
  ∧ Runtime.files run.2 !! "evaluation_log.json"
    = Some (Runtime.File Runtime.Malformed true).
Proof. split; [eexists|]; vm_compute; reflexivity. Qed.



(** The Whisper loader on a fresh process: the first call loads model 1, the
    second returns it from the global. *)
Lemma model_loaders_witness :
  ASR.get_whisper_model Examples.all_is_well
    (ASR.get_whisper_model Examples.all_is_well Examples.fresh).2
  = (Runtime.Returns 1%nat, (ASR.get_whisper_model Examples.all_is_well Examples.fresh).2).
Proof.
  destruct (model_loaders_are_memoized Examples.all_is_well) as [[_ [_ H]] _].
  apply (H Examples.fresh). reflexivity.
Defined.

(** ** models/asr.py: attempts at hearing the target language *)
Section AttemptFacts.
Import Runtime.

(** How many events of a trace a 0/1 test counts. *)
Definition count (f : event → bool) (l : list event) : nat :=
  length (List.filter f l).

Definition is_recording (e : event) : bool :=
  match e with Lib (sd_rec _ _) => true | _ => false end.

Definition is_typed_input (e : event) : bool :=
  match e with Lib (input _) => true | _ => false end.

Lemma count_app f l1 l2 : count f (l1 ++ l2) = (count f l1 + count f l2)%nat.
Proof. unfold count. by rewrite List.filter_app, length_app. Qed.

Lemma count_none f l : Forall (λ e, f e = false) l → count f l = 0%nat.
Proof.
  unfold count. induction 1 as [|e l He _ IH]; [done|]. simpl. by rewrite He.
Qed.

(** [m] adds at most [n] events that [f] counts. *)
Definition costs {A} (f : event → bool) (n : nat) (m : M A) : Prop :=
  ∀ s, ∃ l, trace (m s).2 = trace s ++ l ∧ (count f l ≤ n)%nat.

Lemma costs_free {A} w names f n (m : M A) :
  preserves w names (λ e, f e = false) m → costs f n m.
Proof.
  intros H s. destruct (H s) as [(l & E & F) _]. exists l. split; [done|].
  rewrite (count_none f l F). lia.
Qed.

Lemma costs_bind {A B} f n1 n2 (m : M A) (k : A → M B) :
  costs f n1 m → (∀ a, costs f n2 (k a)) → costs f (n1 + n2) (bind m k).
Proof.
  intros Hm Hk s. destruct (Hm s) as (l1 & E1 & C1). unfold bind.
  destruct (m s) as [[a|e] s1]; simpl in *.
  - destruct (Hk a s1) as (l2 & E2 & C2). exists (l1 ++ l2).
    rewrite E2, E1, app_assoc, count_app. split; [done|lia].
  - exists l1. split; [done|lia].
Qed.

Lemma costs_weaken {A} f n n' (m : M A) : (n ≤ n')%nat → costs f n m → costs f n' m.
Proof. intros Hn H s. destruct (H s) as (l & E & C). exists l. split; [done|lia]. Qed.

Lemma costs_added {A} f n (m : M A) s : costs f n m → (count f (added m s) ≤ n)%nat.
Proof. intros H. destruct (H s) as (l & E & C). unfold added. by rewrite E, drop_app_length. Qed.

Section WithWorld.
Variable w : world.

Lemma record_audio_records_once duration fs filename playback :
  costs is_recording 1 (Audio.record_audio w duration fs filename playback).
Proof.
  unfold Audio.record_audio.
  apply (costs_bind _ 0 1); [apply (costs_free w []), preserves_lift|intros frames].
  apply (costs_bind _ 1 0).
  - intros s. exists [Lib (sd_rec frames fs)]. by split.
  - intros data. apply (costs_free w [resolve w filename]).
    frames ltac:(first [done|set_solver]).
Qed.

Lemma voice_attempts_record_at_most model attempt remaining :
  costs is_recording remaining (ASR.voice_attempts w model attempt remaining).
Proof.
  revert attempt. induction remaining as [|n IH]; intros attempt; simpl.
  - apply (costs_free w []). apply preserves_return.
  - apply (costs_bind _ 1 n); [apply record_audio_records_once|intros path].
    apply (costs_bind _ 0 n); [apply (costs_free w []); apply preserves_load_audio|intros a].
    apply (costs_bind _ 0 n); [apply (costs_free w []); frames ltac:(done)|intros text].
    destruct (Language.get_language_code _) as [code name].
    destruct (PyStr.truthy code); [|apply IH].
    apply (costs_free w []). apply preserves_return.
Qed.

Lemma get_target_language_records_at_most_twice :
  costs is_recording 2 (ASR.get_target_language w).
Proof.
  unfold ASR.get_target_language, ASR.detect_target_language_by_voice,
    ASR.detect_target_language_manually.
  apply (costs_bind _ 2 0).
  - apply (costs_bind _ 0 2); [|intros model; apply voice_attempts_record_at_most].
    apply (costs_free w []). apply get_whisper_model_frame. by intros [] [? ?].
  - intros [code name]. apply (costs_free w []). frames ltac:(done).
Qed.

Lemma get_target_language_asks_at_most_once :
  costs is_typed_input 1 (ASR.get_target_language w).
Proof.
  unfold ASR.get_target_language, ASR.detect_target_language_manually.
  apply (costs_bind _ 0 1).
  - apply (costs_free w [resolve w "target_attempt_1.wav"; resolve w "target_attempt_2.wav"]).
    unfold ASR.detect_target_language_by_voice.
    apply preserves_bind; [apply get_whisper_model_frame; by intros [] [? ?]|intros model].
    apply voice_attempts_frame; [|by intros [] ?].
    intros [|[|k]] Hk; [set_solver|set_solver|lia].
  - intros [code name]. apply (costs_bind _ 1 0).
    + destruct (negb _).
      * apply (costs_bind _ 1 0).
        { intros s. exists [Lib (input "Your input: ")]. by split. }
        intros line. apply (costs_free w []). frames ltac:(done).
      * apply (costs_free w []). apply preserves_return.
    + intros [c n]. apply (costs_free w []). apply preserves_return.
Qed.

(** One turn of the loop in [detect_target_language_by_voice]: record,
    decode, match; stop on a match, go round again on none, and let any
    exception out. *)
Lemma voice_attempts_turn model attempt remaining s :
  ASR.voice_attempts w model attempt (S remaining) s
  = match Audio.record_audio w (PyNum.PyFloat 1.75) 16000
            ("target_attempt_" +:+ pretty (attempt + 1)%nat +:+ ".wav") false s with
    | (Returns file_path, s1) =>
        match load_audio w file_path s1 with
        | (Returns a, s2) =>
            let s3 := called w (whisper_decode model a) s2 in
            match respond w (whisper_decode model a) (trace s2) with
            | Returns text =>
                let found := Language.get_language_code (PyStr.strip text) in
                if PyStr.truthy found.1 then (Returns found, s3)
                else ASR.voice_attempts w model (S attempt) remaining s3
            | Raises e => (Raises e, s3)
            end
        | (Raises e, s2) => (Raises e, s2)
        end
    | (Raises e, s1) => (Raises e, s1)
    end.
Proof.
  simpl. unfold bind at 1.
  destruct (Audio.record_audio w _ _ _ _ s) as [[file_path|e] s1]; [|done].
  unfold bind at 1. destruct (load_audio w file_path s1) as [[a|e] s2]; [|done].
  unfold bind, lib. destruct (respond w _ (trace s2)) as [text|e]; [|done].
  destruct (Language.get_language_code _) as [code name]. simpl.
  by destruct (PyStr.truthy code).
Qed.

End WithWorld.
End AttemptFacts.

(** C3 as the spec states it, in target-language selection: nothing is tried
    a second time, so at most one spoken attempt is recorded. *)
Definition never_tries_again (w : Runtime.world) (s : Runtime.state) : Prop :=
  (count is_recording (added (ASR.get_target_language w) s) ≤ 1)%nat.

(** C3 fails as stated: the first attempt is heard as "xyz", which matches no
    supported language, and the loop records and decodes once more. *)
Lemma unmatched_attempt_is_retried :
  Language.get_language_code (PyStr.strip "xyz") = (None, None)
  ∧ ¬ never_tries_again Examples.mumbles_once Examples.fresh.
Proof.
  split; [vm_compute; reflexivity|].
  unfold never_tries_again. intros H. vm_compute in H. lia.
Qed.

(** ** No call is repeated after it raised *)
Section NoRetry.
Import Runtime.
Variable w : world.

(** Which library function a call is to. *)
Definition kind (c : call) : nat :=
  match c with
  | sd_rec _ _ => 0 | sd_play _ => 1 | whisper_load_model _ => 2 | model_eval _ => 3
  | whisper_detect_language _ _ => 4 | whisper_decode _ _ => 5
  | AutoModel_from_pretrained _ => 6 | indic_model_call _ _ _ _ => 7 | input _ => 8
  | pipeline _ _ => 9 | set_quantized_engine _ => 10 | quantize_dynamic _ => 11
  | nllb_call _ _ _ _ _ => 12 | ParlerTTS_from_pretrained _ => 13
  | AutoTokenizer_from_pretrained _ => 14 | AutoTokenizer_of_text_encoder _ => 15
  | ensure_pad_token _ => 16 | parler_generate _ _ _ _ _ => 17 | pyttsx3_init => 18
  | engine_setProperty _ _ _ => 19 | engine_say _ _ => 20 | engine_runAndWait _ => 21
  | perf_counter => 22 | cpu_times => 23 | memory_info_rss => 24 | cpu_count => 25
  | utcnow_isoformat => 26
  end.

Definition among (F : list nat) (c : call) : bool := existsb (Nat.eqb (kind c)) F.

(** The world answered [c], made after [history], with an exception. *)
Definition raised (history : list event) (c : call) : Prop :=
  ∃ e, respond w c history = Raises e.

(** In the events [l] that follow [history], a call that raised is never
    followed by a call to the same library function. *)
Definition no_retry (history l : list event) : Prop :=
  ∀ i j c c', (i < j)%nat → l !! i = Some (Lib c) → l !! j = Some (Lib c') →
              raised (history ++ take i l) c → kind c ≠ kind c'.

Definition avoids (F : list nat) (e : event) : Prop :=
  match e with Lib c => among F c = false | Phase _ => True end.

Definition within (K : list nat) (e : event) : Prop :=
  match e with Lib c => among K c = true | Phase _ => True end.

(** [m] repeats no call that raised, and the calls of [m] that raised are to
    functions in [F], but for the last call of an [m] that raises. *)
Definition careful {A} (F : list nat) (m : M A) : Prop :=
  ∀ s, ∃ l, trace (m s).2 = trace s ++ l
            ∧ no_retry (trace s) l
            ∧ ∀ i c, l !! i = Some (Lib c) → raised (trace s ++ take i l) c →
                     among F c = true ∨ (S i = length l ∧ ∃ e, (m s).1 = Raises e).

Lemma among_differ F c c' : among F c = true → among F c' = false → kind c ≠ kind c'.
Proof. unfold among. intros H H' E. rewrite E in H. congruence. Qed.

Lemma among_app F1 F2 c : among (F1 ++ F2) c = among F1 c || among F2 c.
Proof. apply existsb_app. Qed.

Lemma careful_bind {A B} F1 F2 (m : M A) (k : A → M B) :
  careful F1 m → (∀ a, careful F2 (k a)) →
  (∀ a s, Forall (avoids F1) (added (k a) s)) →
  careful (F1 ++ F2) (bind m k).
Proof.
  intros Hm Hk Hav s. destruct (Hm s) as (l1 & E1 & N1 & Fl1). unfold bind.
  destruct (m s) as [[a|e] s1]; simpl in *.
  - destruct (Hk a s1) as (l2 & E2 & N2 & Fl2).
    specialize (Hav a s1). unfold added in Hav. rewrite E2, drop_app_length in Hav.
    exists (l1 ++ l2). split; [by rewrite E2, E1, app_assoc|]. split.
    + intros i j c c' Hij Hi Hj Hr.
      destruct (decide (i < length l1)%nat) as [Hlt|Hge].
      * rewrite lookup_app_l in Hi by done. rewrite take_app_le in Hr by lia.
        destruct (Fl1 i c Hi Hr) as [HF|[_ [e He]]]; [|done].
        destruct (decide (j < length l1)%nat) as [Hjl|Hjg].
        { rewrite lookup_app_l in Hj by done. eapply (N1 i j); eauto. }
        rewrite lookup_app_r in Hj by lia.
        eapply Forall_lookup_1 in Hav; [|exact Hj]. by eapply among_differ.
      * rewrite lookup_app_r in Hi, Hj by lia. rewrite take_app_ge in Hr by lia.
        rewrite app_assoc, <- E1 in Hr.
        eapply (N2 (i - length l1)%nat (j - length l1)%nat); eauto. lia.
    + intros i c Hi Hr. rewrite among_app.
      destruct (decide (i < length l1)%nat) as [Hlt|Hge].
      * rewrite lookup_app_l in Hi by done. rewrite take_app_le in Hr by lia.
        destruct (Fl1 i c Hi Hr) as [->|[_ [e He]]]; [by left|done].
      * rewrite lookup_app_r in Hi by lia. rewrite take_app_ge in Hr by lia.
        rewrite app_assoc, <- E1 in Hr.
        destruct (Fl2 _ c Hi Hr) as [->|[Hlast He]].
        { left. by rewrite orb_true_r. }
        right. split; [|done]. rewrite length_app. lia.
  - exists l1. split; [done|]. split; [done|].
    intros i c Hi Hr. rewrite among_app.
    destruct (Fl1 i c Hi Hr) as [->|[Hlast _]]; [by left|right; eauto].
Qed.

Lemma avoids_nothing l : Forall (avoids []) l.
Proof. apply Forall_forall. by intros [c|p] _. Qed.

(** The usual step: nothing raised and was caught in [m]. *)
Lemma careful_then {A B} F (m : M A) (k : A → M B) :
  careful [] m → (∀ a, careful F (k a)) → careful F (bind m k).
Proof. intros Hm Hk. apply (careful_bind [] F); [done|done|]. intros. apply avoids_nothing. Qed.

Lemma careful_weaken {A} F F' (m : M A) :
  (∀ c, among F c = true → among F' c = true) → careful F m → careful F' m.
Proof.
  intros HF H s. destruct (H s) as (l & E & N & Fl). exists l. split; [done|]. split; [done|].
  intros i c Hi Hr. destruct (Fl i c Hi Hr); auto.
Qed.

Lemma careful_silent {A} names (m : M A) : preserves w names (λ _, False) m → careful [] m.
Proof.
  intros H s. destruct (H s) as [(l & E & Fa) _]. destruct l as [|e l].
  - exists []. split; [done|].
    split; [intros i j c c' ? Hi|intros i c Hi]; by rewrite lookup_nil in Hi.
  - by apply Forall_cons in Fa as [? _].
Qed.

Lemma careful_lib c : careful [] (lib w c).
Proof.
  intros s. exists [Lib c]. split; [done|]. split.
  - intros [|i] [|j] c1 c2 Hij Hi Hj; try lia; by rewrite ?lookup_nil in *.
  - intros [|i] c' Hi [e He]; simplify_eq/=. rewrite app_nil_r in He.
    right. rewrite He. eauto.
Qed.

Lemma careful_mark p : careful [] (mark p).
Proof.
  intros s. exists [Phase p]. split; [done|].
  split; [intros [|i] [|j] c1 c2 Hij Hi Hj|intros [|i] c' Hi]; by simplify_eq/=.
Qed.

(** A handler that makes no call: whatever raised inside [m] was one of the
    calls [m] makes. *)
Lemma careful_try {A} F K (m : M A) caught h :
  careful F m → (∀ s, Forall (within K) (added m s)) →
  (∀ e s, trace (h e s).2 = trace s) →
  careful K (try_except m caught h).
Proof.
  intros Hm HK Hh s. destruct (Hm s) as (l & E & N & Fl).
  specialize (HK s). unfold added in HK. rewrite E, drop_app_length in HK.
  exists l. split.
  - unfold try_except. destruct (m s) as [[a|e] s1]; simpl in *; [done|].
    destruct (caught e); [|done]. by rewrite Hh.
  - split; [done|]. intros i c Hi _. left.
    by eapply Forall_lookup_1 in HK; [|exact Hi].
Qed.

End NoRetry.

(** Splits a computation that catches nothing along its binds and branches. *)
Ltac careful_step w :=
  lazymatch goal with
  | |- careful _ _ (Runtime.bind _ _) => apply careful_then; [|intros ?]
  | |- careful _ _ (Runtime.lib _ ?c) => apply (careful_lib w c)
  | |- careful _ _ (Runtime.mark _) => apply careful_mark
  | |- careful _ _ (match ?x with _ => _ end) => destruct x
  | |- careful _ _ (let '(_, _) := ?x in _) => destruct x
  | |- careful _ _ _ =>
      first [ solve [apply (careful_silent w []); frames ltac:(fail)]
            | solve [eapply (careful_silent w [_]); frames ltac:(by left)] ]
  end.

Section NoRetryFunctions.
Import Runtime.
Variable w : world.

Lemma record_audio_careful duration fs filename playback :
  careful w [] (Audio.record_audio w duration fs filename playback).
Proof. unfold Audio.record_audio. repeat careful_step w. Qed.

Lemma get_whisper_model_careful : careful w [] (ASR.get_whisper_model w).
Proof. unfold ASR.get_whisper_model. repeat careful_step w. Qed.

Lemma transcribe_audio_careful audio_path : careful w [] (ASR.transcribe_audio w audio_path).
Proof.
  unfold ASR.transcribe_audio. apply careful_then; [apply get_whisper_model_careful|intros model].
  unfold ASR.detect_input_language_whisper, ASR.indic_transcribe, ASR.whisper_transcribe,
    ASR.get_indic_model.
  repeat careful_step w.
Qed.

Lemma voice_attempts_careful model attempt remaining :
  careful w [] (ASR.voice_attempts w model attempt remaining).
Proof.
  revert attempt. induction remaining as [|n IH]; intros attempt; simpl.
  - repeat careful_step w.
  - apply careful_then; [apply record_audio_careful|intros path].
    apply careful_then; [repeat careful_step w|intros a].
    apply careful_then; [repeat careful_step w|intros text].
    destruct (Language.get_language_code _) as [code name].
    destruct (PyStr.truthy code); [repeat careful_step w|apply IH].
Qed.

Lemma get_target_language_careful : careful w [] (ASR.get_target_language w).
Proof.
  unfold ASR.get_target_language, ASR.detect_target_language_by_voice,
    ASR.detect_target_language_manually.
  apply careful_then.
  - apply careful_then; [apply get_whisper_model_careful|intros; apply voice_attempts_careful].
  - intros [code name]. repeat careful_step w.
Qed.

End NoRetryFunctions.

Section NoRetryCatching.
Import Runtime.
Variable w : world.

(** The library functions behind each handler. *)
Definition kinds_play_wav : list nat := [1].
Definition kinds_quantize : list nat := [11].
Definition kinds_translation : list nat := [9; 10; 11; 12].
Definition kinds_tts : list nat := [13; 3; 14; 15; 16; 17; 1; 18; 19; 20; 21].

Lemma careful_from_nothing {A} F (m : M A) : careful w [] m → careful w F m.
Proof. apply careful_weaken. by intros c. Qed.

Lemma play_wav_careful filename : careful w kinds_play_wav (Audio.play_wav w filename).
Proof.
  unfold Audio.play_wav. apply (careful_try w []).
  - repeat careful_step w.
  - intros s. eapply (preserves_added w []). frames ltac:(done).
  - done.
Qed.

Lemma get_nllb_pipeline_careful : careful w kinds_quantize (Translation.get_nllb_pipeline w).
Proof.
  unfold Translation.get_nllb_pipeline.
  apply careful_then; [repeat careful_step w|intros [p|]].
  { apply careful_from_nothing. repeat careful_step w. }
  apply careful_then; [repeat careful_step w|intros p].
  apply careful_then; [repeat careful_step w|intros _].
  apply (careful_bind w kinds_quantize []).
  - simpl. apply careful_then; [repeat careful_step w|intros _].
    apply (careful_try w []); [repeat careful_step w| |done].
    intros s. eapply (preserves_added w []). frames ltac:(done).
  - intros _. repeat careful_step w.
  - intros _ s. eapply (preserves_added w []). frames ltac:(done).
Qed.

Lemma translate_with_nllb_careful text src_lang_code tgt_lang_code :
  careful w kinds_translation
    (Translation.translate_with_nllb w text src_lang_code tgt_lang_code).
Proof.
  unfold Translation.translate_with_nllb.
  destruct text as [t|]; [|apply careful_from_nothing; repeat careful_step w].
  destruct (Translation.blank (Some t)); [apply careful_from_nothing; repeat careful_step w|].
  apply (careful_try w (kinds_quantize ++ [])); [| |done].
  - apply careful_bind; [apply get_nllb_pipeline_careful|intros nllb|intros nllb s].
    + repeat careful_step w.
    + eapply (preserves_added w []). frames ltac:(done).
  - intros s. eapply (preserves_added w []).
    apply preserves_bind; [apply get_nllb_pipeline_frame; by intros [] ?|intros nllb].
    frames ltac:(done).
Qed.

Lemma load_parler_tts_careful : careful w [] (TTS.load_parler_tts w).
Proof. unfold TTS.load_parler_tts. repeat careful_step w. Qed.

Lemma generate_speech_careful prompt description output_file :
  careful w kinds_tts (TTS.generate_speech w prompt description output_file).
Proof.
  unfold TTS.generate_speech.
  destruct prompt as [p|]; [|apply careful_from_nothing; repeat careful_step w].
  destruct (Translation.blank (Some p)); [apply careful_from_nothing; repeat careful_step w|].
  apply (careful_try w kinds_play_wav); [| |done].
  - apply careful_then; [apply load_parler_tts_careful|intros [[[m|] [t|]] [d|]]];
      try solve [apply careful_from_nothing; repeat careful_step w].
    apply careful_then; [repeat careful_step w|intros [audio sampling_rate]].
    cbv zeta. destruct (TTS.invalid_waveform (squeeze audio));
      [apply careful_from_nothing; repeat careful_step w|].
    apply careful_then; [|intros _; apply play_wav_careful].
    apply (careful_silent w [resolve w output_file]), preserves_sf_write. by left.
  - intros s. eapply (preserves_added w [resolve w output_file]).
    unfold TTS.load_parler_tts, Audio.play_wav. frames ltac:(first [done|by left]).
Qed.

Lemma play_tts_output_careful text lang_type tgt_lang_code :
  careful w kinds_tts (TTS.play_tts_output w text lang_type tgt_lang_code).
Proof.
  unfold TTS.play_tts_output.
  destruct text as [t|]; [|apply careful_from_nothing; repeat careful_step w].
  destruct (Translation.blank (Some t)); [apply careful_from_nothing; repeat careful_step w|].
  destruct (Strings.String.eqb lang_type "indian"); [apply generate_speech_careful|].
  apply careful_from_nothing. unfold TTS.get_tts_engine. repeat careful_step w.
Qed.

Lemma append_log_careful output_log entry :
  careful w [] (Pipeline.append_log w output_log entry).
Proof. apply (careful_silent w [resolve w output_log]). apply append_log_frame. by left. Qed.

Ltac clean_step :=
  first [ apply record_audio_careful | apply transcribe_audio_careful
        | apply get_target_language_careful | apply append_log_careful
        | solve [unfold Audio.play_beep; repeat careful_step w] ].

Ltac rest_avoids output_log :=
  let s := fresh "s" in
  intros ? s; eapply (preserves_added w (resolve w output_log :: sounds w));
  repeat silent_step.

Lemma run_careful duration output_log :
  careful w (kinds_translation ++ kinds_tts ++ [])
    (Pipeline.run_voice2voice_evaluation w duration output_log).
Proof.
  unfold Pipeline.run_voice2voice_evaluation.
  repeat first
    [ apply careful_then; [clean_step|intros ?]
    | match goal with |- careful _ _ (let '(_, _) := ?x in _) => destruct x end ].
  apply careful_bind; [apply translate_with_nllb_careful|intros ?|rest_avoids output_log].
  repeat (apply careful_then; [clean_step|intros ?]).
  apply careful_bind; [apply play_tts_output_careful|intros ?|rest_avoids output_log].
  repeat (apply careful_then; [clean_step|intros ?]).
  repeat careful_step w.
Qed.

End NoRetryCatching.

(** When the NLLB call raises, the run makes it once and goes on. *)
Example failed_translation_is_not_repeated :
  count (λ e, match e with
              | Runtime.Lib (Runtime.nllb_call _ _ _ _ _) => true
              | _ => false
              end)
        (added (Pipeline.run_voice2voice_evaluation Examples.nllb_fails (PyNum.PyInt 2) "evaluation_log.json")
               Examples.fresh)
  = 1%nat.
Proof. vm_compute. reflexivity. Qed.

(** C3, amended: in a run, a call that raised is never followed by another
    call to the same library function: errors are not retried.  Target
    selection, though, does try again after an attempt that matched nothing:
    [get_target_language] records at most two spoken attempts and asks for
    typed input at most once, and each turn of the voice loop records,
    decodes and matches, returns on a match, goes round again on none, and
    lets any exception out. *)
Theorem errors_are_not_retried_unmatched_attempts_are :
  (∀ w duration output_log s,
     no_retry w (Runtime.trace s)
       (added (Pipeline.run_voice2voice_evaluation w duration output_log) s))
  ∧ (∀ w s,
       (count is_recording (added (ASR.get_target_language w) s) ≤ 2)%nat
       ∧ (count is_typed_input (added (ASR.get_target_language w) s) ≤ 1)%nat)
  ∧ (∀ w model attempt remaining s,
       ASR.voice_attempts w model attempt (S remaining) s
       = match Audio.record_audio w (PyNum.PyFloat 1.75) 16000
                 ("target_attempt_" +:+ pretty (attempt + 1)%nat +:+ ".wav") false s with
         | (Runtime.Returns file_path, s1) =>
             match Runtime.load_audio w file_path s1 with
             | (Runtime.Returns a, s2) =>
                 let s3 := Runtime.called w (Runtime.whisper_decode model a) s2 in
                 match Runtime.respond w (Runtime.whisper_decode model a) (Runtime.trace s2) with
                 | Runtime.Returns text =>
                     let found := Language.get_language_code (PyStr.strip text) in
                     if PyStr.truthy found.1 then (Runtime.Returns found, s3)
                     else ASR.voice_attempts w model (S attempt) remaining s3
                 | Runtime.Raises e => (Runtime.Raises e, s3)
                 end
             | (Runtime.Raises e, s2) => (Runtime.Raises e, s2)
             end
         | (Runtime.Raises e, s1) => (Runtime.Raises e, s1)
         end).
Proof.
  split; [|split].
  - intros w duration output_log s.
    destruct (run_careful w duration output_log s) as (l & E & N & _).
    unfold added. by rewrite E, drop_app_length.
  - intros w s. split; apply costs_added.
    + apply get_target_language_records_at_most_twice.
    + apply get_target_language_asks_at_most_once.
  - apply voice_attempts_turn.
Qed.

(* ===================================================================== *)
(** * Further properties: the helpers around the pipeline *)
(* ===================================================================== *)

(** ** utils/language.py: what the normalisation and the matching ignore *)
Section NormalizeFacts.
Import Difflib Language.

Lemma omap_nothing {A B} (f : A → option B) l : (∀ x, x ∈ l → f x = None) → omap f l = [].
Proof.
  induction l as [|x l IH]; intros H; simpl; [done|].
  rewrite (H x) by (by left). apply IH. intros y Hy. apply H. by right.
Qed.

Lemma get_close_matches_none word possibilities n cutoff :
  (∀ x, x ∈ possibilities → (ratio (chars x) (chars word) < cutoff)%Q) →
  get_close_matches word possibilities n cutoff = [].
Proof.
  intros H. unfold get_close_matches. rewrite omap_nothing; [by destruct n|].
  intros x Hx. rewrite close_enough_ratio.
  destruct (Qle_bool _ _) eqn:E; [|done].
  apply Qle_bool_iff in E. apply H in Hx. exfalso. by eapply Qlt_not_le.
Qed.

(** No code of SUPPORTED_LANGUAGES is the empty string: [if code:] tests
    whether a name was matched. *)
Lemma supported_codes_truthy name code :
  Dict.get SUPPORTED_LANGUAGES name = Some code → PyStr.truthy (Some code) = true.
Proof.
  intros H. apply dict_get_value in H. unfold Dict.values in H. simpl in H.
  repeat (apply elem_of_cons in H as [->|H]; [done|]). by apply elem_of_nil in H.
Qed.

Lemma get_language_code_falsy typed_input :
  PyStr.truthy (get_language_code typed_input).1 = false →
  ∀ x, x ∈ Dict.keys SUPPORTED_LANGUAGES →
       (ratio (chars x) (chars (normalize_language_input typed_input)) < 1 # 2)%Q.
Proof.
  unfold get_language_code.
  pose proof (get_close_matches_1 (normalize_language_input typed_input)
                (Dict.keys SUPPORTED_LANGUAGES) (1 # 2)) as H.
  destruct (get_close_matches _ _ 1 _) as [|name [|? ?]]; try done.
  destruct H as (Hin & _). destruct (dict_get_key _ _ Hin) as [code Hc].
  rewrite Hc. intros Hf. change (PyStr.truthy (Some code) = false) in Hf.
  by rewrite (supported_codes_truthy _ _ Hc) in Hf.
Qed.

Lemma suggestions_empty typed_input :
  PyStr.truthy (get_language_code typed_input).1 = false → suggestions typed_input = [].
Proof.
  intros H. apply get_close_matches_none. intros x Hx.
  eapply Qlt_trans; [by apply get_language_code_falsy|done].
Qed.

(** Text made of whitespace only. *)
Definition spaces (s : string) : Prop := forallb PyStr.isspace (chars s) = true.

Lemma lower_ascii_idem c : PyStr.lower_ascii (PyStr.lower_ascii c) = PyStr.lower_ascii c.
Proof. by destruct c as [[] [] [] [] [] [] [] []]. Qed.

Lemma lower_ascii_space c : PyStr.isspace c = true → PyStr.lower_ascii c = c.
Proof. by destruct c as [[] [] [] [] [] [] [] []]. Qed.

Lemma lower_idem s : PyStr.lower (PyStr.lower s) = PyStr.lower s.
Proof. induction s as [|c r IH]; simpl; [done|]. by rewrite lower_ascii_idem, IH. Qed.

Lemma lower_app s t : PyStr.lower (s +:+ t) = PyStr.lower s +:+ PyStr.lower t.
Proof. induction s as [|c r IH]; simpl; [done|]. by rewrite IH. Qed.

Lemma lower_spaces s : spaces s → PyStr.lower s = s.
Proof.
  unfold spaces. induction s as [|c r IH]; simpl; [done|].
  intros [Hc Hr]%andb_true_iff. by rewrite lower_ascii_space, IH.
Qed.

(** A word with no whitespace in it, such as "language" and "lang". *)
Definition solid (old : string) : Prop :=
  old ≠ "" ∧ forallb (λ c, negb (PyStr.isspace c)) (chars old) = true.

Lemma append_nil_l s : "" +:+ s = s.
Proof. done. Qed.

Lemma append_cons c s t : String c s +:+ t = String c (s +:+ t).
Proof. done. Qed.

Lemma prefix_nil s : Strings.String.prefix "" s = true.
Proof. by destruct s. Qed.

Lemma prefix_length old x :
  Strings.String.prefix old x = true → (Strings.String.length old ≤ Strings.String.length x)%nat.
Proof.
  revert x. induction old as [|o r IH]; intros [|c x]; simpl; try done; try lia.
  destruct (Ascii.ascii_dec o c); [|done]. intros H%IH. lia.
Qed.

Lemma prefix_spaces old post :
  solid old → spaces post → Strings.String.prefix old post = false.
Proof.
  intros [Hne Hs] Hp. destruct old as [|o r]; [done|]. destruct post as [|c p]; [done|].
  cbn [Strings.String.prefix]. destruct (Ascii.ascii_dec o c) as [->|]; [|done].
  unfold spaces in Hp. cbn [chars Strings.String.list_ascii_of_string forallb] in Hs, Hp.
  apply andb_true_iff in Hs as [Hs _]. apply andb_true_iff in Hp as [Hp _].
  rewrite Hp in Hs. done.
Qed.

Lemma prefix_app_spaces old x post :
  solid old → spaces post →
  Strings.String.prefix old (x +:+ post) = Strings.String.prefix old x.
Proof.
  intros [Hne Hs] Hp. clear Hne. revert x.
  induction old as [|o r IH]; intros x; [by rewrite !prefix_nil|].
  cbn [chars Strings.String.list_ascii_of_string forallb] in Hs.
  apply andb_true_iff in Hs as [Ho Hs].
  destruct x as [|c x].
  - rewrite append_nil_l. destruct post as [|c p]; [done|].
    cbn [Strings.String.prefix]. destruct (Ascii.ascii_dec o c) as [->|]; [|done].
    unfold spaces in Hp. cbn [chars Strings.String.list_ascii_of_string forallb] in Hp.
    apply andb_true_iff in Hp as [Hp _]. by rewrite Hp in Ho.
  - rewrite append_cons. cbn [Strings.String.prefix].
    destruct (Ascii.ascii_dec o c); [|done]. by apply IH.
Qed.

Lemma remove_from_spaces old post : solid old → spaces post → PyStr.remove_from old 0 post = post.
Proof.
  intros Hs. induction post as [|c p IH]; intros Hp; [done|].
  cbn [PyStr.remove_from]. rewrite (prefix_spaces old (String c p)) by done.
  rewrite IH; [done|]. unfold spaces in *. simpl in Hp. by apply andb_true_iff in Hp as [_ Hp].
Qed.

Lemma remove_from_pre old pre x :
  solid old → spaces pre →
  PyStr.remove_from old 0 (pre +:+ x) = pre +:+ PyStr.remove_from old 0 x.
Proof.
  intros Hs. induction pre as [|c p IH]; intros Hp; [done|].
  unfold spaces in Hp. simpl in Hp. apply andb_true_iff in Hp as [Hc Hp].
  change (String c p +:+ x) with (String c (p +:+ x)). cbn [PyStr.remove_from].
  assert (Strings.String.prefix old (String c (p +:+ x)) = false) as ->.
  { destruct Hs as [Hne Hs]. destruct old as [|o r]; [done|]. simpl.
    destruct (Ascii.ascii_dec o c) as [->|]; [|done].
    simpl in Hs. apply andb_true_iff in Hs as [Hs _]. by rewrite Hc in Hs. }
  by rewrite IH.
Qed.

Lemma remove_from_post old k x post :
  solid old → spaces post → (k ≤ Strings.String.length x)%nat →
  PyStr.remove_from old k (x +:+ post) = PyStr.remove_from old k x +:+ post.
Proof.
  intros Hs Hp. revert k. induction x as [|c x IH]; intros k Hk.
  - simpl in Hk. replace k with 0%nat by lia. simpl. destruct post; [done|].
    by apply (remove_from_spaces old (String _ _)).
  - change (String c x +:+ post) with (String c (x +:+ post)).
    cbn [PyStr.remove_from]. destruct k as [|k]; [|apply IH; simpl in Hk; lia].
    change (String c (x +:+ post)) with (String c x +:+ post).
    rewrite prefix_app_spaces by done.
    destruct (Strings.String.prefix old (String c x)) eqn:E.
    + apply IH. apply prefix_length in E. simpl in E. lia.
    + rewrite append_cons. f_equal. apply IH. lia.
Qed.

Lemma lstrip_spaces_empty s : spaces s → PyStr.lstrip s = "".
Proof.
  unfold spaces. induction s as [|c r IH]; simpl; [done|].
  intros [-> Hr]%andb_true_iff. by apply IH.
Qed.

Lemma lstrip_pre pre z : spaces pre → PyStr.lstrip (pre +:+ z) = PyStr.lstrip z.
Proof.
  unfold spaces. induction pre as [|c p IH]; simpl; [done|].
  intros [-> Hp]%andb_true_iff. by apply IH.
Qed.

Lemma rstrip_post z post : spaces post → PyStr.rstrip (z +:+ post) = PyStr.rstrip z.
Proof.
  intros Hp. induction z as [|c r IH]; simpl.
  - by apply rstrip_empty.
  - by rewrite IH.
Qed.

Lemma strip_post y post : spaces post → PyStr.strip (y +:+ post) = PyStr.strip y.
Proof.
  intros Hp. unfold PyStr.strip. induction y as [|c r IH]; simpl.
  - rewrite lstrip_spaces_empty; done.
  - destruct (PyStr.isspace c); [exact IH|].
    by apply (rstrip_post (String c r)).
Qed.

Lemma strip_margins pre y post :
  spaces pre → spaces post → PyStr.strip (pre +:+ y +:+ post) = PyStr.strip y.
Proof.
  intros Hpre Hpost. rewrite <- (strip_post y post) by done.
  unfold PyStr.strip. by rewrite lstrip_pre.
Qed.

Lemma remove_margins old pre x post :
  solid old → spaces pre → spaces post →
  PyStr.remove old (pre +:+ x +:+ post) = pre +:+ PyStr.remove old x +:+ post.
Proof.
  intros Hs Hpre Hpost. unfold PyStr.remove.
  rewrite remove_from_pre by done. f_equal. apply remove_from_post; [done|done|lia].
Qed.

(** Whitespace around the input does not change what it is normalised to. *)
Lemma normalize_margins pre s post :
  spaces pre → spaces post →
  normalize_language_input (pre +:+ s +:+ post) = normalize_language_input s.
Proof.
  intros Hpre Hpost. unfold normalize_language_input.
  rewrite !lower_app, (lower_spaces pre), (lower_spaces post) by done.
  rewrite !remove_margins by done. by apply strip_margins.
Qed.

Lemma lstrip_split s : ∃ pre, spaces pre ∧ s = pre +:+ PyStr.lstrip s.
Proof.
  induction s as [|c r (pre & Hp & E)]; [by exists ""|]. simpl.
  destruct (PyStr.isspace c) eqn:Ec.
  - exists (String c pre). split; [unfold spaces in *; simpl; by rewrite Ec|].
    rewrite append_cons. by rewrite <- E.
  - by exists "".
Qed.

Lemma rstrip_split s : ∃ post, spaces post ∧ s = PyStr.rstrip s +:+ post.
Proof.
  induction s as [|c r (post & Hp & E)]; [by exists ""|]. simpl.
  destruct (PyStr.rstrip r) as [|c' r'] eqn:Er.
  - rewrite append_nil_l in E. subst post. destruct (PyStr.isspace c) eqn:Ec.
    + exists (String c r). split; [unfold spaces in *; simpl; by rewrite Ec|done].
    + by exists r.
  - exists post. split; [done|]. rewrite append_cons. by rewrite <- E.
Qed.

Lemma normalize_strip s :
  normalize_language_input (PyStr.strip s) = normalize_language_input s.
Proof.
  destruct (lstrip_split s) as (pre & Hpre & E1).
  destruct (rstrip_split (PyStr.lstrip s)) as (post & Hpost & E2).
  rewrite E1 at 2. rewrite E2. fold (PyStr.strip s). symmetry. by apply normalize_margins.
Qed.

(** The characters [lower] leaves as they are. *)
Definition lowered (s : string) : Prop :=
  forallb (λ c, bool_decide (PyStr.lower_ascii c = c)) (chars s) = true.

Lemma lowered_lower s : lowered (PyStr.lower s).
Proof.
  unfold lowered. induction s as [|c r IH]; simpl; [done|].
  rewrite IH, andb_true_r. apply bool_decide_eq_true, lower_ascii_idem.
Qed.

Lemma lowered_fixed s : lowered s → PyStr.lower s = s.
Proof.
  unfold lowered. induction s as [|c r IH]; simpl; [done|].
  intros [Hc%bool_decide_eq_true Hr]%andb_true_iff. by rewrite Hc, IH.
Qed.

Lemma lowered_tail c r : lowered (String c r) → lowered r.
Proof. unfold lowered. simpl. by intros [_ H]%andb_true_iff. Qed.

Lemma lowered_remove_from old k s : lowered s → lowered (PyStr.remove_from old k s).
Proof.
  revert k. induction s as [|c r IH]; intros k H; [done|].
  cbn [PyStr.remove_from]. pose proof (lowered_tail _ _ H) as Hr.
  destruct k; [|by apply IH]. destruct (Strings.String.prefix _ _); [by apply IH|].
  unfold lowered in *. simpl in *. apply andb_true_iff in H as [-> _]. by apply IH.
Qed.

Lemma lowered_lstrip s : lowered s → lowered (PyStr.lstrip s).
Proof.
  induction s as [|c r IH]; intros H; [done|]. simpl.
  destruct (PyStr.isspace c); [|done]. by eapply IH, lowered_tail.
Qed.

Lemma lowered_rstrip s : lowered s → lowered (PyStr.rstrip s).
Proof.
  induction s as [|c r IH]; intros H; [done|]. simpl.
  pose proof (IH (lowered_tail _ _ H)) as Hr.
  unfold lowered in H. simpl in H. apply andb_true_iff in H as [Hc _].
  destruct (PyStr.rstrip r) as [|c' r'].
  - destruct (PyStr.isspace c); [done|]. unfold lowered. simpl. by rewrite Hc.
  - unfold lowered in *. simpl in *. by rewrite Hc.
Qed.

Lemma rstrip_idem s : PyStr.rstrip (PyStr.rstrip s) = PyStr.rstrip s.
Proof.
  induction s as [|c r IH]; [done|]. simpl.
  destruct (PyStr.rstrip r) as [|c' r'] eqn:Er.
  - destruct (PyStr.isspace c) eqn:Ec; [done|]. simpl. by rewrite Ec.
  - simpl. simpl in IH. by rewrite IH.
Qed.

(** Stripping the right end leaves the first character in place unless
    nothing is left. *)
Lemma lstrip_rstrip s : PyStr.lstrip (PyStr.rstrip (PyStr.lstrip s)) = PyStr.rstrip (PyStr.lstrip s).
Proof.
  induction s as [|c r IH]; [done|]. cbn [PyStr.lstrip].
  destruct (PyStr.isspace c) eqn:Ec; [exact IH|]. cbn [PyStr.rstrip].
  destruct (PyStr.rstrip r); rewrite ?Ec; cbn [PyStr.lstrip]; by rewrite ?Ec.
Qed.

Lemma strip_idem s : PyStr.strip (PyStr.strip s) = PyStr.strip s.
Proof. unfold PyStr.strip. by rewrite lstrip_rstrip, rstrip_idem. Qed.

End NormalizeFacts.

Section LanguageExtras.
Import Difflib Language.

(** X1: [get_language_code] ignores letter case and the whitespace around
    its input: lowering the input, padding it with whitespace on either side
    or stripping it first gives the same answer.  (The callers strip what
    they heard or read before they pass it on; they need not.) *)
Theorem get_language_code_ignores_case_and_margins :
  (∀ s, get_language_code (PyStr.lower s) = get_language_code s)
  ∧ (∀ pre s post, spaces pre → spaces post →
       get_language_code (pre +:+ s +:+ post) = get_language_code s)
  ∧ (∀ s, get_language_code (PyStr.strip s) = get_language_code s).
Proof.
  unfold get_language_code. split; [|split].
  - intros s. unfold normalize_language_input. by rewrite lower_idem.
  - intros pre s post Hpre Hpost. by rewrite normalize_margins.
  - intros s. by rewrite normalize_strip.
Qed.

Lemma get_language_code_ignores_witness :
  get_language_code ("  " +:+ "Hindi" +:+ " ") = get_language_code "Hindi".
Proof.
  destruct get_language_code_ignores_case_and_margins as (_ & H & _). by apply H.
Defined.

(** X2: what [normalize_language_input] returns is in normal form for two
    of its steps: lowering it again or stripping it again changes nothing. *)
Theorem normalized_input_is_lowered_and_stripped text :
  PyStr.lower (normalize_language_input text) = normalize_language_input text
  ∧ PyStr.strip (normalize_language_input text) = normalize_language_input text.
Proof.
  unfold normalize_language_input. split.
  - apply lowered_fixed. unfold PyStr.strip, PyStr.remove.
    apply lowered_rstrip, lowered_lstrip, lowered_remove_from, lowered_remove_from,
      lowered_lower.
  - apply strip_idem.
Qed.

(** X3: the close matches that [detect_target_language_manually] prints
    after "Not recognized" are always the empty list.  It gets there only
    when [get_language_code] gave no code, so no name reaches ratio 0.5, and
    the suggestions are asked for at the stricter default cutoff 0.6. *)
Theorem unrecognised_input_gets_no_suggestions typed_input :
  PyStr.truthy (get_language_code typed_input).1 = false → suggestions typed_input = [].
Proof. apply suggestions_empty. Qed.

Lemma unrecognised_input_witness : suggestions "xyz" = [].
Proof. apply (unrecognised_input_gets_no_suggestions "xyz"). vm_compute. reflexivity. Defined.

End LanguageExtras.

Section FilterExtras.
Import Runtime.

(** At a rate of zero the Nyquist frequency is zero and the first division
    raises; no filter is designed. *)
Example butter_bandpass_at_zero w lowcut highcut order :
  Audio.butter_bandpass w lowcut highcut 0 order = Raises ZeroDivisionError.
Proof. reflexivity. Qed.

(** X12: for a sample rate [fs > 0], the band [butter_bandpass] hands to
    [scipy.signal.butter] is clamped on one side each: the low edge is
    [lowcut/nyq] or the floor 1e-6 and is never below the floor; the high
    edge is [highcut/nyq] or the cap 0.999 and is never above the cap. *)
Theorem butter_bandpass_clamps w lowcut highcut fs order :
  (0 < fs < 2 ^ 63)%Z →
  ∃ fs' low high,
    PyNum.float_of_int fs = Returns fs'
    ∧ Audio.butter_bandpass w lowcut highcut fs order = butter w order low high "band"
    ∧ (low <? 1e-6)%float = false ∧ (0.999 <? high)%float = false
    ∧ (low = (lowcut / (0.5 * fs'))%float ∨ low = 1e-6%float)
    ∧ (high = (highcut / (0.5 * fs'))%float ∨ high = 0.999%float).
Proof.
  intros Hfs. unfold Audio.butter_bandpass.
  destruct (nyquist_divides fs lowcut Hfs) as (fs' & E & El).
  destruct (nyquist_divides fs highcut Hfs) as (fs2 & E2 & Eh).
  rewrite E in E2. injection E2 as <-.
  rewrite E. simpl. rewrite El. simpl. rewrite Eh. simpl.
  eexists fs', _, _. split; [done|]. split; [reflexivity|].
  split; [apply max_not_below_floor|]. split; [apply min_not_above_cap|].
  unfold PyNum.max, PyNum.min. split; case_match; auto.
Qed.

(** At 100 Hz the low edge 1.6 is kept and the high edge is capped. *)
Lemma butter_bandpass_clamps_witness :
  ∃ fs' low high,
    PyNum.float_of_int 100 = Returns fs'
    ∧ Audio.butter_bandpass Examples.all_is_well 80 7900 100 4
      = butter Examples.all_is_well 4 low high "band"
    ∧ (low <? 1e-6)%float = false ∧ (0.999 <? high)%float = false
    ∧ (low = (80 / (0.5 * fs'))%float ∨ low = 1e-6%float)
    ∧ (high = (7900 / (0.5 * fs'))%float ∨ high = 0.999%float).
Proof. apply (butter_bandpass_clamps Examples.all_is_well 80 7900 100 4). lia. Defined.

End FilterExtras.

Section DetectionExtras.
Import Runtime Language.

(** X4: [detect_input_language_whisper] makes one call to the model.  From
    a non-empty table of probabilities it returns a code of that table which
    no other code out-scores, with its name from INDIAN_LANG_MAP or
    "International"; an empty table raises [ValueError] ([max] of an empty
    dict); an unreadable file or a failing model raises what they raise. *)
Theorem detect_input_language_picks_the_top_score w audio_path model s :
  match load_audio w audio_path s with
  | (Raises e, _) => ASR.detect_input_language_whisper w audio_path model s = (Raises e, s)
  | (Returns a, _) =>
      let c := whisper_detect_language model a in
      match respond w c (trace s) with
      | Raises e =>
          ASR.detect_input_language_whisper w audio_path model s = (Raises e, called w c s)
      | Returns [] =>
          ASR.detect_input_language_whisper w audio_path model s
          = (Raises ValueError, called w c s)
      | Returns probs =>
          ∃ code p,
            ASR.detect_input_language_whisper w audio_path model s
            = (Returns (code,
                        Dict.get_default INDIAN_LANG_MAP (Some code) "International",
                        Dict.contains INDIAN_LANG_MAP (Some code)),
               called w c s)
            ∧ (code, p) ∈ probs
            ∧ Forall (λ kv, (p <? snd kv)%float = false) probs
      end
  end.
Proof. apply detect_input_language_whisper_cases. Qed.

End DetectionExtras.

(** ** models/asr.py: what target selection can return *)
Section SelectionFacts.
Import Runtime Language.
Variable w : world.

(** A selection: nothing, or a supported name with its code. *)
Definition selection (r : option string * option string) : Prop :=
  r = (None, None)
  ∨ ∃ code name, r = (Some code, Some name)
                 ∧ Dict.get SUPPORTED_LANGUAGES name = Some code.

Lemma get_language_code_selection spoken : selection (get_language_code spoken).
Proof.
  unfold get_language_code.
  pose proof (get_close_matches_1 (normalize_language_input spoken)
                (Dict.keys SUPPORTED_LANGUAGES) (1 # 2)) as H.
  destruct (Difflib.get_close_matches _ _ 1 _) as [|name [|? ?]]; try done; [by left|].
  destruct H as (Hin & _). destruct (dict_get_key _ _ Hin) as [code Hc].
  right. exists code, name. by rewrite Hc.
Qed.

(** The results of a computation, when it returns. *)
Definition returns {A} (Q : A → Prop) (m : M A) : Prop :=
  ∀ s, match m s with (Returns a, _) => Q a | (Raises _, _) => True end.

Lemma returns_return {A} (Q : A → Prop) a : Q a → returns Q (return_ a).
Proof. by intros H s. Qed.

Lemma returns_bind {A B} (Q : B → Prop) (m : M A) (k : A → M B) :
  (∀ a, returns Q (k a)) → returns Q (bind m k).
Proof.
  intros H s. unfold bind. destruct (m s) as [[a|e] s1]; [apply H|done].
Qed.

Lemma voice_attempts_selection model attempt remaining :
  returns selection (ASR.voice_attempts w model attempt remaining).
Proof.
  revert attempt. induction remaining as [|n IH]; intros attempt; simpl.
  { apply returns_return. by left. }
  do 3 (apply returns_bind; intros ?).
  pose proof (get_language_code_selection (PyStr.strip a1)) as H.
  destruct (get_language_code _) as [code name].
  destruct (PyStr.truthy code); [by apply returns_return|apply IH].
Qed.

Lemma detect_target_language_manually_selection :
  returns selection (ASR.detect_target_language_manually w).
Proof.
  unfold ASR.detect_target_language_manually. apply returns_bind; intros line.
  pose proof (get_language_code_selection (PyStr.strip line)) as H.
  destruct (get_language_code _) as [code name].
  destruct (PyStr.truthy code); apply returns_return; [done|by left].
Qed.

Lemma get_target_language_selection : returns selection (ASR.get_target_language w).
Proof.
  unfold ASR.get_target_language, ASR.detect_target_language_by_voice.
  intros s. unfold bind at 1.
  pose proof (returns_bind selection (ASR.get_whisper_model w)
                (λ model, ASR.voice_attempts w model 0 2)
                (λ model, voice_attempts_selection model 0%nat 2%nat) s) as Hv.
  destruct (bind (ASR.get_whisper_model w) _ s) as [[[code name]|e] s1]; [|done].
  unfold bind. destruct (PyStr.truthy code); simpl; [done|].
  pose proof (detect_target_language_manually_selection s1) as Hm.
  by destruct (ASR.detect_target_language_manually w s1) as [[[code' name']|e] s2].
Qed.

End SelectionFacts.

Section SelectionExtras.
Import Runtime Language.

Lemma supported_codes_can_be_spoken code :
  code ∈ Dict.values SUPPORTED_LANGUAGES →
  Dict.contains INDIAN_LANG_MAP (Some code) = true
  ∨ is_Some (Dict.get TTS.LANG_VOICE_MAP code).
Proof.
  intros H. unfold Dict.values in H. simpl in H.
  repeat (apply elem_of_cons in H as [->|H];
          [first [by left | right; vm_compute; eauto]|]).
  by apply elem_of_nil in H.
Qed.

(** X5: whatever is heard or typed, [get_target_language] returns
    [(None, None)] or a name of SUPPORTED_LANGUAGES with its code.  Such a
    code is a key of NLLB_LANG_CODE_MAP, and it is an Indian code (spoken by
    Indic-Parler) or a key of LANG_VOICE_MAP (spoken with a voice of its
    own): for a selected language neither the "eng_Latn" nor the Samantha
    fallback is used. *)
Theorem target_selection_returns_a_supported_language w s :
  match ASR.get_target_language w s with
  | (Returns (code, name), _) =>
      (code = None ∧ name = None)
      ∨ ∃ c n, code = Some c ∧ name = Some n
               ∧ Dict.get SUPPORTED_LANGUAGES n = Some c
               ∧ is_Some (Dict.get NLLB_LANG_CODE_MAP c)
               ∧ (Dict.contains INDIAN_LANG_MAP (Some c) = true
                  ∨ is_Some (Dict.get TTS.LANG_VOICE_MAP c))
  | (Raises _, _) => True
  end.
Proof.
  pose proof (get_target_language_selection w s) as H.
  destruct (ASR.get_target_language w s) as [[[code name]|e] s1]; [|done].
  destruct H as [[= -> ->]|(c & n & [= -> ->] & Hc)]; [by left|right].
  exists c, n. repeat split; try done.
  - eapply supported_codes_in_nllb_map, dict_get_value, Hc.
  - eapply supported_codes_can_be_spoken, dict_get_value, Hc.
Qed.

End SelectionExtras.

(** ** utils/audio.py and models/tts.py: playback and synthesis *)
Section SpeechFacts.
Import Runtime.
Variable w : world.

(** [play_wav] swallows every failure: a file that is missing or holds no
    sound, and a device that refuses to play. *)
Lemma play_wav_spec filename s :
  Audio.play_wav w filename s
  = match files s !! resolve w filename with
    | Some (File (Audio x fs) _) => (Returns (), called w (sd_play (Samples x fs)) s)
    | _ => (Returns (), s)
    end.
Proof.
  unfold Audio.play_wav, try_except, bind, load_audio, lib, return_, Exception.
  destruct (files s !! resolve w filename) as [[[x fs|v| |] wr]|]; try done.
  simpl. by destruct (respond w (sd_play _) _) as [[]|].
Qed.




(** With the model loaded, [load_parler_tts] only reads the globals. *)
Lemma load_parler_tts_set s m :
  _parler_model s = Some m →
  TTS.load_parler_tts w s = (Returns (Some m, _tokenizer s, _desc_tokenizer s), s).
Proof.
  intros Hm. unfold TTS.load_parler_tts, bind, read, return_.
  rewrite Hm. simpl. by rewrite Hm.
Qed.

(** What [generate_speech] does once the model and both tokenizers are
    loaded, from the waveform the model generates. *)
Definition spoken (output_file : string) (audio : signal) (fs : Z) (s1 : state)
    : outcome unit * state :=
  if TTS.invalid_waveform (squeeze audio) then (Returns (), s1)
  else
    match squeeze audio with
    | Scalar _ => (Returns (), s1)
    | Vector x =>
        let name := resolve w output_file in
        let stored := encode w output_file x in
        match files s1 !! name with
        | Some (File _ false) => (Returns (), s1)
        | _ =>
            match store w name (Audio stored fs) (trace s1) with
            | Written =>
                (Returns (),
                 called w (sd_play (Samples stored fs))
                   (set_files (<[name := File (Audio stored fs) true]> (files s1)) s1))
            | Refused _ => (Returns (), s1)
            | Torn _ rest =>
                (Returns (), set_files (<[name := File rest true]> (files s1)) s1)
            end
        end
    end.

Lemma generate_speech_loaded p description output_file s m t d :
  Translation.blank (Some p) = false →
  _parler_model s = Some m → _tokenizer s = Some t → _desc_tokenizer s = Some d →
  let c := parler_generate m t d p description in
  TTS.generate_speech w (Some p) description output_file s
  = match respond w c (trace s) with
    | Returns (audio, fs) => spoken output_file audio fs (called w c s)
    | Raises _ => (Returns (), called w c s)
    end.
Proof.
  intros Hb Hm Ht Hd c. unfold TTS.generate_speech. rewrite Hb.
  unfold try_except at 1. unfold bind at 1.
  rewrite (load_parler_tts_set s m), Ht, Hd by done.
  unfold bind at 1. unfold lib at 1. fold c.
  destruct (respond w c (trace s)) as [[audio fs]|e]; [|done].
  unfold spoken. cbv zeta. destruct (TTS.invalid_waveform _); [done|].
  destruct (squeeze audio) as [v|x]; [done|].
  unfold bind, sf_write, write_file.
  destruct (files _ !! resolve w output_file) as [[old []]|] eqn:E; simpl; try done.
  all: destruct (store w _ _ _); simpl; try done.
  all: rewrite play_wav_spec; simpl; by rewrite lookup_insert_eq.
Qed.

(** A model loaded without its tokenizers: what a failed tokenizer load
    leaves behind. *)
Lemma generate_speech_half_loaded prompt description output_file s m :
  _parler_model s = Some m → _tokenizer s = None ∨ _desc_tokenizer s = None →
  TTS.generate_speech w prompt description output_file s = (Returns (), s).
Proof.
  intros Hm Hno. unfold TTS.generate_speech. destruct prompt as [p|]; [|done].
  destruct (Translation.blank _); [done|].
  unfold try_except, bind. rewrite (load_parler_tts_set s m) by done.
  destruct (_tokenizer s), (_desc_tokenizer s); try done. by destruct Hno.
Qed.








Lemma frame_kept names P s s' : frame w names P s s' → kept w names s s'.
Proof. by intros [_ H]. Qed.


End SpeechFacts.

Section SpeechExtras.
Import Runtime Language.



(** X9: with the model and both tokenizers loaded, [generate_speech] makes
    one call to generate the waveform and squeezes it.  A waveform that is
    empty, all zero or holds a NaN is dropped; one of a single sample is a
    zero-dimensional array that [sf.write] refuses before it opens the file;
    a file that cannot be opened is left alone: in these cases nothing is
    written or played.  Otherwise the waveform is written to [output_file]
    with the model's sampling rate, and what is then played back is what the
    file holds: the samples as the sound format encoded them, at this rate.
    When the write fails half-way, the file holds what was left and nothing
    is played. *)
Theorem generate_speech_plays_what_it_wrote w p description output_file s m t d :
  Translation.blank (Some p) = false →
  _parler_model s = Some m → _tokenizer s = Some t → _desc_tokenizer s = Some d →
  let c := parler_generate m t d p description in
  let s1 := called w c s in
  TTS.generate_speech w (Some p) description output_file s
  = match respond w c (trace s) with
    | Returns (audio, fs) =>
        if TTS.invalid_waveform (squeeze audio) then (Returns (), s1)
        else
          match squeeze audio with
          | Scalar _ => (Returns (), s1)
          | Vector x =>
              let name := resolve w output_file in
              let stored := encode w output_file x in
              match files s1 !! name with
              | Some (File _ false) => (Returns (), s1)
              | _ =>
                  match store w name (Audio stored fs) (trace s1) with
                  | Written =>
                      (Returns (),
                       called w (sd_play (Samples stored fs))
                         (set_files (<[name := File (Audio stored fs) true]> (files s1)) s1))
                  | Refused _ => (Returns (), s1)
                  | Torn _ rest =>
                      (Returns (), set_files (<[name := File rest true]> (files s1)) s1)
                  end
              end
          end
    | Raises _ => (Returns (), s1)
    end.
Proof. apply generate_speech_loaded. Qed.

(** The model generates the samples 1 and 0.5: in a 16-bit file the first
    is clipped to 32767/32768, and that is what is played. *)
Lemma generate_speech_witness :
  TTS.generate_speech Examples.all_is_well (Some "namaste") "calm" "out.wav"
    Examples.parler_loaded
  = (Returns (),
     State None None None (Some 4%nat) (Some 5%nat) (Some 6%nat) None
       {[ "out.wav" := File (Audio [0.999969482421875; 0.5]%float 44100) true ]}
       [ Lib (parler_generate 4%nat 5%nat 6%nat "namaste" "calm");
         Lib (sd_play (Samples [0.999969482421875; 0.5]%float 44100)) ]).
Proof.
  rewrite (generate_speech_plays_what_it_wrote Examples.all_is_well "namaste" "calm"
             "out.wav" Examples.parler_loaded 4%nat 5%nat 6%nat); reflexivity.
Defined.

(** A waveform of one sample is squeezed to a zero-dimensional array, which
    [sf.write] refuses: nothing is written or played. *)
Example one_sample_is_not_written :
  TTS.generate_speech Examples.one_sample (Some "namaste") "calm" "out.wav"
    Examples.parler_loaded
  = (Returns (),
     State None None None (Some 4%nat) (Some 5%nat) (Some 6%nat) None ∅
       [ Lib (parler_generate 4%nat 5%nat 6%nat "namaste" "calm") ]).
Proof. reflexivity. Qed.

(** X7: a tokenizer that fails to load disables Indic speech for the rest
    of the process.  [load_parler_tts] stores the model before it fetches the
    tokenizers; when the first tokenizer load raises, [generate_speech]
    catches the error and returns, the model stays stored and the tokenizer
    stays [None]; it has written no file.  From then on, in any world,
    [load_parler_tts] loads nothing and every [generate_speech] returns
    without a call, a file or a sound. *)
Theorem failed_tokenizer_load_disables_speech w p description output_file s m e :
  Translation.blank (Some p) = false →
  _parler_model s = None → _tokenizer s = None →
  let load := ParlerTTS_from_pretrained "ai4bharat/indic-parler-tts" in
  respond w load (trace s) = Returns m →
  respond w (model_eval m) (trace s ++ [Lib load]) = Returns () →
  respond w (AutoTokenizer_from_pretrained "ai4bharat/indic-parler-tts")
    (trace s ++ [Lib load; Lib (model_eval m)]) = Raises e →
  let s1 := (TTS.generate_speech w (Some p) description output_file s).2 in
  (TTS.generate_speech w (Some p) description output_file s).1 = Returns ()
  ∧ _parler_model s1 = Some m ∧ kept w [] s s1
  ∧ ∀ w' prompt' description' output_file',
      TTS.generate_speech w' prompt' description' output_file' s1 = (Returns (), s1).
Proof.
  intros Hb Hm Ht load Hl He Hk s1.
  assert (TTS.generate_speech w (Some p) description output_file s
          = (Returns (),
             called w (AutoTokenizer_from_pretrained "ai4bharat/indic-parler-tts")
               (called w (model_eval m) (set_parler_model (Some m) (called w load s)))))
    as E.
  { unfold TTS.generate_speech. rewrite Hb.
    unfold try_except, TTS.load_parler_tts, bind, read, lib, modify, return_.
    rewrite Hm. fold load. rewrite Hl. simpl. rewrite He. simpl.
    rewrite <- app_assoc. simpl. by rewrite Hk. }
  subst s1. rewrite E. simpl.
  split; [done|]. split; [done|]. split.
  { intros name _ Hname. simpl. by rewrite !Hname. }
  intros w' prompt' description' output_file'.
  apply (generate_speech_half_loaded w' _ _ _ _ m); [done|left; exact Ht].
Qed.

Lemma failed_tokenizer_load_witness :
  let s1 := (TTS.generate_speech Examples.tokenizers_offline (Some "namaste") "calm"
               "out.wav" Examples.fresh).2 in
  (TTS.generate_speech Examples.tokenizers_offline (Some "namaste") "calm" "out.wav"
     Examples.fresh).1 = Returns ()
  ∧ _parler_model s1 = Some 4%nat ∧ kept Examples.tokenizers_offline [] Examples.fresh s1
  ∧ ∀ w' prompt' description' output_file',
      TTS.generate_speech w' prompt' description' output_file' s1 = (Returns (), s1).
Proof.
  apply (failed_tokenizer_load_disables_speech Examples.tokenizers_offline "namaste"
           "calm" "out.wav" Examples.fresh 4%nat (LibraryError "OSError")); reflexivity.
Defined.


End SpeechExtras.

Section LoaderExtras.
Import Runtime.

(** X6: a loader assigns its global before it sets the object up
    ([model.eval()], [engine.setProperty("rate", 180)]).  When the set-up
    raises, the exception reaches the caller once, the global stays assigned,
    and every later call, in any world, returns the object at once: the
    set-up that failed is never run again. *)
Theorem failed_setup_leaves_the_model_cached :
  (∀ w s m e,
     _whisper_model s = None →
     respond w (whisper_load_model "small") (trace s) = Returns m →
     respond w (model_eval m) (trace s ++ [Lib (whisper_load_model "small")]) = Raises e →
     ∃ s1, ASR.get_whisper_model w s = (Raises e, s1)
           ∧ ∀ w', ASR.get_whisper_model w' s1 = (Returns m, s1))
  ∧ (∀ w s m e,
       _indic_model s = None →
       let load := AutoModel_from_pretrained "ai4bharat/indic-conformer-600m-multilingual" in
       respond w load (trace s) = Returns m →
       respond w (model_eval m) (trace s ++ [Lib load]) = Raises e →
       ∃ s1, ASR.get_indic_model w s = (Raises e, s1)
             ∧ ∀ w', ASR.get_indic_model w' s1 = (Returns m, s1))
  ∧ (∀ w s m e,
       _engine s = None →
       respond w pyttsx3_init (trace s) = Returns m →
       respond w (engine_setProperty m "rate" (JInt 180)) (trace s ++ [Lib pyttsx3_init])
       = Raises e →
       ∃ s1, TTS.get_tts_engine w s = (Raises e, s1)
             ∧ ∀ w', TTS.get_tts_engine w' s1 = (Returns m, s1)).
Proof.
  split; [|split]; intros w s m e Hg; simpl; intros Hl Hs.
  - unfold ASR.get_whisper_model at 1. unfold bind, read, lib, modify, return_.
    rewrite Hg, Hl. simpl. rewrite Hs. eexists. split; [done|].
    intros w'. by apply get_whisper_model_cached.
  - unfold ASR.get_indic_model at 1. unfold bind, read, lib, modify, return_.
    rewrite Hg, Hl. simpl. rewrite Hs. eexists. split; [done|].
    intros w'. by apply get_indic_model_cached.
  - unfold TTS.get_tts_engine at 1. unfold bind, read, lib, modify, return_.
    rewrite Hg, Hl. simpl. rewrite Hs. eexists. split; [done|].
    intros w'. by apply get_tts_engine_cached.
Qed.

Lemma failed_setup_witness :
  ∃ s1, ASR.get_whisper_model Examples.setup_fails Examples.fresh
        = (Raises (LibraryError "RuntimeError"), s1)
        ∧ ∀ w', ASR.get_whisper_model w' s1 = (Returns 1%nat, s1).
Proof.
  destruct failed_setup_leaves_the_model_cached as (H & _).
  apply (H Examples.setup_fails Examples.fresh 1%nat); reflexivity.
Defined.

(** X19: a failed quantization is swallowed.  Once the NLLB pipeline is
    built and the quantized engine chosen, [get_nllb_pipeline] returns the
    pipeline and keeps it in its global whether [quantize_dynamic] returns or
    raises; it makes these three calls, writes no file itself, and later
    calls return the same pipeline without a call. *)
Theorem failed_quantization_is_swallowed w s p :
  _nllb_pipeline s = None →
  let load := pipeline "translation" "facebook/nllb-200-distilled-600M" in
  respond w load (trace s) = Returns p →
  respond w (set_quantized_engine "qnnpack") (trace s ++ [Lib load]) = Returns () →
  ∃ s1, Translation.get_nllb_pipeline w s = (Returns p, s1)
        ∧ _nllb_pipeline s1 = Some p
        ∧ kept w [] s s1
        ∧ trace s1
          = trace s ++ [Lib load; Lib (set_quantized_engine "qnnpack");
                        Lib (quantize_dynamic p)]
        ∧ ∀ w', Translation.get_nllb_pipeline w' s1 = (Returns p, s1).
Proof.
  intros Hg load Hl Hq.
  unfold Translation.get_nllb_pipeline at 1.
  unfold bind, read, lib, modify, return_, try_except, Exception.
  rewrite Hg. fold load. rewrite Hl. simpl. rewrite Hq. simpl.
  destruct (respond w (quantize_dynamic p) _) as [[]|e]; simpl;
    (eexists; split; [reflexivity|]); simpl; rewrite <- !app_assoc; simpl;
    (split; [done|]); (split; [intros name _ Hname; simpl; by rewrite !Hname|]);
    (split; [done|]); intros w'; by apply get_nllb_pipeline_cached.
Qed.

Lemma failed_quantization_witness :
  ∃ s1, Translation.get_nllb_pipeline Examples.quantization_fails Examples.fresh
        = (Returns 3%nat, s1)
        ∧ _nllb_pipeline s1 = Some 3%nat
        ∧ kept Examples.quantization_fails [] Examples.fresh s1
        ∧ trace s1
          = trace Examples.fresh
            ++ [Lib (pipeline "translation" "facebook/nllb-200-distilled-600M");
                Lib (set_quantized_engine "qnnpack"); Lib (quantize_dynamic 3%nat)]
        ∧ ∀ w', Translation.get_nllb_pipeline w' s1 = (Returns 3%nat, s1).
Proof.
  apply (failed_quantization_is_swallowed Examples.quantization_fails Examples.fresh
           3%nat); reflexivity.
Defined.

End LoaderExtras.

(** ** models/translation.py: the two wrappers of [translate_with_nllb] *)
Section WrapperFacts.
Import Runtime Language.
Variable w : world.

Lemma translate_with_nllb_total text src_lang_code tgt_lang_code s :
  ∃ v, (Translation.translate_with_nllb w text src_lang_code tgt_lang_code s).1 = Returns v.
Proof.
  pose proof (translate_with_nllb_cases w text src_lang_code tgt_lang_code s) as H.
  simpl in H. destruct text as [t|]; [|rewrite H; eauto].
  destruct (forallb _ _); [rewrite H; eauto|].
  destruct (Translation.get_nllb_pipeline w s) as [[nllb|e] s1]; rewrite H; simpl; [|eauto].
  destruct (respond w _ _); eauto.
Qed.

(** What [nllb_translate_and_classify] makes of a translation. *)
Definition classified (translated_text tgt_lang_code : option string)
    : option string * option string * option string :=
  match translated_text with
  | None | Some EmptyString => (None, None, None)
  | Some _ =>
      (translated_text, tgt_lang_code,
       Some (if Dict.contains INDIAN_LANG_MAP tgt_lang_code
             then "indian" else "international"))
  end.

Lemma in_INDIAN_LANGS_contains tgt_lang_code :
  Translation.in_INDIAN_LANGS tgt_lang_code = Dict.contains INDIAN_LANG_MAP tgt_lang_code.
Proof.
  destruct tgt_lang_code as [code|]; [|done]. unfold Translation.in_INDIAN_LANGS, INDIAN_LANGS.
  destruct (Dict.contains INDIAN_LANG_MAP (Some code)) eqn:E.
  - by apply bool_decide_eq_true, dict_get_contains.
  - apply bool_decide_eq_false. intros H%dict_get_contains. congruence.
Qed.


Lemma nllb_translate_and_classify_spec text src_lang_code tgt_lang_code s :
  ∃ translated_text s1,
    Translation.translate_with_nllb w text src_lang_code tgt_lang_code s
    = (Returns translated_text, s1)
    ∧ Translation.nllb_translate_and_classify w text src_lang_code tgt_lang_code s
      = (Returns (classified translated_text tgt_lang_code), s1).
Proof.
  destruct (translate_with_nllb_total text src_lang_code tgt_lang_code s) as [v Hv].
  destruct (Translation.translate_with_nllb w text src_lang_code tgt_lang_code s)
    as [o s1] eqn:E. simpl in Hv. subst o.
  exists v, s1. split; [done|].
  unfold Translation.nllb_translate_and_classify, try_except, bind. rewrite E.
  rewrite in_INDIAN_LANGS_contains. by destruct v as [[|c r]|].
Qed.

End WrapperFacts.

Section WrapperExtras.
Import Runtime Language.


(** X14: transcription, translation (its wrapper included) and the manual
    fallback of target selection write no file themselves: whatever they
    return or raise, every file that the libraries they call leave alone is as
    it was. *)
Theorem asr_and_translation_write_no_file w s :
  (∀ audio_path, kept w [] s (ASR.transcribe_audio w audio_path s).2)
  ∧ (∀ text src_lang_code tgt_lang_code,
       kept w [] s (Translation.translate_with_nllb w text src_lang_code tgt_lang_code s).2)
  ∧ (∀ text src_lang_code tgt_lang_code,
       kept w [] s
         (Translation.nllb_translate_and_classify w text src_lang_code tgt_lang_code s).2)
  ∧ kept w [] s (ASR.detect_target_language_manually w s).2.
Proof.
  split; [|split; [|split]].
  - intros audio_path. apply (frame_kept w [] (λ _, True)).
    by apply transcribe_audio_frame.
  - intros text src tgt. apply (frame_kept w [] (λ _, True)).
    by apply translate_with_nllb_frame.
  - intros text src tgt.
    destruct (nllb_translate_and_classify_spec w text src tgt s) as (v & s1 & E & ->).
    simpl. change s1 with (Returns v, s1).2. rewrite <- E.
    apply (frame_kept w [] (λ _, True)). by apply translate_with_nllb_frame.
  - apply (frame_kept w [] (λ _, True)).
    assert (preserves w [] (λ _, True) (ASR.detect_target_language_manually w)) as H; [|apply H].
    unfold ASR.detect_target_language_manually. frames ltac:(done).
Qed.

(** A library that caches what it downloads: loading Whisper leaves a file
    behind, and the files [transcribe_audio] was given are as they were. *)
Example transcription_keeps_the_recording :
  let s := (Audio.record_audio Examples.caching (PyNum.PyInt 2) 16000 "input.wav" false
              Examples.fresh).2 in
  let s' := (ASR.transcribe_audio Examples.caching "input.wav" s).2 in
  leaves Examples.caching "input.wav"
  ∧ files s' !! "input.wav" = files s !! "input.wav"
  ∧ files s !! "small.pt" = None
  ∧ files s' !! "small.pt" = Some (File Undecodable true).
Proof.
  split; [|by vm_compute]. intros c t f. destruct c; try done.
  by apply lookup_insert_ne.
Qed.

End WrapperExtras.

(** ** run_pipeline.py: what a log entry holds *)
Section EntryFacts.
Import Runtime Language.
Variable w : world.

Lemma returns_bind_with {A B} (P : A → Prop) (Q : B → Prop) (m : M A) (k : A → M B) :
  returns P m → (∀ a, P a → returns Q (k a)) → returns Q (bind m k).
Proof.
  intros Hm Hk s. unfold bind. specialize (Hm s).
  destruct (m s) as [[a|e] s1]; [by apply Hk|done].
Qed.

Lemma translate_with_nllb_blank text src_lang_code tgt_lang_code :
  returns (λ translated_text, Translation.blank text = true → translated_text = None)
    (Translation.translate_with_nllb w text src_lang_code tgt_lang_code).
Proof.
  intros s. pose proof (translate_with_nllb_cases w text src_lang_code tgt_lang_code s) as H.
  simpl in H. rewrite blank_whitespace. destruct text as [t|]; [|by rewrite H].
  destruct (forallb _ _); [by rewrite H|].
  by destruct (Translation.translate_with_nllb w _ _ _ s) as [[v|e] s1].
Qed.

Definition is_number (v : json) : Prop :=
  match v with JFloat _ => True | _ => False end.

(** The entry a run returns and logs. *)
Definition well_formed_entry (entry : json) : Prop :=
  ∃ timestamp timings transcription code name translation metrics,
    entry = JObject
              [ ("timestamp", JString timestamp);
                ("device", JString "cpu");
                ("timings", JObject timings);
                ("outputs",
                 JObject [ ("transcription", JString transcription);
                           ("target_language",
                            JObject [("code", of_str code); ("name", of_str name)]);
                           ("translation", of_str translation) ]);
                ("system_metrics", JObject metrics) ]
    ∧ map fst timings
      = [ "recording_time_sec"; "asr_time_sec"; "target_lang_selection_sec";
          "translation_time_sec"; "tts_time_sec"; "total_pipeline_time_sec" ]
    ∧ map fst metrics = ["avg_cores_used"; "normalized_cpu_percent"; "peak_ram_usage_mb"]
    ∧ Forall is_number (map snd timings ++ map snd metrics)
    ∧ selection (code, name)
    ∧ (Translation.blank (Some transcription) = true → translation = None).

Lemma run_entry duration output_log :
  returns well_formed_entry (Pipeline.run_voice2voice_evaluation w duration output_log).
Proof.
  unfold Pipeline.run_voice2voice_evaluation.
  repeat first
    [ apply (returns_bind_with selection);
      [apply get_target_language_selection|intros [tgt_lang_code tgt_lang_name] Hsel]
    | eapply returns_bind_with; [apply translate_with_nllb_blank|intros translated_text Hblank]
    | apply returns_bind; intros ? ].
  apply returns_return. repeat eexists; try done. repeat constructor.
Qed.

End EntryFacts.

Section EntryExtras.
Import Runtime.

(** X16: the entry a run returns (and logs) is an object with the keys
    timestamp, device, timings, outputs and system_metrics, in this order;
    device is "cpu"; timings holds the six times and system_metrics the three
    metrics, all numbers; outputs holds the transcription, the target
    language and the translation.  The target language is null/null or a
    supported name with its code, and the translation is null whenever the
    transcription is empty or only whitespace. *)
Theorem run_returns_a_well_formed_entry w duration output_log s :
  match Pipeline.run_voice2voice_evaluation w duration output_log s with
  | (Returns entry, _) => well_formed_entry entry
  | (Raises _, _) => True
  end.
Proof. apply run_entry. Qed.

End EntryExtras.

(** ** run_pipeline.py: the files of a run, and runs in a row *)
Section RunFiles.
Import Runtime.

Lemma run_frame w duration output_log :
  preserves w (resolve w output_log :: sounds w) (λ _, True)
    (Pipeline.run_voice2voice_evaluation w duration output_log).
Proof.
  apply run_before_log_frame; try done.
  - intros p Hp. by right.
  - intros entry. apply append_log_frame. by left.
Qed.





End RunFiles.

Section RunFilesExtras.
Import Runtime.

(** X15: a run writes no file other than its log and the four sound files
    input.wav, target_attempt_1.wav, target_attempt_2.wav and
    output_indic.wav, whether it returns or raises: every other file that
    the libraries leave alone is as it was.  Files are told apart by what
    their paths name, so another path to one of the five is one of the
    five. *)
Theorem run_touches_only_its_files w duration output_log s p :
  p ∉ resolve w output_log :: sounds w → leaves w p →
  files (Pipeline.run_voice2voice_evaluation w duration output_log s).2 !! p = files s !! p.
Proof. intros Hp Hl. by apply (run_frame w duration output_log s). Qed.

(** With a library that caches what it downloads: the notes are left alone,
    and the cache is not. *)
Lemma run_touches_only_its_files_witness :
  files (Pipeline.run_voice2voice_evaluation Examples.caching (PyNum.PyInt 2)
           "evaluation_log.json" Examples.fresh).2 !! "notes.txt"
  = files Examples.fresh !! "notes.txt".
Proof.
  apply (run_touches_only_its_files Examples.caching (PyNum.PyInt 2) "evaluation_log.json"
           Examples.fresh "notes.txt").
  - intros H. repeat (apply elem_of_cons in H as [H|H]; [discriminate H|]).
    by apply elem_of_nil in H.
  - intros c t f. destruct c; try reflexivity. by apply lookup_insert_ne.
Defined.

Example run_fills_the_cache :
  files (Pipeline.run_voice2voice_evaluation Examples.caching (PyNum.PyInt 2)
           "evaluation_log.json" Examples.fresh).2 !! "small.pt"
  = Some (File Undecodable true).
Proof. by vm_compute. Qed.




End RunFilesExtras.

(** ** Whisper is fetched twice in a run and loaded at most once *)
Section LoadOnce.
Import Runtime.
Variable w : world.

Definition is_whisper_load (e : event) : bool :=
  match e with Lib (whisper_load_model _) => true | _ => false end.

(** [m] leaves the global [_whisper_model] as it is. *)
Definition keeps {A} (m : M A) : Prop := ∀ s, _whisper_model (m s).2 = _whisper_model s.

Lemma keeps_pure {A} (m : M A) : (∀ s, (m s).2 = s) → keeps m.
Proof. intros H s. by rewrite H. Qed.

Lemma keeps_bind {A B} (m : M A) (k : A → M B) :
  keeps m → (∀ a, keeps (k a)) → keeps (bind m k).
Proof.
  intros Hm Hk s. unfold bind. specialize (Hm s).
  destruct (m s) as [[a|e] s1]; simpl in *; [|done]. by rewrite Hk.
Qed.

Lemma keeps_try {A} (m : M A) caught h :
  keeps m → (∀ e, keeps (h e)) → keeps (try_except m caught h).
Proof.
  intros Hm Hh s. unfold try_except. specialize (Hm s).
  destruct (m s) as [[a|e] s1]; simpl in *; [done|].
  destruct (caught e); [|done]. by rewrite Hh.
Qed.

Lemma keeps_modify f : (∀ s, _whisper_model (f s) = _whisper_model s) → keeps (modify f).
Proof. intros H s. apply H. Qed.

Lemma keeps_lib c : keeps (lib w c).
Proof. by intros s. Qed.

Lemma keeps_write_file path d : keeps (write_file w path d).
Proof.
  intros s. unfold write_file.
  destruct (files s !! resolve w path) as [[? []]|]; try done; by destruct (store w _ _ _).
Qed.

Lemma keeps_sf_write path data fs : keeps (sf_write w path data fs).
Proof. destruct data; [by apply keeps_pure|apply keeps_write_file]. Qed.

Lemma keeps_load_audio path : keeps (load_audio w path).
Proof. apply keeps_pure, load_audio_state. Qed.

Lemma keeps_json_load path : keeps (json_load w path).
Proof. apply keeps_pure, json_load_state. Qed.

End LoadOnce.

Ltac keeps_step :=
  lazymatch goal with
  | |- keeps (Runtime.bind _ _) => apply keeps_bind; [|intros ?]
  | |- keeps (Runtime.try_except _ _ _) => apply keeps_try; [|intros ?]
  | |- keeps (Runtime.lib ?w ?c) => apply (keeps_lib w c)
  | |- keeps (Runtime.mark _) => apply keeps_modify; by intros []
  | |- keeps (Runtime.modify _) => apply keeps_modify; by intros []
  | |- keeps (Runtime.sf_write _ _ _ _) => apply keeps_sf_write
  | |- keeps (Runtime.json_dump _ _ _) => apply keeps_write_file
  | |- keeps (Runtime.load_audio _ _) => apply keeps_load_audio
  | |- keeps (Runtime.json_load _ _) => apply keeps_json_load
  | |- keeps (match ?x with _ => _ end) => destruct x
  | |- keeps (let '(_, _) := ?x in _) => destruct x
  | |- keeps _ => by apply keeps_pure
  end.

Section LoadOnceFunctions.
Import Runtime.
Variable w : world.

(** At most one load; none when the model is there; and after a load, a
    computation that returns leaves the model in place. *)
Definition thrifty {A} (m : M A) : Prop :=
  ∀ s, ∃ l, trace (m s).2 = trace s ++ l
            ∧ (is_Some (_whisper_model s) →
               count is_whisper_load l = 0%nat ∧ is_Some (_whisper_model (m s).2))
            ∧ (count is_whisper_load l ≤ 1)%nat
            ∧ (count is_whisper_load l = 1%nat → (∃ a, (m s).1 = Returns a) →
               is_Some (_whisper_model (m s).2)).

Lemma thrifty_bind {A B} (m : M A) (k : A → M B) :
  thrifty m → (∀ a, thrifty (k a)) → thrifty (bind m k).
Proof.
  intros Hm Hk s. destruct (Hm s) as (l1 & E1 & S1 & C1 & R1). unfold bind.
  destruct (m s) as [[a|e] s1]; simpl in *.
  - destruct (Hk a s1) as (l2 & E2 & S2 & C2 & R2). exists (l1 ++ l2).
    rewrite E2, E1, app_assoc, count_app. split; [done|].
    split; [|split].
    + intros Hs. destruct (S1 Hs) as [-> Hs1]. by destruct (S2 Hs1) as [-> Hs2].
    + destruct (decide (count is_whisper_load l1 = 0%nat)) as [->|Hne]; [lia|].
      assert (count is_whisper_load l1 = 1%nat) as E by lia.
      destruct S2 as [-> _]; [apply R1; eauto|lia].
    + intros Hc Hr.
      destruct (decide (count is_whisper_load l1 = 0%nat)) as [E|Hne].
      * apply R2; [lia|done].
      * apply S2, R1; [lia|eauto].
  - exists l1. repeat split; try done.
    + by apply S1.
    + by apply S1.
    + by intros _ [a Ha].
Qed.

Lemma thrifty_quiet {A} names (m : M A) :
  preserves w names (λ e, is_whisper_load e = false) m → keeps m → thrifty m.
Proof.
  intros Hp Hk s. destruct (Hp s) as [(l & E & F) _]. exists l.
  rewrite (count_none _ _ F), Hk. split; [done|]. split; [done|]. split; [lia|done].
Qed.

Lemma get_whisper_model_thrifty : thrifty (ASR.get_whisper_model w).
Proof.
  intros s. unfold ASR.get_whisper_model, bind, read, lib, modify, return_.
  destruct (_whisper_model s) as [m|] eqn:Em; simpl.
  - exists []. rewrite app_nil_r, Em. repeat split; eauto.
  - destruct (respond w _ _) as [m|e]; simpl.
    + exists [Lib (whisper_load_model "small"); Lib (model_eval m)].
      destruct (respond w (model_eval m) _); simpl; rewrite <- app_assoc;
        (split; [done|]); (split; [by intros []|]); (split; [done|]); eauto.
    + exists [Lib (whisper_load_model "small")]. split; [done|].
      split; [by intros []|]. split; [done|]. by intros _ [a Ha].
Qed.

Ltac quiet :=
  apply (thrifty_quiet []); [frames ltac:(done)|repeat keeps_step].

Lemma record_audio_thrifty duration fs filename playback :
  thrifty (Audio.record_audio w duration fs filename playback).
Proof.
  apply (thrifty_quiet [resolve w filename]); unfold Audio.record_audio;
    [frames ltac:(first [done | by left])|repeat keeps_step].
Qed.

Lemma transcribe_audio_thrifty audio_path : thrifty (ASR.transcribe_audio w audio_path).
Proof.
  unfold ASR.transcribe_audio. apply thrifty_bind; [apply get_whisper_model_thrifty|].
  intros model.
  unfold ASR.detect_input_language_whisper, ASR.indic_transcribe, ASR.whisper_transcribe,
    ASR.get_indic_model.
  quiet.
Qed.

Lemma voice_attempts_thrifty model attempt remaining :
  thrifty (ASR.voice_attempts w model attempt remaining).
Proof.
  revert attempt. induction remaining as [|n IH]; intros attempt; simpl; [quiet|].
  apply thrifty_bind; [apply record_audio_thrifty|intros path].
  apply thrifty_bind; [quiet|intros a]. apply thrifty_bind; [quiet|intros text].
  destruct (Language.get_language_code _) as [code name].
  destruct (PyStr.truthy code); [quiet|apply IH].
Qed.

Lemma get_target_language_thrifty : thrifty (ASR.get_target_language w).
Proof.
  unfold ASR.get_target_language, ASR.detect_target_language_by_voice,
    ASR.detect_target_language_manually.
  apply thrifty_bind.
  { apply thrifty_bind; [apply get_whisper_model_thrifty|intros model].
    apply voice_attempts_thrifty. }
  intros [code name]. apply thrifty_bind; [|intros []; quiet].
  destruct (negb _); [|quiet]. apply thrifty_bind; [quiet|intros line].
  destruct (Language.get_language_code _) as [code' name'].
  destruct (PyStr.truthy code'); quiet.
Qed.

Lemma translate_with_nllb_thrifty text src_lang_code tgt_lang_code :
  thrifty (Translation.translate_with_nllb w text src_lang_code tgt_lang_code).
Proof. unfold Translation.translate_with_nllb, Translation.get_nllb_pipeline. quiet. Qed.

Lemma play_tts_output_thrifty text lang_type tgt_lang_code :
  thrifty (TTS.play_tts_output w text lang_type tgt_lang_code).
Proof.
  apply (thrifty_quiet [resolve w "output_indic.wav"]);
    unfold TTS.play_tts_output, TTS.generate_speech, TTS.load_parler_tts,
      TTS.get_tts_engine, Audio.play_wav;
    [frames ltac:(first [done | by left])|repeat keeps_step].
Qed.

Lemma append_log_thrifty output_log entry : thrifty (Pipeline.append_log w output_log entry).
Proof.
  apply (thrifty_quiet [resolve w output_log]); unfold Pipeline.append_log;
    [frames ltac:(first [done | by left])|repeat keeps_step].
Qed.

Lemma run_thrifty duration output_log :
  thrifty (Pipeline.run_voice2voice_evaluation w duration output_log).
Proof.
  unfold Pipeline.run_voice2voice_evaluation.
  repeat first
    [ apply thrifty_bind;
      [ first [ apply record_audio_thrifty | apply transcribe_audio_thrifty
              | apply get_target_language_thrifty | apply translate_with_nllb_thrifty
              | apply play_tts_output_thrifty | apply append_log_thrifty
              | unfold Audio.play_beep; quiet ]
      | intros ? ]
    | match goal with |- thrifty (let '(_, _) := ?x in _) => destruct x end
    | quiet ].
Qed.

End LoadOnceFunctions.

Section LoadOnceExtras.
Import Runtime.

(** X18: a run fetches the Whisper model twice, for transcription and for
    target selection, and loads it at most once; when the model is already
    in its global, the run does not load it at all. *)
Theorem run_loads_whisper_at_most_once w duration output_log s :
  let loads :=
    count is_whisper_load (added (Pipeline.run_voice2voice_evaluation w duration output_log) s) in
  (loads ≤ 1)%nat ∧ (is_Some (_whisper_model s) → loads = 0%nat).
Proof.
  intros loads. subst loads.
  destruct (run_thrifty w duration output_log s) as (l & E & Hs & Hc & _).
  unfold added. rewrite E, drop_app_length. split; [done|]. intros H. by apply Hs.
Qed.

End LoadOnceExtras.

(** ** Every audio handed to a model is sampled at 16 kHz *)
Section SampleRate.
Import Runtime.
Variable w : world.

(** The rate of the audio a model call is given. *)
Definition rated (e : event) : Prop :=
  match e with
  | Lib (whisper_detect_language _ a) | Lib (whisper_decode _ a)
  | Lib (indic_model_call _ a _ _) => a.2 = 16000%Z
  | _ => True
  end.

(** The file [name] holds sound sampled at 16 kHz. *)
Definition holds16k (name : string) (f : gmap string file) : Prop :=
  ∃ x wr, f !! name = Some (File (Audio x 16000) wr).

(** From files that satisfy [I], [m] hands only 16 kHz audio to the models
    and, when it returns [a], leaves files that satisfy [J a]. *)
Definition rates {A} (I : gmap string file → Prop) (m : M A)
    (J : A → gmap string file → Prop) : Prop :=
  ∀ s, I (files s) →
       (∃ l, trace (m s).2 = trace s ++ l ∧ Forall rated l)
       ∧ match m s with
         | (Returns a, s') => J a (files s')
         | (Raises _, _) => True
         end.

Lemma rates_bind {A B} I J K (m : M A) (k : A → M B) :
  rates I m J → (∀ a, rates (J a) (k a) K) → rates I (bind m k) K.
Proof.
  intros Hm Hk s HI. destruct (Hm s HI) as [(l1 & E1 & F1) HJ]. unfold bind.
  destruct (m s) as [[a|e] s1]; simpl in *; [|eauto].
  destruct (Hk a s1 HJ) as [(l2 & E2 & F2) HK]. split; [|done].
  exists (l1 ++ l2). rewrite E2, E1, app_assoc. split; [done|]. by apply Forall_app.
Qed.

(** A step that writes no file keeps the sound of a file that the libraries
    leave alone. *)
Lemma rates_still {A} name (m : M A) :
  leaves w name → preserves w [] rated m → rates (holds16k name) m (λ _, holds16k name).
Proof.
  intros Hl H s HI. destruct (H s) as [Ht Hf]. split; [done|].
  specialize (Hf name (not_elem_of_nil _) Hl). unfold holds16k in *.
  destruct (m s) as [[a|e] s1]; [|done]. simpl in Hf. by rewrite Hf.
Qed.

Lemma rates_weaken {A} (I I' : gmap string file → Prop) (m : M A) J J' :
  (∀ f, I' f → I f) → (∀ a f, J a f → J' a f) → rates I m J → rates I' m J'.
Proof.
  intros HI HJ H s Hs. destruct (H s (HI _ Hs)) as [Ht Hr]. split; [done|].
  destruct (m s) as [[a|e] s1]; [by apply HJ|done].
Qed.

(** A fact that does not depend on the files. *)
Lemma rates_pure {A} (P : Prop) I (m : M A) J :
  (P → rates I m J) → rates (λ f, P ∧ I f) m J.
Proof. intros H s [HP HI]. by apply H. Qed.

Lemma rates_load_audio path I :
  rates (λ f, holds16k (resolve w path) f ∧ I f) (load_audio w path)
    (λ a f, a.2 = 16000%Z ∧ holds16k (resolve w path) f ∧ I f).
Proof.
  intros s [(x & wr & E) HI]. unfold load_audio. rewrite E. simpl. split.
  - exists []. by rewrite app_nil_r.
  - split; [done|]. split; [by exists x, wr|done].
Qed.

(** A recording at 16 kHz that returns has left such sound in its file. *)
Lemma rates_record_audio duration filename playback I :
  rates I (Audio.record_audio w duration 16000 filename playback)
    (λ r f, r = filename ∧ holds16k (resolve w filename) f).
Proof.
  intros s _. split.
  - destruct (record_audio_frame w [resolve w filename] rated duration 16000 filename
                playback) with s as [Ht _]; [by left|by intros []|done].
  - pose proof (record_audio_cases w duration 16000 filename playback s) as H.
    cbv zeta in H.
    destruct (and_then _ _) as [frames|e]; [|by rewrite H].
    destruct (respond w _ (trace s)) as [data|e]; [|by rewrite H].
    destruct (Audio.bandpass_filter w _ _ _ _ _) as [filtered|e]; [|by rewrite H].
    destruct (if playback then _ else _) as [[]|e]; [|by rewrite H].
    destruct (files _ !! _) as [[d []]|]; try by rewrite H.
    all: destruct (store w _ _ _); rewrite H; try done.
    all: split; [done|]; eexists _, _; apply lookup_insert_eq.
Qed.

(** A step that may write files, with nothing known afterwards. *)
Lemma rates_any {A} names I (m : M A) : preserves w names rated m → rates I m (λ _ _, True).
Proof.
  intros H s _. destruct (H s) as [Ht _]. split; [done|]. by destruct (m s) as [[a|e] s1].
Qed.

(** Loading the sound of [path], then steps that write no file. *)
Lemma rates_after_load {B} path (k : audio → M B) :
  leaves w (resolve w path) →
  (∀ a, a.2 = 16000%Z → preserves w [] rated (k a)) →
  rates (holds16k (resolve w path)) (bind (load_audio w path) k)
    (λ _, holds16k (resolve w path)).
Proof.
  intros Hl Hk.
  apply (rates_bind _ (λ a f, a.2 = 16000%Z ∧ holds16k (resolve w path) f ∧ True)).
  - eapply rates_weaken; [| |apply (rates_load_audio path (λ _, True))]; simpl; eauto.
  - intros a. apply rates_pure. intros Ha.
    apply (rates_weaken (holds16k (resolve w path)) _ _ (λ _, holds16k (resolve w path)));
      [by intros f [H _]|done|by apply rates_still, Hk, Ha].
Qed.

Lemma transcribe_audio_rates path :
  leaves w (resolve w path) →
  rates (holds16k (resolve w path)) (ASR.transcribe_audio w path)
    (λ _, holds16k (resolve w path)).
Proof.
  intros Hl. unfold ASR.transcribe_audio. eapply rates_bind.
  { apply rates_still; [done|]. unfold ASR.get_whisper_model. frames ltac:(done). }
  intros model. eapply rates_bind.
  { unfold ASR.detect_input_language_whisper. apply rates_after_load; [done|].
    intros a Ha. frames ltac:(first [exact Ha | done]). }
  intros [[code name] []].
  - unfold ASR.indic_transcribe. eapply rates_bind.
    { apply rates_still; [done|]. unfold ASR.get_indic_model. frames ltac:(done). }
    intros indic_model. apply rates_after_load; [done|].
    intros a Ha. frames ltac:(first [exact Ha | done]).
  - unfold ASR.whisper_transcribe. apply rates_after_load; [done|].
    intros a Ha. frames ltac:(first [exact Ha | done]).
Qed.

(** In the voice loop each recording is read back at once, before any call
    could touch it. *)
Lemma voice_attempts_rates I model attempt remaining :
  rates I (ASR.voice_attempts w model attempt remaining) (λ _ _, True).
Proof.
  revert I attempt. induction remaining as [|n IH]; intros I attempt; simpl.
  { apply (rates_any []), preserves_return. }
  eapply rates_bind; [apply rates_record_audio|intros path].
  apply rates_pure. intros ->.
  set (path := "target_attempt_" +:+ pretty (attempt + 1)%nat +:+ ".wav").
  apply (rates_bind _ (λ a f, a.2 = 16000%Z ∧ holds16k (resolve w path) f ∧ True)).
  { eapply rates_weaken; [| |apply (rates_load_audio path (λ _, True))]; simpl; eauto. }
  intros a. apply rates_pure. intros Ha.
  eapply rates_bind.
  { apply (rates_any []). apply (preserves_lib w [] rated (whisper_decode model a)).
    exact Ha. }
  intros text. destruct (Language.get_language_code _) as [code name].
  destruct (PyStr.truthy code); [apply (rates_any []), preserves_return|apply IH].
Qed.

Lemma get_target_language_rates I :
  rates I (ASR.get_target_language w) (λ _ _, True).
Proof.
  unfold ASR.get_target_language, ASR.detect_target_language_by_voice,
    ASR.detect_target_language_manually.
  eapply rates_bind.
  { eapply rates_bind; [|intros model; apply voice_attempts_rates].
    apply (rates_any []). unfold ASR.get_whisper_model. frames ltac:(done). }
  intros [code name]. apply (rates_any []). frames ltac:(done).
Qed.

Ltac rates_step output_log :=
  first
    [ apply get_target_language_rates
    | apply (rates_any []); unfold Audio.play_beep; solve [frames ltac:(done)]
    | apply (rates_any []), translate_with_nllb_frame; [by intros []|done]
    | apply (rates_any [resolve w "output_indic.wav"]), play_tts_output_frame;
      [by left|by intros []]
    | apply (rates_any [resolve w output_log]), append_log_frame; by left ].

Lemma run_rates duration output_log :
  leaves w (resolve w "input.wav") →
  rates (λ _, True) (Pipeline.run_voice2voice_evaluation w duration output_log)
    (λ _ _, True).
Proof.
  intros Hl. unfold Pipeline.run_voice2voice_evaluation.
  do 6 (eapply rates_bind; [rates_step output_log|intros ?]).
  eapply rates_bind; [apply rates_record_audio|intros audio_path].
  apply rates_pure. intros ->.
  do 4 (eapply rates_bind;
        [apply rates_still; [exact Hl|solve [frames ltac:(done)]]|intros ?]).
  eapply rates_bind; [by apply transcribe_audio_rates|intros transcription].
  apply (rates_weaken (λ _, True) _ _ (λ _ _, True)); [done|done|].
  repeat first
    [ eapply rates_bind; [rates_step output_log|intros ?]
    | match goal with |- rates _ (let '(_, _) := ?x in _) _ => destruct x end
    | apply (rates_any []), preserves_return ].
Qed.

End SampleRate.

Section SampleRateExtras.
Import Runtime.

(** X20: in a run, every audio handed to Whisper (language detection and
    decoding) and to IndicConformer is sampled at 16 kHz: each is read from a
    file the run has just recorded at that rate, and nothing in between
    writes to it, as long as the libraries leave "input.wav" alone. *)
Theorem run_feeds_the_models_16_kHz_audio w duration output_log s :
  leaves w (resolve w "input.wav") →
  Forall rated (added (Pipeline.run_voice2voice_evaluation w duration output_log) s).
Proof.
  intros Hl. destruct (run_rates w duration output_log Hl s I) as [(l & E & F) _].
  unfold added. by rewrite E, drop_app_length.
Qed.

Lemma run_feeds_the_models_witness :
  Forall rated
    (added (Pipeline.run_voice2voice_evaluation Examples.caching (PyNum.PyInt 2)
              "evaluation_log.json") Examples.fresh).
Proof.
  apply (run_feeds_the_models_16_kHz_audio Examples.caching (PyNum.PyInt 2)
           "evaluation_log.json" Examples.fresh).
  intros c t f. destruct c; try reflexivity. by apply lookup_insert_ne.
Defined.

End SampleRateExtras.

(** ** models/asr.py: how many attempts the voice loop makes *)
Section AttemptCount.
Import Runtime Language.
Variable w : world.

(** A recording that returns, without playback, has made one call: the
    recording itself. *)
Lemma record_audio_trace duration fs filename s r s1 :
  Audio.record_audio w duration fs filename false s = (Returns r, s1) →
  ∃ frames, and_then (PyNum.mul_int duration fs) PyNum.int = Returns frames
            ∧ trace s1 = trace s ++ [Lib (sd_rec frames fs)].
Proof.
  pose proof (record_audio_cases w duration fs filename false s) as H. cbv zeta in H.
  destruct (and_then _ _) as [frames|e]; [|by rewrite H].
  destruct (respond w _ (trace s)) as [data|e]; [|by rewrite H].
  destruct (Audio.bandpass_filter w _ _ _ _ _) as [filtered|e]; [|by rewrite H].
  destruct (files _ !! _) as [[d []]|]; try by rewrite H.
  all: destruct (store w _ _ _); rewrite H; try done.
  all: intros [= _ <-]; by exists frames.
Qed.

(** What the loop has recorded by the time it stops, [remaining] turns
    being left when it started: all of them when it gives up, at least one
    when it found a language. *)
Definition attempts_made (remaining : nat) (o : outcome (option string * option string))
    (l : list event) : Prop :=
  match o with
  | Returns (None, _) => count is_recording l = remaining
  | Returns (Some _, _) => (1 ≤ count is_recording l ≤ remaining)%nat
  | Raises _ => (count is_recording l ≤ remaining)%nat
  end.

Lemma voice_attempts_made model remaining : ∀ attempt s,
  ∃ l, trace (ASR.voice_attempts w model attempt remaining s).2 = trace s ++ l
       ∧ attempts_made remaining (ASR.voice_attempts w model attempt remaining s).1 l.
Proof.
  induction remaining as [|n IH]; intros attempt s.
  { exists []. by rewrite app_nil_r. }
  rewrite voice_attempts_turn.
  destruct (voice_attempts_record_at_most w model attempt (S n) s) as (l0 & E0 & C0).
  rewrite voice_attempts_turn in E0.
  destruct (Audio.record_audio w _ _ _ _ s) as [[file_path|e] s1] eqn:Er;
    [|exists l0; by split].
  apply record_audio_trace in Er as (frames & Hfr & Er).
  assert (and_then (PyNum.mul_int (PyNum.PyFloat 1.75) 16000) PyNum.int = Returns 28000%Z)
    as H28 by (by vm_compute).
  rewrite H28 in Hfr. injection Hfr as <-.
  pose proof (load_audio_state w file_path s1) as El.
  destruct (load_audio w file_path s1) as [[a|e] s2]; simpl in El; subst s2;
    [|exists l0; by split].
  cbn [fst snd] in *.
  destruct (respond w _ (trace s1)) as [text|e]; [|exists l0; by split].
  destruct (PyStr.truthy _) eqn:Et.
  - exists l0. split; [done|]. simpl in *.
    destruct (get_language_code (PyStr.strip text)) as [[code|] name]; [|done].
    split; [|done]. rewrite Er, <- app_assoc in E0. apply app_inv_head in E0.
    subst l0. unfold count. simpl. lia.
  - destruct (IH (S attempt) (called w (whisper_decode model a) s1)) as (l & E & C).
    exists ([Lib (sd_rec 28000 16000); Lib (whisper_decode model a)] ++ l).
    split; [rewrite E; cbn [called set_files log trace]; rewrite Er; by rewrite <- !app_assoc|].
    unfold attempts_made in *.
    destruct (ASR.voice_attempts w model (S attempt) n _).1 as [[[c|] name]|e];
      rewrite count_app; unfold count at 1; simpl; lia.
Qed.

End AttemptCount.

Section AttemptCountExtras.
Import Runtime Language.

(** X21: [detect_target_language_by_voice(attempts)] gives up only after
    all its attempts: when it returns no language it has recorded exactly
    [attempts] times (not at all for [attempts = 0]); when it returns a
    language it has recorded at least once and at most [attempts] times;
    and when it raises it has not recorded more often than that. *)
Theorem voice_detection_gives_up_after_all_attempts w attempts s :
  let run := ASR.detect_target_language_by_voice w attempts s in
  let recordings :=
    count is_recording (added (ASR.detect_target_language_by_voice w attempts) s) in
  match run.1 with
  | Returns (None, _) => recordings = attempts
  | Returns (Some _, _) => (1 ≤ recordings ≤ attempts)%nat
  | Raises _ => (recordings ≤ attempts)%nat
  end.
Proof.
  intros run recordings. subst run recordings. unfold added.
  unfold ASR.detect_target_language_by_voice. unfold bind.
  destruct (costs_free w [] is_recording 0 (ASR.get_whisper_model w)) with s
    as (l0 & E0 & C0).
  { unfold ASR.get_whisper_model. frames ltac:(done). }
  destruct (ASR.get_whisper_model w s) as [[model|e] s1]; simpl in *.
  - destruct (voice_attempts_made w model attempts 0%nat s1) as (l & E & C).
    rewrite E, E0, <- app_assoc, drop_app_length, count_app.
    replace (count is_recording l0) with 0%nat by lia. exact C.
  - rewrite E0, drop_app_length. lia.
Qed.

End AttemptCountExtras.

(** ** run_pipeline.py: how often a run calls each model *)
Section CallBounds.
Import Runtime.
Variable w : world.
Variable f : event → bool.

Lemma costs_skip {A B} names n (m : M A) (k : A → M B) :
  preserves w names (λ e, f e = false) m → (∀ a, costs f n (k a)) → costs f n (bind m k).
Proof. intros Hm Hk. apply (costs_bind f 0 n); [by apply (costs_free w names)|done]. Qed.

Lemma costs_lib c : costs f 1 (lib w c).
Proof.
  intros s. exists [Lib c]. split; [done|]. unfold count. simpl. destruct (f (Lib c)); simpl; lia.
Qed.

Lemma costs_here {A B} n (m : M A) (k : A → M B) :
  costs f 1 m → (∀ a, costs f n (k a)) → costs f (S n) (bind m k).
Proof. apply (costs_bind f 1 n). Qed.

Lemma costs_try {A} n (m : M A) caught h :
  costs f n m → (∀ e, preserves w [] (λ e, f e = false) (h e)) →
  costs f n (try_except m caught h).
Proof.
  intros Hm Hh s. destruct (Hm s) as (l & E & C). unfold try_except.
  destruct (m s) as [[a|e] s1]; simpl in *; [by exists l|].
  destruct (caught e); [|by exists l].
  destruct (Hh e s1) as [(l' & E' & F') _]. exists (l ++ l').
  rewrite E', E, app_assoc, count_app, (count_none _ _ F'). split; [done|lia].
Qed.

End CallBounds.

(** One step of a bound on a single function: the call that counts is paid
    for where it stands; everything else is free. *)
Ltac bound_step w names :=
  lazymatch goal with
  | |- costs ?f (S ?n) (Runtime.bind (Runtime.lib w ?c) _) =>
      first [ apply (costs_skip w f names);
              [apply (preserves_lib w names _ c); reflexivity|intros ?]
            | apply (costs_here f n); [apply (costs_lib w f c)|intros ?] ]
  | |- costs ?f (S ?n) (Runtime.bind _ _) =>
      first [ apply (costs_skip w f names);
              [solve [frames ltac:(first [reflexivity | by left | done])]|intros ?]
            | apply (costs_here f n); [|intros ?] ]
  | |- costs ?f _ (Runtime.bind _ _) =>
      apply (costs_skip w f names);
      [solve [frames ltac:(first [reflexivity | by left | done])]|intros ?]
  | |- costs _ _ (Runtime.try_except _ _ _) =>
      apply (costs_try w); [|intros ?; apply preserves_return]
  | |- costs _ _ (match ?x with _ => _ end) => destruct x
  | |- costs _ _ (let '(_, _) := ?x in _) => destruct x
  | |- costs ?f (S _) (Runtime.lib w ?c) =>
      first [ apply (costs_free w names); apply (preserves_lib w names _ c); reflexivity
            | apply (costs_weaken f 1); [lia|apply (costs_lib w f c)] ]
  | |- costs _ _ _ =>
      apply (costs_free w names);
      solve [frames ltac:(first [reflexivity | by left | done])]
  end.

Section CallBoundsFunctions.
Import Runtime.
Variable w : world.

Definition is_detection (e : event) : bool :=
  match e with Lib (whisper_detect_language _ _) => true | _ => false end.
Definition is_indic_load (e : event) : bool :=
  match e with Lib (AutoModel_from_pretrained _) => true | _ => false end.
Definition is_indic_transcription (e : event) : bool :=
  match e with Lib (indic_model_call _ _ _ _) => true | _ => false end.
Definition is_pipeline_load (e : event) : bool :=
  match e with Lib (pipeline _ _) => true | _ => false end.
Definition is_translation (e : event) : bool :=
  match e with Lib (nllb_call _ _ _ _ _) => true | _ => false end.
Definition is_parler_load (e : event) : bool :=
  match e with Lib (ParlerTTS_from_pretrained _) => true | _ => false end.
Definition is_synthesis (e : event) : bool :=
  match e with Lib (parler_generate _ _ _ _ _) => true | _ => false end.
Definition is_engine_init (e : event) : bool :=
  match e with Lib pyttsx3_init => true | _ => false end.
Definition is_say (e : event) : bool :=
  match e with Lib (engine_say _ _) => true | _ => false end.

(** The calls that [transcribe_audio], [translate_with_nllb] and
    [play_tts_output] make at most once. *)
Definition asr_once : list (event → bool) :=
  [is_detection; is_indic_load; is_indic_transcription].
Definition translation_once : list (event → bool) := [is_pipeline_load; is_translation].
Definition tts_once : list (event → bool) :=
  [is_parler_load; is_synthesis; is_engine_init; is_say].

Lemma transcribe_audio_once audio_path :
  Forall (λ f, costs f 1 (ASR.transcribe_audio w audio_path)) asr_once.
Proof.
  repeat constructor;
    unfold ASR.transcribe_audio, ASR.get_whisper_model, ASR.detect_input_language_whisper,
      ASR.indic_transcribe, ASR.whisper_transcribe, ASR.get_indic_model;
    repeat bound_step w (@nil string).
Qed.

Lemma translate_with_nllb_once text src_lang_code tgt_lang_code :
  Forall (λ f, costs f 1 (Translation.translate_with_nllb w text src_lang_code tgt_lang_code))
    translation_once.
Proof.
  repeat constructor;
    unfold Translation.translate_with_nllb, Translation.get_nllb_pipeline;
    repeat bound_step w (@nil string).
Qed.

Lemma play_tts_output_once text lang_type tgt_lang_code :
  Forall (λ f, costs f 1 (TTS.play_tts_output w text lang_type tgt_lang_code)) tts_once.
Proof.
  repeat constructor;
    unfold TTS.play_tts_output, TTS.generate_speech, TTS.load_parler_tts,
      TTS.get_tts_engine, Audio.play_wav;
    repeat bound_step w [resolve w "output_indic.wav"].
Qed.


(** The calls a run makes at most once. *)
Definition once : list (event → bool) := asr_once ++ translation_once ++ tts_once.

Lemma run_once f duration output_log :
  f ∈ once → costs f 1 (Pipeline.run_voice2voice_evaluation w duration output_log).
Proof.
  intros Hf. unfold once, asr_once, translation_once, tts_once in Hf. simpl in Hf.
  repeat (apply elem_of_cons in Hf as [->|Hf]); [..|by apply elem_of_nil in Hf];
    unfold Pipeline.run_voice2voice_evaluation;
    repeat first
      [ apply (costs_skip w _ (resolve w output_log :: sounds w)); [solve [repeat silent_step]|intros ?]
      | apply costs_here;
        [ first
            [ refine (proj1 (Forall_forall _ _) (transcribe_audio_once _) _ _)
            | refine (proj1 (Forall_forall _ _) (translate_with_nllb_once _ _ _) _ _)
            | refine (proj1 (Forall_forall _ _) (play_tts_output_once _ _ _) _ _) ];
          solve [repeat constructor]
        | intros ? ]
      | match goal with |- costs _ _ (let '(_, _) := ?x in _) => destruct x end
      | apply (costs_free w []), preserves_return ].
Qed.

Lemma run_records duration output_log :
  costs is_recording 3 (Pipeline.run_voice2voice_evaluation w duration output_log).
Proof.
  unfold Pipeline.run_voice2voice_evaluation.
  repeat first
    [ apply (costs_skip w _ (resolve w output_log :: sounds w));
      [ first [ solve [repeat silent_step]
              | solve [unfold Audio.play_beep; frames ltac:(done)] ]
      | intros ? ]
    | apply (costs_bind is_recording 1 2); [apply record_audio_records_once|intros ?]
    | apply (costs_bind is_recording 2 0);
      [apply get_target_language_records_at_most_twice|intros ?]
    | match goal with |- costs _ _ (let '(_, _) := ?x in _) => destruct x end
    | apply (costs_free w []), preserves_return ].
Qed.

Lemma run_asks duration output_log :
  costs is_typed_input 1 (Pipeline.run_voice2voice_evaluation w duration output_log).
Proof.
  unfold Pipeline.run_voice2voice_evaluation.
  repeat first
    [ apply (costs_skip w _ (resolve w output_log :: sounds w)); [solve [repeat silent_step]|intros ?]
    | apply (costs_bind is_typed_input 1 0);
      [apply get_target_language_asks_at_most_once|intros ?]
    | match goal with |- costs _ _ (let '(_, _) := ?x in _) => destruct x end
    | apply (costs_free w []), preserves_return ].
Qed.

End CallBoundsFunctions.

Section CallBoundsExtras.
Import Runtime.

(** X22: a run, whether it returns or raises, makes at most one call of
    each of these kinds: Whisper's language detection, loading IndicConformer
    and transcribing with it, building the NLLB pipeline and translating with
    it, loading Indic-Parler and generating with it, starting pyttsx3 and
    saying a text.  It asks for typed input at most once and records at most
    three times (the input, and two attempts at the target language). *)
Theorem run_calls_each_model_at_most_once w duration output_log s :
  let calls := added (Pipeline.run_voice2voice_evaluation w duration output_log) s in
  Forall (λ f, (count f calls ≤ 1)%nat) once
  ∧ (count is_typed_input calls ≤ 1)%nat
  ∧ (count is_recording calls ≤ 3)%nat.
Proof.
  intros calls. split; [|split].
  - apply Forall_forall. intros f Hf. by apply costs_added, run_once.
  - apply costs_added, run_asks.
  - apply costs_added, run_records.
Qed.

End CallBoundsExtras.
